(** * Dependency.cpp: a shallow embedding of the dependency analysis

    The development follows lib/Core/Dependency.cpp of the Tracer-X
    symbolic virtual machine: the tabbing helpers, the shadow-array
    substitution on symbolic expressions, the derived-offset memory
    location, the location graph and the per-frame dependency store.

    Conventions.  A C++ pointer is a natural number, [0] being the null
    pointer.  A [std::map] keyed by pointers is a [gmap nat _], a
    [std::set] of pointers a [gset nat]; where the source iterates such a
    container the model walks its keys in increasing order, as the C++
    containers do.  A [uint64_t] is a [Z] reduced modulo [2^64].  Functions
    that the source lets abort (a failed [assert], an out-of-range [at])
    or that may recurse for ever return an [option]. *)

From Stdlib Require Import ZArith Lia.
From stdpp Require Import base option list sorting gmap strings.

Set Warnings "-clear-no-such-hyp".

(** ** Tabbing utility (end of the file) *)

Module Tabbing.

(** [std::string appendTab(const std::string &prefix)] *)
Definition appendTab (prefix : string) : string := prefix +:+ "        ".

(** The body of the [for] loop of [makeTabs], run [n] more times on the
    current value of [tabsString]:  [tabsString += appendTab(tabsString)]. *)
Fixpoint makeTabs_loop (n : nat) (tabsString : string) : string :=
  match n with
  | O => tabsString
  | S k => makeTabs_loop k (tabsString +:+ appendTab tabsString)
  end.

(** [std::string makeTabs(const unsigned paddingAmount)] *)
Definition makeTabs (paddingAmount : nat) : string :=
  makeTabs_loop paddingAmount "".

(** [n] indent units of eight spaces each, what a caller expects. *)
Fixpoint indent_units (n : nat) : string :=
  match n with
  | O => ""
  | S k => indent_units k +:+ "        "
  end.

End Tabbing.

(** ** Shadow substitution ([ShadowArray]) *)

Module ShadowArray.

(** The kinds that the [switch] of [getShadowExpression] sends to
    [createBinaryOfSameKind].  The source lists [Expr::Not] in this group
    and reads [getKid(0)] and [getKid(1)] of every node of the group, so a
    node of the group carries two kids here. *)
Inductive BinaryKind :=
  | KConcat | KAdd | KSub | KMul | KUDiv | KSDiv | KURem | KSRem | KNot
  | KAnd | KOr | KXor | KShl | KLShr | KAShr | KEq | KNe | KUlt | KUle
  | KUgt | KUge | KSlt | KSle | KSgt | KSge.

(** Symbolic expressions and update lists of the expression library, as
    far as the source looks into them.  An array is a [const Array *]; the
    null [UpdateNode *] is [UNull].  [Unhandled] stands for every kind the
    [switch] leaves to its [default] branch. *)
Inductive Expr :=
  | Read (root : nat) (head : UpdateNode) (index : Expr)
  | Constant (value : Z) (width : nat)
  | Select (cond tExpr fExpr : Expr)
  | Extract (e : Expr) (offset width : nat)
  | ZExt (e : Expr) (width : nat)
  | SExt (e : Expr) (width : nat)
  | Binary (k : BinaryKind) (l r : Expr)
  | NotOptimized (e : Expr)
  | Unhandled (kind : nat)
with UpdateNode :=
  | UNull
  | UNode (next : UpdateNode) (index value : Expr).

Scheme Expr_mut := Induction for Expr Sort Prop
  with UpdateNode_mut := Induction for UpdateNode Sort Prop.
Combined Scheme Expr_UpdateNode_ind from Expr_mut, UpdateNode_mut.

(** The static map [ShadowArray::shadowArray] and the set the caller
    passes by reference, threaded through the substitution. *)
Record ShadowState := mkShadowState {
  shadowArray : gmap nat nat;
  replacements : gset nat
}.

(** State and failure: a computation either aborts or returns a value with
    the new state. *)
Definition Shadow (A : Type) : Type := ShadowState → option (A * ShadowState).

Definition sret {A} (a : A) : Shadow A := λ s, Some (a, s).

Definition sfail {A} : Shadow A := λ _, None.

Definition sbind {A B} (m : Shadow A) (k : A → Shadow B) : Shadow B :=
  λ s, match m s with
       | Some (a, s') => k a s'
       | None => None
       end.

Notation "x <~ m ;; k" := (sbind m (λ x, k))
  (at level 100, m at next level, right associativity).

(** [shadowArray[source] = target] *)
Definition addShadowArrayMap (source target : nat) (s : ShadowState) : ShadowState :=
  mkShadowState (<[source := target]> (shadowArray s)) (replacements s).

(** [shadowArray[root]] as an rvalue: [std::map::operator[]] returns the
    mapped pointer, and for a key that is absent it first inserts the key
    with a value-initialised (null) pointer. *)
Definition shadowArray_subscript (root : nat) : Shadow nat :=
  λ s, match shadowArray s !! root with
       | Some target => Some (target, s)
       | None => Some (0, mkShadowState (<[root := 0]> (shadowArray s)) (replacements s))
       end.

(** [if (std::find(...) == replacements.end()) replacements.insert(a);] *)
Definition record_replacement (a : nat) : Shadow unit :=
  λ s, if decide (a ∈ replacements s)
       then Some (tt, s)
       else Some (tt, mkShadowState (shadowArray s) ({[a]} ∪ replacements s)).

(** [ShadowArray::getShadowExpression] and [ShadowArray::getShadowUpdate].
    The expression library is not part of this repository: its [alloc]
    functions, its factory [createFromKind] and [NotOptimizedExpr::create]
    are taken to build the node they are asked for over the kids they are
    given (what the library simplifies at construction is not modelled).  C++ leaves the order of evaluation of the
    arguments of one call open; the kids are visited left to right here,
    and the final state does not depend on that order (it is the union of
    what each visit adds). *)
Fixpoint getShadowExpression (expr : Expr) : Shadow Expr :=
  match expr with
  | Read root head index =>
      replacementArray <~ shadowArray_subscript root ;;
      _ <~ record_replacement replacementArray ;;
      newHead <~ getShadowUpdate head ;;
      newIndex <~ getShadowExpression index ;;
      sret (Read replacementArray newHead newIndex)
  | Constant _ _ => sret expr
  | Select c t f =>
      c' <~ getShadowExpression c ;;
      t' <~ getShadowExpression t ;;
      f' <~ getShadowExpression f ;;
      sret (Select c' t' f')
  | Extract e offset width =>
      e' <~ getShadowExpression e ;;
      sret (Extract e' offset width)
  | ZExt e width =>
      e' <~ getShadowExpression e ;;
      sret (ZExt e' width)
  | SExt e width =>
      e' <~ getShadowExpression e ;;
      sret (SExt e' width)
  | Binary k l r =>
      l' <~ getShadowExpression l ;;
      r' <~ getShadowExpression r ;;
      sret (Binary k l' r')
  | NotOptimized e =>
      e' <~ getShadowExpression e ;;
      sret (NotOptimized e')
  | Unhandled _ => sfail
  end
with getShadowUpdate (source : UpdateNode) : Shadow UpdateNode :=
  match source with
  | UNull => sret UNull
  | UNode next index value =>
      next' <~ getShadowUpdate next ;;
      index' <~ getShadowExpression index ;;
      value' <~ getShadowExpression value ;;
      sret (UNode next' index' value')
  end.

(** What the substitution is meant to compute, for comparison: the tree
    with the array of every read replaced through [f]. *)
Fixpoint rename_arrays (f : nat → nat) (expr : Expr) : Expr :=
  match expr with
  | Read root head index =>
      Read (f root) (rename_updates f head) (rename_arrays f index)
  | Constant v w => Constant v w
  | Select c t e => Select (rename_arrays f c) (rename_arrays f t) (rename_arrays f e)
  | Extract e o w => Extract (rename_arrays f e) o w
  | ZExt e w => ZExt (rename_arrays f e) w
  | SExt e w => SExt (rename_arrays f e) w
  | Binary k l r => Binary k (rename_arrays f l) (rename_arrays f r)
  | NotOptimized e => NotOptimized (rename_arrays f e)
  | Unhandled k => Unhandled k
  end
with rename_updates (f : nat → nat) (u : UpdateNode) : UpdateNode :=
  match u with
  | UNull => UNull
  | UNode next index value =>
      UNode (rename_updates f next) (rename_arrays f index) (rename_arrays f value)
  end.

(** The arrays an expression reads, update histories included. *)
Fixpoint arrays_read (expr : Expr) : gset nat :=
  match expr with
  | Read root head index => {[root]} ∪ arrays_read_updates head ∪ arrays_read index
  | Constant _ _ => ∅
  | Select c t e => arrays_read c ∪ arrays_read t ∪ arrays_read e
  | Extract e _ _ | ZExt e _ | SExt e _ | NotOptimized e => arrays_read e
  | Binary _ l r => arrays_read l ∪ arrays_read r
  | Unhandled _ => ∅
  end
with arrays_read_updates (u : UpdateNode) : gset nat :=
  match u with
  | UNull => ∅
  | UNode next index value =>
      arrays_read_updates next ∪ arrays_read index ∪ arrays_read value
  end.

(** No node of a kind the [switch] does not handle. *)
Fixpoint handled (expr : Expr) : bool :=
  match expr with
  | Read _ head index => handled_updates head && handled index
  | Constant _ _ => true
  | Select c t e => handled c && handled t && handled e
  | Extract e _ _ | ZExt e _ | SExt e _ | NotOptimized e => handled e
  | Binary _ l r => handled l && handled r
  | Unhandled _ => false
  end
with handled_updates (u : UpdateNode) : bool :=
  match u with
  | UNull => true
  | UNode next index value =>
      handled_updates next && handled index && handled value
  end.

(** The shadow the map holds for an array, null for an array without
    entry: what [shadowArray[a]] evaluates to. *)
Definition shadow_of (m : gmap nat nat) (a : nat) : nat := default 0 (m !! a).

(** The map after the reads of [e]: every array read that had no entry has
    the null entry. *)
Definition with_null_entries (reads : gset nat) (m : gmap nat nat) : gmap nat nat :=
  m ∪ gset_to_gmap 0 reads.

(** The state a visit leaves that read the arrays in [reads]: the map with
    the null entries added, the set with what the map held for each. *)
Definition after_reads (reads : gset nat) (s : ShadowState) : ShadowState :=
  mkShadowState (with_null_entries reads (shadowArray s))
                (replacements s ∪ set_map (shadow_of (shadowArray s)) reads).

(** What a visit of an expression, or of an update list, returns; [f] is
    any function that agrees with the map on entry. *)
Definition expression_visit (e : Expr) : Prop :=
  ∀ (s : ShadowState) (f : nat → nat),
    (∀ a, f a = shadow_of (shadowArray s) a) →
    getShadowExpression e s =
      if handled e
      then Some (rename_arrays f e, after_reads (arrays_read e) s)
      else None.

Definition update_visit (u : UpdateNode) : Prop :=
  ∀ (s : ShadowState) (f : nat → nat),
    (∀ a, f a = shadow_of (shadowArray s) a) →
    getShadowUpdate u s =
      if handled_updates u
      then Some (rename_updates f u, after_reads (arrays_read_updates u) s)
      else None.

(** The round trip in its strict form, on the map [m], the supplied set
    [R] and the expression [e]: the result differs from [e] only in that
    the reads against a registered array go against its shadow, the set
    holds the shadow of every registered array that is read, and it holds
    nothing but registered shadows of arrays that are read. *)
Definition roundtrip_on_registered (m : gmap nat nat) (R : gset nat) (e : Expr) : Prop :=
  ∃ e' s',
    getShadowExpression e (mkShadowState m R) = Some (e', s') ∧
    e' = rename_arrays (λ a, default a (m !! a)) e ∧
    (∀ X Y, m !! X = Some Y → X ∈ arrays_read e → Y ∈ replacements s') ∧
    (∀ a, a ∈ replacements s' → ∃ X, X ∈ arrays_read e ∧ m !! X = Some a).

(** The frame condition in its strict form: the set only grows and the
    map is the same afterwards. *)
Definition map_left_unchanged (s : ShadowState) (e : Expr) : Prop :=
  ∀ e' s',
    getShadowExpression e s = Some (e', s') →
    replacements s ⊆ replacements s' ∧ shadowArray s' = shadowArray s.

End ShadowArray.

(** ** Memory locations: the derived-offset constructor *)

Module Location.
Import ShadowArray.

(** A [ref<Expr>]: [None] is the null reference a default-constructed
    [ref] holds. *)
Abbreviation ref := (option Expr).

(** Modelled from the spec: the class [MemoryLocation] is declared in
    Dependency.h, which is not part of the sources at hand.  The members
    are the four the constructor names: the core flag, the site, and the
    [address] and [offset] expressions. *)
Record MemoryLocation := mkMemoryLocation {
  core : bool;
  site : nat;
  address : ref;
  offset : ref
}.

Definition set_offset (o : ref) (l : MemoryLocation) : MemoryLocation :=
  mkMemoryLocation (core l) (site l) (address l) o.

(** [uint64_t] arithmetic. *)
Definition uint64 (z : Z) : Z := z mod 2 ^ 64.

(** [llvm::dyn_cast<ConstantExpr>(r.get())]: the constant behind a
    reference, [None] for a node of another kind.  [dyn_cast] must not be
    given a null pointer; the constructor below treats that case apart. *)
Definition dyn_cast_ConstantExpr (e : Expr) : option (Z * nat) :=
  match e with
  | Constant v w => Some (v, w)
  | _ => None
  end.

(** [ConstantExpr::getZExtValue()]: the value as a [uint64_t]. *)
Definition getZExtValue (c : Z * nat) : Z := uint64 (fst c).

(** [ConstantExpr::create(v, Expr::Int64)] *)
Definition ConstantExpr_create_Int64 (v : Z) : ref := Some (Constant (uint64 v) 64).

Section Constructor.

(** [AddExpr::create] belongs to the expression library. *)
Variable AddExpr_create : ref → ref → ref.

(** [MemoryLocation::MemoryLocation(MemoryLocation *loc, ref<Expr> &_offset)].
    The member initialisers copy [core], [site] and [address]; the member
    [offset] is not among them, so it is default-constructed, and it is
    this member, not [loc->offset], that the [else] branch hands to
    [AddExpr::create].  The result is [None] where [dyn_cast] is applied
    to a null pointer. *)
Definition MemoryLocation_derived (loc : MemoryLocation) (_offset : ref)
  : option MemoryLocation :=
  let this := mkMemoryLocation (core loc) (site loc) (address loc) None in
  match offset loc, _offset with
  | Some locOffset, Some extra =>
      match dyn_cast_ConstantExpr locOffset, dyn_cast_ConstantExpr extra with
      | Some offsetConst, Some extraConst =>
          let newConst := uint64 (getZExtValue offsetConst + getZExtValue extraConst) in
          Some (set_offset (ConstantExpr_create_Int64 newConst) this)
      | _, _ =>
          Some (set_offset (AddExpr_create (offset this) _offset) this)
      end
  | _, _ => None
  end.

End Constructor.

End Location.

(** ** The location graph *)

Module Graph.

(** Modelled from the spec: [LocationNode] is declared in Dependency.h,
    which is not part of the sources at hand.  Following the spec, a node
    wraps one memory location, a level and its parent nodes.  A node
    pointer is the position of the node in [allNodes]: the graph pushes
    every node it allocates onto [allNodes] and never removes one. *)
Record LocationNode := mkLocationNode {
  getLocation : nat;
  getLevel : Z;
  getParents : list nat
}.

(** Modelled from the spec: [LocationNode::addParent] is declared in
    Dependency.h.  The spec has the parents of a node form a set, so a
    parent that is already recorded is not recorded again; and it has the
    target of a recorded edge leveled one above the higher of its own
    current level and the source's level, [parentLevel] here.  Levels are
    [uint64_t], as [addNewEdge] shows. *)
Definition addParent (parent : nat) (parentLevel : Z) (n : LocationNode) : LocationNode :=
  mkLocationNode (getLocation n)
                 ((Z.max (getLevel n) parentLevel + 1) mod 2 ^ 64)
                 (if decide (parent ∈ getParents n) then getParents n
                  else getParents n ++ [parent]).

(** Modelled from the spec: the members of [LocationGraph] are declared
    in Dependency.h; the source uses the vector of all nodes and the
    vector of the current sinks. *)
Record LocationGraph := mkLocationGraph {
  allNodes : list LocationNode;
  sinks : list nat
}.

Definition empty_graph : LocationGraph := mkLocationGraph [] [].

(** Reading through a node pointer. *)
Definition node_at (g : LocationGraph) (p : nat) : LocationNode :=
  default (mkLocationNode 0 0 []) (allNodes g !! p).

(** The first node of [allNodes] whose location is [l], as the search
    loops of [isVisited] and [addNewEdge] find it. *)
Fixpoint find_node_from (i : nat) (l : nat) (ns : list LocationNode) : option nat :=
  match ns with
  | [] => None
  | n :: rest => if decide (getLocation n = l) then Some i
                 else find_node_from (S i) l rest
  end.

Definition find_node (l : nat) (g : LocationGraph) : option nat :=
  find_node_from 0 l (allNodes g).

(** [LocationGraph::isVisited] *)
Definition isVisited (l : nat) (g : LocationGraph) : bool :=
  bool_decide (is_Some (find_node l g)).

(** [LocationGraph::addNewSink] *)
Definition addNewSink (candidateSink : nat) (g : LocationGraph) : LocationGraph :=
  if isVisited candidateSink g then g
  else mkLocationGraph (allNodes g ++ [mkLocationNode candidateSink 0 []])
                       (sinks g ++ [length (allNodes g)]).

(** [new LocationNode(l, level)] followed by [allNodes.push_back]: the new
    pointer and the new vector. *)
Definition new_node (l : nat) (level : Z) (ns : list LocationNode)
  : nat * list LocationNode :=
  (length ns, ns ++ [mkLocationNode l level []]).

(** [LocationGraph::addNewEdge].  The search loop leaves in [targetNode]
    and [sourceNode] the first node with the target's and the source's
    location (it stops early only once both are found). *)
Definition addNewEdge (source target : nat) (g : LocationGraph) : LocationGraph :=
  let sourceNode := find_node source g in
  let targetNode := find_node target g in
  let targetNodeLevel :=
    match targetNode with
    | Some t => getLevel (node_at g t)
    | None => 0%Z
    end in
  let '(sourceNode, nodes1, newNode1) :=
    match sourceNode with
    | None =>
        let '(p, ns) := new_node source ((targetNodeLevel + 1) mod 2 ^ 64) (allNodes g) in
        (p, ns, true)
    | Some s =>
        if decide (s ∈ sinks g) then (s, allNodes g, false)
        else
          let '(p, ns) := new_node source ((targetNodeLevel + 1) mod 2 ^ 64) (allNodes g) in
          (p, ns, true)
    end in
  let '(targetNode, nodes2, sinks2, newNode2) :=
    match targetNode with
    | None =>
        let '(p, ns) := new_node target targetNodeLevel nodes1 in
        (p, ns, sinks g ++ [p], true)
    | Some t => (t, nodes1, sinks g, newNode1)
    end in
  let g2 := mkLocationGraph nodes2 sinks2 in
  if newNode2 || negb (getLevel (node_at g2 targetNode) <? getLevel (node_at g2 sourceNode))%Z
  then mkLocationGraph
         (alter (addParent sourceNode (getLevel (node_at g2 sourceNode))) targetNode nodes2)
         sinks2
  else g2.

(** The first position in [sinks] holding a node with location [l]. *)
Fixpoint find_sink_from (g : LocationGraph) (i : nat) (l : nat) (ss : list nat)
  : option nat :=
  match ss with
  | [] => None
  | p :: rest => if decide (getLocation (node_at g p) = l) then Some i
                 else find_sink_from g (S i) l rest
  end.

(** [if (std::find(sinks...) == sinks.end()) sinks.push_back(p)] *)
Definition push_sink_once (ss : list nat) (p : nat) : list nat :=
  if decide (p ∈ ss) then ss else ss ++ [p].

(** [LocationGraph::consumeSinkNode] *)
Definition consumeSinkNode (l : nat) (g : LocationGraph) : LocationGraph :=
  match find_sink_from g 0 l (sinks g) with
  | None => g
  | Some pos =>
      let parents := getParents (node_at g (default 0 (sinks g !! pos))) in
      mkLocationGraph (allNodes g) (foldl push_sink_once (delete pos (sinks g)) parents)
  end.

(** [LocationGraph::getSinkLocations] *)
Definition getSinkLocations (g : LocationGraph) : gset nat :=
  list_to_set ((λ p, getLocation (node_at g p)) <$> sinks g).

(** [LocationGraph::getSinksWithLocations] *)
Definition getSinksWithLocations (locationsList : list nat) (g : LocationGraph)
  : gset nat :=
  list_to_set (filter (λ l, l ∈ locationsList)
                      ((λ p, getLocation (node_at g p)) <$> sinks g)).

(** The elements of a [std::set] of pointers in the order its iterator
    yields them. *)
Definition set_in_order (s : gset nat) : list nat := merge_sort (≤) (elements s).

(** [LocationGraph::consumeSinksWithLocations]; the recursion "until
    fixpoint" is bounded by [fuel], [None] meaning the bound was hit. *)
Fixpoint consumeSinksWithLocations (fuel : nat) (locationsList : list nat)
    (g : LocationGraph) : option LocationGraph :=
  match fuel with
  | O => None
  | S fuel' =>
      let sinkLocs := getSinksWithLocations locationsList g in
      if decide (sinkLocs = ∅) then Some g
      else consumeSinksWithLocations fuel' locationsList
             (foldl (λ g' l, consumeSinkNode l g') g (set_in_order sinkLocs))
  end.

(** [p] is reached from [q] by following one or more parent links. *)
Inductive parent_path (g : LocationGraph) : nat → nat → Prop :=
  | parent_path_one q p :
      p ∈ getParents (node_at g q) → parent_path g q p
  | parent_path_step q r p :
      r ∈ getParents (node_at g q) → parent_path g r p → parent_path g q p.

(** The location [l] is reachable from itself: some node for [l] leads,
    by parent links, to a node for [l]. *)
Definition location_on_cycle (g : LocationGraph) (l : nat) : Prop :=
  ∃ q p, q < length (allNodes g) ∧ p < length (allNodes g) ∧
         getLocation (node_at g q) = l ∧ getLocation (node_at g p) = l ∧
         parent_path g q p.

(** A sequence of [addNewEdge(source, target)] calls, first call first. *)
Definition addNewEdges (edges : list (nat * nat)) (g : LocationGraph) : LocationGraph :=
  foldl (λ g' e, addNewEdge e.1 e.2 g') g edges.

(** [rank] decreases along every parent link: the links form no cycle. *)
Definition ranked (g : LocationGraph) (rank : nat → nat) : Prop :=
  ∀ q p, p ∈ getParents (node_at g q) → rank p < rank q.

(** One more than the largest number of parents any node has. *)
Definition fanout (g : LocationGraph) : nat :=
  S (max_list_with (λ n, length (getParents n)) (allNodes g)).

(** The weight of a sink list: a sink of rank [r] counts [fanout ^ r]. *)
Definition weight (base : nat) (rank : nat → nat) (ss : list nat) : nat :=
  sum_list_with (λ p, base ^ rank p) ss.

(** No dangling node pointer and no sink listed twice. *)
Definition well_formed_graph (g : LocationGraph) : Prop :=
  Forall (λ p, p < length (allNodes g)) (sinks g) ∧
  Forall (λ n, Forall (λ p, p < length (allNodes g)) (getParents n)) (allNodes g) ∧
  NoDup (sinks g).

(** The operations that build and prune a graph. *)
Inductive graph_op :=
  | OpSink (l : nat)
  | OpEdge (source target : nat)
  | OpConsume (l : nat).

Definition run_op (g : LocationGraph) (op : graph_op) : LocationGraph :=
  match op with
  | OpSink l => addNewSink l g
  | OpEdge source target => addNewEdge source target g
  | OpConsume l => consumeSinkNode l g
  end.

(** Every node has a parent: along parent links one never gets stuck. *)
Definition no_root (g : LocationGraph) : Prop :=
  ∀ q, q < length (allNodes g) →
       getParents (node_at g q) ≠ [] ∧
       Forall (λ p, p < length (allNodes g)) (getParents (node_at g q)).

End Graph.

(** ** The dependency engine *)

Module Dep.
Import ShadowArray Graph.

Abbreviation ref := (option Expr).

(** *** The objects frames point to *)

(** Modelled from the spec: [VersionedValue] is declared in Dependency.h;
    it holds the program value, its expression and the core flag. *)
Record VersionedValue := mkVersionedValue {
  getValue : nat;
  getExpression : ref;
  isCore : bool
}.

(** Modelled from the spec: [VersionedLocation] is declared in
    Dependency.h; it is created from a site and an address. *)
Record VersionedLocation := mkVersionedLocation {
  getSite : nat;
  getAddress : ref
}.

(** The objects allocated with [new] so far.  The pointer to the object at
    position [i] is [S i], which keeps [0] for the null pointer; objects
    are never freed while a frame chain is in use. *)
Record Heap := mkHeap {
  values : list VersionedValue;
  locations : list VersionedLocation
}.

Definition value_at (h : Heap) (p : nat) : option VersionedValue :=
  match p with
  | O => None
  | S i => values h !! i
  end.

(** [p->getExpression()] and [p->getValue()] *)
Definition expression_of (h : Heap) (p : nat) : ref :=
  value_at h p ≫= getExpression.

Definition value_of (h : Heap) (p : nat) : option nat :=
  getValue <$> value_at h p.

(** [new VersionedValue(value, valueExpr)] *)
Definition new_VersionedValue (value : nat) (valueExpr : ref) (h : Heap) : nat * Heap :=
  (S (length (values h)),
   mkHeap (values h ++ [mkVersionedValue value valueExpr false]) (locations h)).

(** [new VersionedLocation(location, address)] *)
Definition new_VersionedLocation (location : nat) (address : ref) (h : Heap) : nat * Heap :=
  (S (length (locations h)),
   mkHeap (values h) (locations h ++ [mkVersionedLocation location address])).

(** *** Frames *)

(** Modelled from the spec: the members of [Dependency] are declared in
    Dependency.h.  These are the ones the source uses, with the container
    types its iterators show; the parent pointer follows below. *)
Record Frame := mkFrame {
  valuesMap : gmap nat (list nat);
  versionedLocationsList : list nat;
  equalityMap : gmap nat (list nat);
  storesMap : gmap nat nat;
  storageOfMap : gmap nat (list nat);
  flowsToMap : gmap nat (gmap nat nat);
  coreLocations : gset nat;
  argumentValuesList : list nat
}.

Definition empty_frame : Frame := mkFrame ∅ [] ∅ ∅ ∅ ∅ ∅ [].

Definition set_valuesMap (m : gmap nat (list nat)) (f : Frame) : Frame :=
  mkFrame m (versionedLocationsList f) (equalityMap f) (storesMap f)
          (storageOfMap f) (flowsToMap f) (coreLocations f) (argumentValuesList f).

Definition set_versionedLocationsList (l : list nat) (f : Frame) : Frame :=
  mkFrame (valuesMap f) l (equalityMap f) (storesMap f)
          (storageOfMap f) (flowsToMap f) (coreLocations f) (argumentValuesList f).

Definition set_equalityMap (m : gmap nat (list nat)) (f : Frame) : Frame :=
  mkFrame (valuesMap f) (versionedLocationsList f) m (storesMap f)
          (storageOfMap f) (flowsToMap f) (coreLocations f) (argumentValuesList f).

Definition set_storesMap (m : gmap nat nat) (f : Frame) : Frame :=
  mkFrame (valuesMap f) (versionedLocationsList f) (equalityMap f) m
          (storageOfMap f) (flowsToMap f) (coreLocations f) (argumentValuesList f).

Definition set_storageOfMap (m : gmap nat (list nat)) (f : Frame) : Frame :=
  mkFrame (valuesMap f) (versionedLocationsList f) (equalityMap f) (storesMap f)
          m (flowsToMap f) (coreLocations f) (argumentValuesList f).

Definition set_flowsToMap (m : gmap nat (gmap nat nat)) (f : Frame) : Frame :=
  mkFrame (valuesMap f) (versionedLocationsList f) (equalityMap f) (storesMap f)
          (storageOfMap f) m (coreLocations f) (argumentValuesList f).

Definition set_coreLocations (s : gset nat) (f : Frame) : Frame :=
  mkFrame (valuesMap f) (versionedLocationsList f) (equalityMap f) (storesMap f)
          (storageOfMap f) (flowsToMap f) s (argumentValuesList f).

Definition set_argumentValuesList (l : list nat) (f : Frame) : Frame :=
  mkFrame (valuesMap f) (versionedLocationsList f) (equalityMap f) (storesMap f)
          (storageOfMap f) (flowsToMap f) (coreLocations f) l.

(** A [Dependency] object: its members and [parentDependency], which is
    null for the outermost frame. *)
#[warnings="-register-all"]
Inductive Dependency :=
  mkDependency (frame : Frame) (parentDependency : option Dependency).

Definition frame (d : Dependency) : Frame :=
  match d with mkDependency f _ => f end.

Definition parentDependency (d : Dependency) : option Dependency :=
  match d with mkDependency _ p => p end.

Definition on_frame (f : Frame → Frame) (d : Dependency) : Dependency :=
  mkDependency (f (frame d)) (parentDependency d).

(** The keys of a [std::map] keyed by pointers, in iteration order. *)
Definition keys_in_order {V} (m : gmap nat V) : list nat :=
  merge_sort (≤) (elements (dom m)).

(** [m.insert(std::make_pair(k, v))]: no effect when the key is present. *)
Definition map_insert_new {V} (k : nat) (v : V) (m : gmap nat V) : gmap nat V :=
  match m !! k with
  | Some _ => m
  | None => <[k := v]> m
  end.

(** Appending to the vector a map holds for a key, creating the vector on
    first use: the [find]/[push_back]/[insert] pattern of
    [getNewVersionedValue], [addPointerEquality] and [updateStore]. *)
Definition map_push_back (k : nat) (x : nat) (m : gmap nat (list nat))
  : gmap nat (list nat) :=
  match m !! k with
  | Some l => <[k := l ++ [x]]> m
  | None => <[k := [x]]> m
  end.

(** [Dependency::getNewVersionedValue] *)
Definition getNewVersionedValue (value : nat) (valueExpr : ref) (f : Frame) (h : Heap)
  : nat * Frame * Heap :=
  let '(ret, h') := new_VersionedValue value valueExpr h in
  (ret, set_valuesMap (map_push_back value ret (valuesMap f)) f, h').

(** [Dependency::getInitialLocation] *)
Definition getInitialLocation (location : nat) (address : ref) (f : Frame) (h : Heap)
  : nat * Frame * Heap :=
  let '(ret, h') := new_VersionedLocation location address h in
  (ret, set_versionedLocationsList (versionedLocationsList f ++ [ret]) f, h').

(** [Dependency::addPointerEquality] *)
Definition addPointerEquality (value location : nat) (f : Frame) : Frame :=
  set_equalityMap (map_push_back value location (equalityMap f)) f.

(** [Dependency::updateStore] *)
Definition updateStore (location value : nat) (f : Frame) : Frame :=
  let stores' :=
    match storesMap f !! location with
    | Some _ => <[location := value]> (storesMap f)
    | None => map_insert_new location value (storesMap f)
    end in
  set_storageOfMap (map_push_back value location (storageOfMap f))
                   (set_storesMap stores' f).

(** [Dependency::addDependencyViaLocation]; [via] may be null. *)
Definition addDependencyViaLocation (source target via : nat) (f : Frame) : Frame :=
  let flows' :=
    match flowsToMap f !! target with
    | Some sources => <[target := map_insert_new source via sources]> (flowsToMap f)
    | None => <[target := map_insert_new source via ∅]> (flowsToMap f)
    end in
  set_flowsToMap flows' f.

(** [Dependency::addDependency] *)
Definition addDependency (source target : nat) (f : Frame) : Frame :=
  addDependencyViaLocation source target 0 f.

(** [Dependency::stores] *)
Fixpoint stores (d : Dependency) (loc : nat) : list nat :=
  match d with
  | mkDependency f parent =>
      match storesMap f !! loc with
      | Some v => [v]
      | None =>
          match parent with
          | Some p => stores p loc
          | None => []
          end
      end
  end.

(** [Dependency::directLocalFlowSources] *)
Definition directLocalFlowSources (f : Frame) (target : nat) : list nat :=
  match flowsToMap f !! target with
  | Some sources => keys_in_order sources
  | None => []
  end.

(** [Dependency::directFlowSources]: the ancestors' sources come first. *)
Fixpoint directFlowSources (d : Dependency) (target : nat) : list nat :=
  match d with
  | mkDependency f parent =>
      let ret := directLocalFlowSources f target in
      match parent with
      | Some p => directFlowSources p target ++ ret
      | None => ret
      end
  end.

(** [std::sort] on a vector of pointers. *)
Definition std_sort (l : list nat) : list nat := merge_sort (≤) l.

(** [std::unique] keeps the first element of every run of equal
    neighbours and moves the kept elements to the front.  [unique_from
    prev l] is what is kept of [l] when [prev] was kept last. *)
Fixpoint unique_from (prev : nat) (l : list nat) : list nat :=
  match l with
  | [] => []
  | y :: l' => if decide (prev = y) then unique_from prev l'
               else y :: unique_from y l'
  end.

Definition unique_prefix (l : list nat) : list nat :=
  match l with
  | [] => []
  | x :: l' => x :: unique_from x l'
  end.

(** The vector after [std::unique(ret.begin(), ret.end())] when the
    iterator it returns is dropped: the kept elements in front, and behind
    them the elements the vector already had there (the algorithm only
    writes to the front part, and copying a pointer leaves its source as
    it was).  The vector keeps its size. *)
Definition std_unique (l : list nat) : list nat :=
  let kept := unique_prefix l in
  kept ++ drop (length kept) l.

(** [Dependency::allFlowSources].  The recursion follows the flow edges
    and need not end on a cyclic flow map: [None] when [fuel] runs out. *)
Fixpoint allFlowSources (fuel : nat) (d : Dependency) (target : nat)
  : option (list nat) :=
  match fuel with
  | O => None
  | S fuel' =>
      let stepSources := directFlowSources d target in
      ret ← foldl (λ acc it,
                     ret ← acc;
                     src ← allFlowSources fuel' d it;
                     Some (src ++ ret))
                  (Some stepSources) stepSources;
      Some (std_unique (std_sort (ret ++ [target])))
  end.

(** The vector [ret] after the loop over the step sources. *)
Definition gather (fuel : nat) (d : Dependency) (init : option (list nat))
    (stepSources : list nat) : option (list nat) :=
  foldl (λ acc it,
           ret ← acc;
           src ← allFlowSources fuel d it;
           Some (src ++ ret))
        init stepSources.

(** A frame in which the value 10 has the single flow source 20. *)
Definition flow_example : Dependency :=
  mkDependency (addDependency 20 10 empty_frame) None.

(** [Dependency::computeCoreLocations] *)
Fixpoint computeCoreLocations (fuel : nat) (d : Dependency) (g : LocationGraph)
  : option (Dependency * LocationGraph) :=
  match d with
  | mkDependency f parent =>
      let f' := set_coreLocations (coreLocations f ∪ getSinkLocations g) f in
      match parent with
      | Some p =>
          g' ← consumeSinksWithLocations fuel (versionedLocationsList f) g;
          '(p', g'') ← computeCoreLocations fuel p g';
          Some (mkDependency f' (Some p'), g'')
      | None => Some (mkDependency f' None, g)
      end
  end.

(** *** The program under analysis *)

(** What [getLatestValue] asks of an [llvm::Value]: whether it is a
    [ConstantExpr] (and whether [getAsInstruction] then yields a
    [GetElementPtrInst]), a [GlobalValue], another [Constant], or no
    constant at all; and whether its type is a pointer type. *)
Inductive ValueKind :=
  | ConstantExprGEP | ConstantExprOther | GlobalValue | OtherConstant | NonConstant.

Record llvmValue := mkValue {
  kind : ValueKind;
  isPointerTy : bool
}.

Definition isa_Constant (k : ValueKind) : bool :=
  match k with NonConstant => false | _ => true end.

Definition isa_GlobalValue (k : ValueKind) : bool :=
  match k with GlobalValue => true | _ => false end.

Definition isa_ConstantExpr_GEP (k : ValueKind) : bool :=
  match k with ConstantExprGEP => true | _ => false end.

(** [llvm::Function]: its formal parameters, in declared order. *)
Record Function := mkFunction {
  getArgumentList : list nat
}.

(** An instruction is a [CallInst], with its called function (null when
    unknown) and its argument operands, or something else. *)
Inductive Instruction :=
  | CallInst (getCalledFunction : option Function) (argOperands : list nat)
  | OtherInst.

Section Program.

(** The module under analysis: what each [llvm::Value *] points to. *)
Variable ir : nat → llvmValue.

(** [Dependency::getLatestValue] *)
Fixpoint getLatestValue (d : Dependency) (h : Heap) (value : nat) (valueExpr : ref)
  : nat * Dependency * Heap :=
  match d with
  | mkDependency f parent =>
      if isa_ConstantExpr_GEP (kind (ir value)) then
        let '(ret, f1, h1) := getNewVersionedValue value valueExpr f h in
        let '(loc, f2, h2) := getInitialLocation value valueExpr f1 h1 in
        (ret, mkDependency (addPointerEquality ret loc f2) parent, h2)
      else if isa_Constant (kind (ir value)) && negb (isa_GlobalValue (kind (ir value))) then
        let '(ret, f1, h1) := getNewVersionedValue value valueExpr f h in
        (ret, mkDependency f1 parent, h1)
      else
        match valuesMap f !! value with
        | Some versions => (default 0 (last versions), d, h)
        | None =>
            let '(ret, parent', h1) :=
              match parent with
              | Some p =>
                  let '(r, p', h') := getLatestValue p h value valueExpr in
                  (r, Some p', h')
              | None => (0, None, h)
              end in
            if bool_decide (ret = 0) && isa_GlobalValue (kind (ir value)) then
              let '(ret, f1, h2) := getNewVersionedValue value valueExpr f h1 in
              if isPointerTy (ir value) then
                let '(loc, f2, h3) := getInitialLocation value valueExpr f1 h2 in
                (ret, mkDependency (addPointerEquality ret loc f2) parent', h3)
              else (ret, mkDependency f1 parent', h2)
            else (ret, mkDependency f parent', h1)
        end
  end.

(** The loop of [populateArgumentValuesList], with [i] still to count
    down and [argumentValuesList] built so far.  [getArgOperand] and
    [at] past the end abort. *)
Fixpoint populate_loop (i : nat) (operands : list nat) (arguments : list ref)
    (argumentValuesList : list nat) (d : Dependency) (h : Heap)
  : option (list nat * Dependency * Heap) :=
  match i with
  | O => Some (argumentValuesList, d, h)
  | S i' =>
      argOperand ← operands !! i';
      argument ← arguments !! i';
      let '(latestValue, d', h') := getLatestValue d h argOperand argument in
      if bool_decide (latestValue ≠ 0) then
        populate_loop i' operands arguments (argumentValuesList ++ [latestValue]) d' h'
      else
        let '(fresh, h'') := new_VersionedValue argOperand argument h' in
        populate_loop i' operands arguments (argumentValuesList ++ [fresh]) d' h''
  end.

(** [Dependency::populateArgumentValuesList] *)
Definition populateArgumentValuesList (callee : Function) (operands : list nat)
    (arguments : list ref) (d : Dependency) (h : Heap)
  : option (list nat * Dependency * Heap) :=
  let numArgs := length (getArgumentList callee) in
  populate_loop numArgs operands arguments [] d h.

(** The loop of [bindCallArguments] over the formal parameters still to
    bind.  [back()] on an empty vector aborts. *)
Fixpoint bind_loop (formals : list nat) (f : Frame) (h : Heap) : option (Frame * Heap) :=
  match formals with
  | [] => Some (f, h)
  | it :: rest =>
      back ← last (argumentValuesList f);
      let '(f1, h1) :=
        if bool_decide (back ≠ 0) then
          let '(fresh, f', h') := getNewVersionedValue it (expression_of h back) f h in
          (addDependency back fresh f', h')
        else (f, h) in
      bind_loop rest (set_argumentValuesList (removelast (argumentValuesList f1)) f1) h1
  end.

(** [Dependency::bindCallArguments] *)
Definition bindCallArguments (i : Instruction) (arguments : list ref)
    (d : Dependency) (h : Heap) : option (Dependency * Heap) :=
  match i with
  | OtherInst => Some (d, h)
  | CallInst None _ => Some (d, h)
  | CallInst (Some callee) operands =>
      '(argumentValues, d1, h1) ← populateArgumentValuesList callee operands arguments d h;
      '(f2, h2) ← bind_loop (getArgumentList callee)
                            (set_argumentValuesList argumentValues (frame d1)) h1;
      Some (mkDependency f2 (parentDependency d1), h2)
  end.

End Program.

(** The frames of a chain, innermost first. *)
Fixpoint frames (d : Dependency) : list Frame :=
  match d with
  | mkDependency f parent =>
      f :: match parent with
           | Some p => frames p
           | None => []
           end
  end.

(** Every version a frame lists under a program value is an allocated
    versioned value of that program value. *)
Definition frame_versions_ok (h : Heap) (f : Frame) : Prop :=
  ∀ v l p, valuesMap f !! v = Some l → p ∈ l → value_of h p = Some v.

(** Every target of a flow edge of a frame is an allocated versioned
    value. *)
Definition frame_flows_ok (h : Heap) (f : Frame) : Prop :=
  ∀ k, is_Some (flowsToMap f !! k) → k ≤ length (values h).

Definition well_formed (d : Dependency) (h : Heap) : Prop :=
  Forall (frame_versions_ok h) (frames d) ∧ Forall (frame_flows_ok h) (frames d).

(** [h'] has the objects of [h] and possibly more. *)
Definition extends (h h' : Heap) : Prop := ∃ ext, values h' = values h ++ ext.

(** A call with the operands 101 and 102 to a function with the formal
    parameters 201 and 202.  Nothing is a constant; the parent frame knows
    one version of 101, the object at pointer 1. *)
Definition binding_ir : nat → llvmValue := λ _, mkValue NonConstant false.

Definition binding_heap : Heap :=
  mkHeap [mkVersionedValue 101 (Some (Constant 7 32)) false] [].

Definition binding_chain : Dependency :=
  mkDependency empty_frame
    (Some (mkDependency (set_valuesMap {[101 := [1]]} empty_frame) None)).

Definition binding_callee : Function := mkFunction [201; 202].

Definition binding_operands : list nat := [101; 102].

Definition binding_arguments : list ref :=
  [Some (Constant 7 32); Some (Constant 9 32)].

(** The split of core locations between two frames in its strict form: a
    run on the chain of [child] and [parent] puts [L] into the parent's
    core locations and not into the child's. *)
Definition core_only_in_owner (child parent : Frame) (g : LocationGraph) (L : nat) : Prop :=
  ∃ fuel child' parent' g',
    computeCoreLocations fuel (mkDependency child (Some (mkDependency parent None))) g
      = Some (mkDependency child' (Some (mkDependency parent' None)), g') ∧
    L ∈ coreLocations parent' ∧ L ∉ coreLocations child'.

(** A frame that owns the locations of [l] and nothing else. *)
Definition frame_owning (l : list nat) : Frame := set_versionedLocationsList l empty_frame.

(** The entries of a [std::map] keyed by pointers, in iteration order. *)
Definition entries_in_order (m : gmap nat nat) : list (nat * nat) :=
  omap (λ k, (λ v, (k, v)) <$> m !! k) (keys_in_order m).

(** [Dependency::directLocalLocationSources].  The recursion follows the
    flow edges that carry no location: [None] when [fuel] runs out, and
    also where [at] is applied to an empty vector. *)
Fixpoint directLocalLocationSources (fuel : nat) (f : Frame) (target : nat)
  : option (gmap nat nat) :=
  match fuel with
  | O => None
  | S fuel' =>
      ret ← match flowsToMap f !! target with
            | Some sources =>
                foldl (λ acc it,
                         ret ← acc;
                         if decide (it.2 = 0) then
                           extra ← directLocalLocationSources fuel' f it.1;
                           if decide (extra = ∅) then Some (<[it.1 := 0]> ret)
                           else Some (ret ∪ extra)
                         else Some (<[it.1 := it.2]> ret))
                      (Some ∅) (entries_in_order sources)
            | None => Some ∅
            end;
      if decide (ret = ∅) then
        match storageOfMap f !! target with
        | Some locList => loc ← last locList; Some (<[0 := loc]> ret)
        | None => Some ret
        end
      else Some ret
  end.

(** [Dependency::directLocationSources].  The loop erases the entries
    without location one after the other and collects in [tmp] what the
    parent finds for their values. *)
Fixpoint directLocationSources (fuel : nat) (d : Dependency) (target : nat)
  : option (gmap nat nat) :=
  match d with
  | mkDependency f parent =>
      ret ← directLocalLocationSources fuel f target;
      match parent with
      | Some p =>
          if decide (ret = ∅) then directLocationSources fuel p target
          else
            tmp ← foldl (λ acc it,
                           tmp ← acc;
                           if decide (it.2 = 0 ∧ it.1 ≠ 0) then
                             ancestralSources ← directLocationSources fuel p it.1;
                             Some (tmp ∪ ancestralSources)
                           else Some tmp)
                        (Some ∅) (entries_in_order ret);
            Some (filter (λ it, it.2 ≠ 0) ret ∪ tmp)
      | None => Some (filter (λ it, it.2 ≠ 0) ret)
      end
  end.

(** [Dependency::recursivelyBuildLocationGraph]; the set [parentTargets]
    is a copy in each call and grows across the rounds of one loop. *)
Fixpoint recursivelyBuildLocationGraph (fuel : nat) (d : Dependency) (g : LocationGraph)
    (source target : nat) (parentTargets : gset nat) : option LocationGraph :=
  match fuel with
  | O => None
  | S fuel' =>
      if decide (source = 0) then Some g
      else
        sourceEdges ← directLocationSources fuel d source;
        fst <$>
          foldl (λ acc it,
                   '(g, parentTargets) ← acc;
                   if decide (it.2 ≠ target ∧ it.2 ∉ parentTargets) then
                     let parentTargets' := {[target]} ∪ parentTargets in
                     g' ← recursivelyBuildLocationGraph fuel' d
                            (addNewEdge it.2 target g) it.1 it.2 parentTargets';
                     Some (g', parentTargets')
                   else Some (g, parentTargets))
                (Some (g, parentTargets)) (entries_in_order sourceEdges)
  end.

(** [Dependency::buildLocationGraph] *)
Definition buildLocationGraph (fuel : nat) (d : Dependency) (g : LocationGraph)
    (target : nat) : option LocationGraph :=
  sourceEdges ← directLocationSources fuel d target;
  foldl (λ acc it,
           g ← acc;
           recursivelyBuildLocationGraph fuel d (addNewSink it.2 g) it.1 it.2 ∅)
        (Some g) (entries_in_order sourceEdges).

(** A load in the child from a location of the parent: the parent owns
    location 5 and has stored the value 20 there; the child holds the
    value 10, which flows from 20 through location 5. *)
Definition load_parent : Frame := updateStore 5 20 (frame_owning [5]).
Definition load_child : Frame := addDependencyViaLocation 20 10 5 (frame_owning []).
Definition load_chain : Dependency :=
  mkDependency load_child (Some (mkDependency load_parent None)).


(** The graph [buildLocationGraph] makes for the value 10 of the child. *)
Definition load_graph : LocationGraph :=
  default empty_graph (buildLocationGraph 3 load_chain empty_graph 10).

(** The flow edge from [source] to [target] in a frame: the via-location
    it carries (possibly null), if the edge is there. *)
Definition flow_edge (f : Frame) (target source : nat) : option nat :=
  flowsToMap f !! target ≫= (.!! source).


(** [x] is [target] or one of its transitive flow sources along the chain
    of frames. *)
Inductive flows_into (d : Dependency) : nat → nat → Prop :=
  | flows_into_refl target : flows_into d target target
  | flows_into_step target s x :
      s ∈ directFlowSources d target → flows_into d s x → flows_into d target x.


(** [Dependency::allFlowSourcesEnds], with the same fuel and the same
    [std::sort] and [std::unique] as [allFlowSources]. *)
Fixpoint allFlowSourcesEnds (fuel : nat) (d : Dependency) (target : nat)
  : option (list nat) :=
  match fuel with
  | O => None
  | S fuel' =>
      let stepSources := directFlowSources d target in
      if decide (length stepSources = 0) then Some [target]
      else
        ret ← foldl (λ acc it,
                       ret ← acc;
                       src ← allFlowSourcesEnds fuel' d it;
                       if decide (length src = 0) then Some (ret ++ [it])
                       else Some (src ++ ret))
                    (Some []) stepSources;
        Some (std_unique (std_sort ret))
  end.

(** The loop of [allFlowSourcesEnds]. *)
Definition gather_ends (fuel : nat) (d : Dependency) (init : option (list nat))
    (stepSources : list nat) : option (list nat) :=
  foldl (λ acc it,
           ret ← acc;
           src ← allFlowSourcesEnds fuel d it;
           if decide (length src = 0) then Some (ret ++ [it])
           else Some (src ++ ret))
        init stepSources.


(** Every flow edge leads to a value of lower rank: the flows are acyclic. *)
Definition flows_ranked (d : Dependency) (rank : nat → nat) : Prop :=
  ∀ target s, s ∈ directFlowSources d target → rank s < rank target.

(** [x] lies on a cycle of flow edges. *)
Definition on_flow_cycle (d : Dependency) (x : nat) : Prop :=
  ∃ y, y ∈ directFlowSources d x ∧ flows_into d y x.


(** A frame in which the value 10 is its own flow source. *)
Definition flow_loop_example : Dependency :=
  mkDependency (addDependency 10 10 empty_frame) None.

(** [Dependency::getLatestValueNoConstantCheck] *)
Fixpoint getLatestValueNoConstantCheck (d : Dependency) (value : nat) : nat :=
  match d with
  | mkDependency f parent =>
      match valuesMap f !! value with
      | Some versions => default 0 (last versions)
      | None =>
          match parent with
          | Some p => getLatestValueNoConstantCheck p value
          | None => 0
          end
      end
  end.

(** The outermost frame of a chain. *)
Fixpoint root_frame (d : Dependency) : Frame :=
  match d with
  | mkDependency f parent =>
      match parent with
      | Some p => root_frame p
      | None => f
      end
  end.

(** The frames of a chain inside the outermost one, innermost first. *)
Fixpoint inner_frames (d : Dependency) : list Frame :=
  match d with
  | mkDependency f parent =>
      match parent with
      | Some p => f :: inner_frames p
      | None => []
      end
  end.


(** A module in which every value is a global variable of pointer type. *)
Definition globals_ir : nat → llvmValue := λ _, mkValue GlobalValue true.

(** *** Resolving values to locations *)

Section Arguments.

(** [llvm::dyn_cast<llvm::Argument>(site)]: for an argument, the name of
    the function it belongs to, if it belongs to one. *)
Variable argumentParent : nat → option (option string).

(** [Dependency::Util::isMainArgument] *)
Definition isMainArgument (site : nat) : bool :=
  match argumentParent site with
  | Some (Some name) =>
      bool_decide (name = "main") || bool_decide (name = "__user_main")
  | _ => false
  end.

(** [Dependency::resolveLocation].  [val->getValue()] on a pointer to no
    object aborts. *)
Fixpoint resolveLocation (d : Dependency) (h : Heap) (val : nat)
  : option (nat * Dependency * Heap) :=
  match d with
  | mkDependency f parent =>
      if decide (val = 0) then Some (0, d, h)
      else
        match equalityMap f !! val with
        | Some locs => Some (default 0 (last locs), d, h)
        | None =>
            match parent with
            | Some p =>
                '(ret, p', h') ← resolveLocation p h val;
                Some (ret, mkDependency f (Some p'), h')
            | None =>
                vArg ← value_of h val;
                if isMainArgument vArg then
                  let addressExpr := expression_of h val in
                  let '(loc, f1, h1) := getInitialLocation vArg addressExpr f h in
                  let '(fresh, f2, h2) := getNewVersionedValue vArg addressExpr f1 h1 in
                  Some (loc, mkDependency (addPointerEquality fresh loc f2) None, h2)
                else Some (0, d, h)
            end
        end
  end.

End Arguments.

(** The arguments 1 and 2 belong to [main]; nothing else is an argument. *)
Definition main_arguments : nat → option (option string) :=
  λ site, if decide (site = 1 ∨ site = 2) then Some (Some "main") else None.

(** One versioned value, at pointer 1, of the argument 1. *)
Definition main_heap : Heap := mkHeap [mkVersionedValue 1 None false] [].


(** *** Versions of locations *)

(** Syntactic equality of expressions, as [ref<Expr>::operator==] decides
    it. *)
Fixpoint Expr_eq_dec (a b : Expr) {struct a} : {a = b} + {a ≠ b}
with UpdateNode_eq_dec (a b : UpdateNode) {struct a} : {a = b} + {a ≠ b}.
Proof.
  - decide equality; try apply Nat.eq_dec; try apply Z.eq_dec.
    decide equality.
  - decide equality.
Defined.

#[global] Instance Expr_eq : EqDecision Expr := Expr_eq_dec.

Definition location_at (h : Heap) (p : nat) : option VersionedLocation :=
  match p with
  | O => None
  | S i => locations h !! i
  end.

(** Modelled from the spec: [hasAddress] is declared in Dependency.h; it
    holds when the site matches and the address is syntactically equal to
    the one supplied. *)
Definition hasAddress (l : VersionedLocation) (site : nat) (address : ref) : bool :=
  bool_decide (getSite l = site) && bool_decide (getAddress l = address).

(** The loop of [getLatestLocation] over the locations of one frame, most
    recent first: the first one with the address, or null.  Calling
    [hasAddress] through a pointer to no object aborts. *)
Fixpoint latest_in_frame (h : Heap) (recent_first : list nat) (location : nat)
    (address : ref) : option nat :=
  match recent_first with
  | [] => Some 0
  | it :: rest =>
      l ← location_at h it;
      if hasAddress l location address then Some it
      else latest_in_frame h rest location address
  end.

(** [Dependency::getLatestLocation] *)
Fixpoint getLatestLocation (d : Dependency) (h : Heap) (location : nat) (address : ref)
  : option nat :=
  match d with
  | mkDependency f parent =>
      ret ← latest_in_frame h (reverse (versionedLocationsList f)) location address;
      if decide (ret ≠ 0) then Some ret
      else
        match parent with
        | Some p => getLatestLocation p h location address
        | None => Some 0
        end
  end.

(** [Dependency::getNewLocationVersion] *)
Definition getNewLocationVersion (location : nat) (address : ref)
    (d : Dependency) (h : Heap) : option (nat * Dependency * Heap) :=
  ret ← getLatestLocation d h location address;
  if decide (ret ≠ 0) then Some (ret, d, h)
  else
    let '(ret, f', h') := getInitialLocation location address (frame d) h in
    Some (ret, mkDependency f' (parentDependency d), h').

(** The parent owns location 1, for the site 7 at the address 64. *)
Definition versions_heap : Heap :=
  mkHeap [] [mkVersionedLocation 7 (Some (Constant 64 64))].

Definition versions_chain : Dependency :=
  mkDependency (frame_owning []) (Some (mkDependency (frame_owning [1]) None)).

(** *** Marking the core *)

(** [p->isCore()], false where [p] points to no object. *)
Definition isCore_at (h : Heap) (p : nat) : bool :=
  default false (isCore <$> value_at h p).

(** Modelled from the spec: [setAsCore] is declared in Dependency.h; it
    sets the core flag of a versioned value.  Calling it through a pointer
    to no object aborts. *)
Definition setAsCore (p : nat) (h : Heap) : option Heap :=
  match p with
  | O => None
  | S i =>
      v ← values h !! i;
      Some (mkHeap (<[i := mkVersionedValue (getValue v) (getExpression v) true]> (values h))
                   (locations h))
  end.

(** [Dependency::markAllValues], the overload for a [VersionedValue]. *)
Definition markAllValues (fuel : nat) (d : Dependency) (h : Heap) (g : LocationGraph)
    (value : nat) : option (LocationGraph * Heap) :=
  g' ← buildLocationGraph fuel d g value;
  allSources ← allFlowSources fuel d value;
  h' ← foldl (λ acc it, h ← acc; setAsCore it h) (Some h) allSources;
  Some (g', h').

Definition isa_ConstantExpr (k : ValueKind) : bool :=
  match k with ConstantExprGEP | ConstantExprOther => true | _ => false end.

Section Operands.

Variable ir : nat → llvmValue.

(** The names of the operands of a [ConstantExpr]. *)
Variable operandNames : nat → list string.

(** [Dependency::markAllValues], the overload for an [llvm::Value]. *)
Definition markAllValues_of_operand (fuel : nat) (d : Dependency) (h : Heap)
    (g : LocationGraph) (val : nat) : option (LocationGraph * Heap) :=
  let value := getLatestValueNoConstantCheck d val in
  if decide (value = 0) then
    if isa_ConstantExpr (kind (ir val))
       && existsb (λ name, bool_decide (name = "__dso_handle")) (operandNames val)
    then Some (g, h)
    else if isa_Constant (kind (ir val)) then Some (g, h)
    else None
  else markAllValues fuel d h g value.

End Operands.

(** The values 1 and 2 of the heap, with a flow edge from 2 to 1. *)
Definition marking_heap : Heap :=
  mkHeap [mkVersionedValue 101 None false; mkVersionedValue 102 None false;
          mkVersionedValue 103 None false] [].

Definition marking_chain : Dependency :=
  mkDependency (addDependency 2 1 empty_frame) None.


(** *** PHI nodes and returns *)

Section Transfer.

Variable ir : nat → llvmValue.

(** [llvm::isa<llvm::Argument>] *)
Variable isa_Argument : nat → bool.

(** [Dependency::executePHI].  [node] holds the incoming values of the
    instruction when it is a [PHINode]; calling [getIncomingValue] through
    the null pointer that [dyn_cast] gives for another instruction, or with
    an index past the end, aborts, and so does the [assert]. *)
Definition executePHI (instr : nat) (node : option (list nat)) (incomingBlock : nat)
    (valueExpr : ref) (symbolicExecutionError : bool) (d : Dependency) (h : Heap)
  : option (Dependency * Heap) :=
  incomingValues ← node;
  llvmArgValue ← incomingValues !! incomingBlock;
  let '(val, d1, h1) := getLatestValue ir d h llvmArgValue valueExpr in
  if decide (val ≠ 0) then
    let '(fresh, f2, h2) := getNewVersionedValue instr valueExpr (frame d1) h1 in
    Some (mkDependency (addDependency val fresh f2) (parentDependency d1), h2)
  else if isa_Constant (kind (ir llvmArgValue)) || isa_Argument llvmArgValue
          || symbolicExecutionError then
    let '(_, f2, h2) := getNewVersionedValue instr valueExpr (frame d1) h1 in
    Some (mkDependency f2 (parentDependency d1), h2)
  else None.

(** [Dependency::bindReturnValue].  [retInst] is the returned value of the
    instruction when it is a [ReturnInst], null for a function returning
    [void]. *)
Definition bindReturnValue (site : nat) (retInst : option nat) (returnValue : ref)
    (d : Dependency) (h : Heap) : Dependency * Heap :=
  match retInst with
  | Some getReturnValue =>
      if decide (site ≠ 0 ∧ getReturnValue ≠ 0) then
        let '(value, d1, h1) := getLatestValue ir d h getReturnValue returnValue in
        if decide (value ≠ 0) then
          let '(fresh, f2, h2) := getNewVersionedValue site returnValue (frame d1) h1 in
          (mkDependency (addDependency value fresh f2) (parentDependency d1), h2)
        else (d1, h1)
      else (d, h)
  | None => (d, h)
  end.

End Transfer.

(** [Dependency::getAllVersionedLocations] *)
Fixpoint getAllVersionedLocations (coreOnly : bool) (d : Dependency) : list nat :=
  match d with
  | mkDependency f parent =>
      let allLoc :=
        if coreOnly then set_in_order (coreLocations f) else versionedLocationsList f in
      match parent with
      | Some p => getAllVersionedLocations coreOnly p ++ allLoc
      | None => allLoc
      end
  end.


(** *** Loads *)

Section Loads.

Variable ir : nat → llvmValue.
Variable argumentParent : nat → option (option string).

(** [Dependency::resolveLocationTransitively] *)
Definition resolveLocationTransitively (fuel : nat) (d : Dependency) (h : Heap)
    (value : nat) : option (list nat * Dependency * Heap) :=
  if decide (value = 0) then Some ([], d, h)
  else
    '(singleRet, d1, h1) ← resolveLocation argumentParent d h value;
    if decide (singleRet ≠ 0) then Some ([singleRet], d1, h1)
    else
      valueSources ← allFlowSourcesEnds fuel d1 value;
      foldl (λ acc it,
               '(ret, d, h) ← acc;
               '(singleRet, d', h') ← resolveLocation argumentParent d h it;
               if decide (singleRet ≠ 0) then Some (ret ++ [singleRet], d', h')
               else Some (ret, d', h'))
            (Some ([], d1, h1)) valueSources.

(** The body of the loop of [buildLoadDependency] for one location. *)
Definition load_from (value : nat) (valueExpr : ref) (acc : Dependency * Heap)
    (locIter : nat) : Dependency * Heap :=
  let '(d, h) := acc in
  match stores d locIter with
  | [] =>
      let '(fresh, f', h') := getNewVersionedValue value valueExpr (frame d) h in
      (mkDependency (updateStore locIter fresh f') (parentDependency d), h')
  | storedValue =>
      foldl (λ '(d, h) storedValueIter,
               let '(fresh, f', h') := getNewVersionedValue value valueExpr (frame d) h in
               (mkDependency (addDependencyViaLocation storedValueIter fresh locIter f')
                             (parentDependency d), h'))
            (d, h) storedValue
  end.

(** [Dependency::buildLoadDependency]; the [assert] on an empty list of
    locations aborts. *)
Definition buildLoadDependency (fuel : nat) (address : nat) (addressExpr : ref)
    (value : nat) (valueExpr : ref) (d : Dependency) (h : Heap)
  : option (bool * Dependency * Heap) :=
  let '(addressValue, d1, h1) := getLatestValue ir d h address addressExpr in
  if decide (addressValue = 0) then Some (false, d1, h1)
  else
    '(addressLocList, d2, h2) ← resolveLocationTransitively fuel d1 h1 addressValue;
    if decide (addressLocList = []) then None
    else
      let '(d3, h3) := foldl (load_from value valueExpr) (d2, h2) addressLocList in
      Some (true, d3, h3).

End Loads.

(** The pointer 901 has the version 1, which equals location 5, where the
    value 3 is stored. *)
Definition pointer_heap : Heap :=
  mkHeap [mkVersionedValue 901 None false; mkVersionedValue 902 None false;
          mkVersionedValue 903 None false] [].

Definition pointer_chain : Dependency :=
  mkDependency
    (updateStore 5 3 (addPointerEquality 1 5 (set_valuesMap {[901 := [1]]} (frame_owning [5]))))
    None.

End Dep.

(** * Properties *)

(** ** Tabbing *)

Module TabbingFacts.
Import Tabbing.

Lemma length_app_string (s t : string) :
  String.length (s +:+ t) = String.length s + String.length t.
Proof. induction s as [|c s IH]; simpl; [done | by rewrite IH]. Qed.

Lemma length_appendTab (prefix : string) :
  String.length (appendTab prefix) = String.length prefix + 8.
Proof. unfold appendTab. by rewrite length_app_string. Qed.

(** Each round of the loop doubles the string and adds one unit. *)
Lemma length_makeTabs_loop (n : nat) (s : string) :
  String.length (makeTabs_loop n s) + 8 = 2 ^ n * (String.length s + 8).
Proof.
  revert s. induction n as [|n IH]; intros s.
  - simpl. lia.
  - cbn [makeTabs_loop]. rewrite IH, length_app_string, length_appendTab.
    rewrite Nat.pow_succ_r'. lia.
Qed.

Lemma length_indent_units (n : nat) : String.length (indent_units n) = 8 * n.
Proof.
  induction n as [|n IH]; [done|].
  cbn [indent_units]. rewrite length_app_string, IH. simpl. lia.
Qed.

(** C9.  [appendTab] appends exactly one unit of eight spaces, but
    [makeTabs n] is not [n] units: the loop appends [appendTab tabsString]
    to [tabsString] itself, so the string has [8 * (2 ^ n - 1)]
    characters; [makeTabs 2] is 24 spaces where two units are 16, and
    from two on the result is always longer than [n] units. *)
Theorem makeTabs_doubles_each_round :
  (∀ prefix, appendTab prefix = prefix +:+ indent_units 1) ∧
  (∀ n, String.length (makeTabs n) = 8 * (2 ^ n - 1)) ∧
  makeTabs 2 = "                        " ∧
  indent_units 2 = "                " ∧
  (∀ n, makeTabs (S (S n)) ≠ indent_units (S (S n))).
Proof.
  split; [done|]. split; [|split; [done|split; [done|]]].
  - intros n. unfold makeTabs.
    pose proof (length_makeTabs_loop n "") as H. simpl in H. lia.
  - intros n Heq.
    apply (f_equal String.length) in Heq.
    unfold makeTabs in Heq.
    pose proof (length_makeTabs_loop (S (S n)) "") as H.
    change (String.length "") with 0 in H.
    rewrite length_indent_units in Heq.
    assert (n + 3 < 2 ^ S (S n)) as Hlt.
    { clear. induction n as [|m IH]; [simpl; lia|].
      rewrite Nat.pow_succ_r'. lia. }
    lia.
Qed.

Lemma app_string_assoc (s t u : string) : (s +:+ t) +:+ u = s +:+ (t +:+ u).
Proof.
  induction s as [|c s IH]; [done|].
  change (String c ((s +:+ t) +:+ u) = String c (s +:+ t +:+ u)). by rewrite IH.
Qed.

Lemma app_string_empty_r (s : string) : s +:+ "" = s.
Proof.
  induction s as [|c s IH]; [done|].
  change (String c (s +:+ "") = String c s). by rewrite IH.
Qed.

Lemma indent_units_add (a b : nat) :
  indent_units (a + b) = indent_units a +:+ indent_units b.
Proof.
  induction b as [|b IH].
  - by rewrite Nat.add_0_r, app_string_empty_r.
  - rewrite Nat.add_succ_r. cbn [indent_units]. by rewrite IH, app_string_assoc.
Qed.

Lemma makeTabs_loop_units (n k : nat) :
  makeTabs_loop n (indent_units k) = indent_units (2 ^ n * (k + 1) - 1).
Proof.
  revert k. induction n as [|n IH]; intros k.
  - cbn. f_equal. lia.
  - cbn [makeTabs_loop]. unfold appendTab.
    change "        " with (indent_units 1).
    rewrite <- !indent_units_add, IH. f_equal.
    rewrite Nat.pow_succ_r'. lia.
Qed.

(** X1.  [makeTabs n] is a run of spaces, [2 ^ n - 1] units of eight: round
    after round the string is doubled and one unit is added. *)
Theorem makeTabs_is_units (n : nat) : makeTabs n = indent_units (2 ^ n - 1).
Proof.
  unfold makeTabs. change "" with (indent_units 0).
  rewrite makeTabs_loop_units. f_equal. lia.
Qed.

End TabbingFacts.

(** ** Shadow substitution *)

Module ShadowFacts.
Import ShadowArray.

Lemma lookup_with_null_entries (reads : gset nat) (m : gmap nat nat) (a : nat) :
  with_null_entries reads m !! a =
    match m !! a with
    | Some y => Some y
    | None => if decide (a ∈ reads) then Some 0 else None
    end.
Proof.
  unfold with_null_entries. rewrite lookup_union, lookup_gset_to_gmap.
  destruct (m !! a) as [y|] eqn:Hm.
  - by destruct (guard (a ∈ reads)).
  - rewrite option_guard_decide. by case_decide.
Qed.

Lemma shadow_of_with_null_entries (reads : gset nat) (m : gmap nat nat) (a : nat) :
  shadow_of (with_null_entries reads m) a = shadow_of m a.
Proof.
  unfold shadow_of. rewrite lookup_with_null_entries.
  destruct (m !! a); [done|]. by case_decide.
Qed.

Lemma with_null_entries_empty (m : gmap nat nat) : with_null_entries ∅ m = m.
Proof.
  apply map_eq. intros a. rewrite lookup_with_null_entries.
  destruct (m !! a); [done|]. by rewrite decide_False by set_solver.
Qed.

Lemma with_null_entries_twice (r1 r2 : gset nat) (m : gmap nat nat) :
  with_null_entries r2 (with_null_entries r1 m) = with_null_entries (r1 ∪ r2) m.
Proof.
  apply map_eq. intros a. rewrite !lookup_with_null_entries.
  destruct (m !! a); [done|].
  repeat case_decide; try done; set_solver.
Qed.

Lemma after_reads_empty (s : ShadowState) : after_reads ∅ s = s.
Proof.
  destruct s as [m R]. unfold after_reads. cbn [shadowArray replacements].
  rewrite with_null_entries_empty. f_equal. set_solver.
Qed.

Lemma after_reads_twice (r1 r2 : gset nat) (s : ShadowState) :
  after_reads r2 (after_reads r1 s) = after_reads (r1 ∪ r2) s.
Proof.
  destruct s as [m R]. unfold after_reads. cbn [shadowArray replacements].
  rewrite with_null_entries_twice. f_equal.
  apply set_eq. intros x. rewrite !elem_of_union, !elem_of_map.
  setoid_rewrite shadow_of_with_null_entries. set_solver.
Qed.

Lemma shadow_of_after_reads (r : gset nat) (s : ShadowState) (a : nat) :
  shadow_of (shadowArray (after_reads r s)) a = shadow_of (shadowArray s) a.
Proof. apply shadow_of_with_null_entries. Qed.


(** Looking an array up and recording what was found. *)
Lemma subscript_then_record (root : nat) (s : ShadowState) :
  (replacementArray <~ shadowArray_subscript root ;;
   _ <~ record_replacement replacementArray ;;
   sret replacementArray) s
  = Some (shadow_of (shadowArray s) root, after_reads {[root]} s).
Proof.
  destruct s as [m R].
  unfold sbind, shadowArray_subscript, record_replacement, sret, after_reads.
  cbn [shadowArray replacements].
  assert (set_map (shadow_of m) ({[root]} : gset nat) = ({[shadow_of m root]} : gset nat)) as ->
    by set_solver.
  assert (∀ y : nat, m !! root = Some y → with_null_entries {[root]} m = m) as Hsome.
  { intros y Hy. apply map_eq. intros a. rewrite lookup_with_null_entries.
    destruct (m !! a) eqn:Ha; [done|]. rewrite decide_False; [done|]. set_solver. }
  assert (m !! root = None → with_null_entries {[root]} m = <[root := 0]> m) as Hnone.
  { intros Hn. apply map_eq. intros a. rewrite lookup_with_null_entries.
    destruct (decide (a = root)) as [->|Hne].
    - rewrite Hn, lookup_insert_eq. rewrite decide_True; [done|]. set_solver.
    - rewrite lookup_insert_ne by done. destruct (m !! a); [done|].
      rewrite decide_False; [done|]. set_solver. }
  unfold shadow_of.
  destruct (m !! root) as [y|] eqn:Hroot; cbn [default shadowArray replacements].
  - rewrite (Hsome y eq_refl). case_decide; do 2 f_equal; f_equal; set_solver.
  - rewrite (Hnone eq_refl). case_decide; do 2 f_equal; f_equal; set_solver.
Qed.

Lemma shadow_of_stable (f : nat → nat) (r : gset nat) (s : ShadowState) :
  (∀ a, f a = shadow_of (shadowArray s) a) →
  ∀ a, f a = shadow_of (shadowArray (after_reads r s)) a.
Proof. intros Hf a. by rewrite shadow_of_after_reads. Qed.

Lemma visits : (∀ e, expression_visit e) ∧ (∀ u, update_visit u).
Proof.
  apply Expr_UpdateNode_ind; unfold expression_visit, update_visit.
  - (* Read *)
    intros root head IHhead index IHindex s f Hf.
    cbn [getShadowExpression handled rename_arrays arrays_read].
    pose proof (subscript_then_record root s) as Hsub.
    unfold sbind in *. 
    destruct (shadowArray_subscript root s) as [[y s1]|]; [|done].
    destruct (record_replacement y s1) as [[[] s2]|]; [|done].
    unfold sret in Hsub. injection Hsub as -> ->.
    pose proof (shadow_of_stable f {[root]} s Hf) as Hf1.
    rewrite (IHhead _ _ Hf1).
    destruct (handled_updates head); cbn [andb]; [|done].
    pose proof (shadow_of_stable f (arrays_read_updates head) _ Hf1) as Hf2.
    rewrite (IHindex _ _ Hf2).
    destruct (handled index); [|done].
    unfold sret. by rewrite !after_reads_twice, (Hf root), ?(assoc_L (∪)).
  - (* Constant *)
    intros v w s f Hf. cbn. unfold sret. by rewrite after_reads_empty.
  - (* Select *)
    intros c IHc t IHt e IHe s f Hf.
    cbn [getShadowExpression handled rename_arrays arrays_read]. unfold sbind.
    rewrite (IHc _ _ Hf). destruct (handled c); cbn [andb]; [|done].
    pose proof (shadow_of_stable f (arrays_read c) _ Hf) as Hf1.
    rewrite (IHt _ _ Hf1). destruct (handled t); cbn [andb]; [|done].
    pose proof (shadow_of_stable f (arrays_read t) _ Hf1) as Hf2.
    rewrite (IHe _ _ Hf2). destruct (handled e); cbn [andb]; [|done].
    unfold sret. by rewrite !after_reads_twice, ?(assoc_L (∪)).
  - (* Extract *)
    intros e IHe o w s f Hf.
    cbn [getShadowExpression handled rename_arrays arrays_read]. unfold sbind.
    rewrite (IHe _ _ Hf). by destruct (handled e).
  - (* ZExt *)
    intros e IHe w s f Hf.
    cbn [getShadowExpression handled rename_arrays arrays_read]. unfold sbind.
    rewrite (IHe _ _ Hf). by destruct (handled e).
  - (* SExt *)
    intros e IHe w s f Hf.
    cbn [getShadowExpression handled rename_arrays arrays_read]. unfold sbind.
    rewrite (IHe _ _ Hf). by destruct (handled e).
  - (* Binary *)
    intros k l IHl r IHr s f Hf.
    cbn [getShadowExpression handled rename_arrays arrays_read]. unfold sbind.
    rewrite (IHl _ _ Hf). destruct (handled l); cbn [andb]; [|done].
    pose proof (shadow_of_stable f (arrays_read l) _ Hf) as Hf1.
    rewrite (IHr _ _ Hf1). destruct (handled r); cbn [andb]; [|done].
    unfold sret. by rewrite !after_reads_twice, ?(assoc_L (∪)).
  - (* NotOptimized *)
    intros e IHe s f Hf.
    cbn [getShadowExpression handled rename_arrays arrays_read]. unfold sbind.
    rewrite (IHe _ _ Hf). by destruct (handled e).
  - (* Unhandled *)
    done.
  - (* UNull *)
    intros s f Hf. cbn. unfold sret. by rewrite after_reads_empty.
  - (* UNode *)
    intros next IHn index IHi value IHv s f Hf.
    cbn [getShadowUpdate handled_updates rename_updates arrays_read_updates]. unfold sbind.
    rewrite (IHn _ _ Hf). destruct (handled_updates next); cbn [andb]; [|done].
    pose proof (shadow_of_stable f (arrays_read_updates next) _ Hf) as Hf1.
    rewrite (IHi _ _ Hf1). destruct (handled index); cbn [andb]; [|done].
    pose proof (shadow_of_stable f (arrays_read index) _ Hf1) as Hf2.
    rewrite (IHv _ _ Hf2). destruct (handled value); cbn [andb]; [|done].
    unfold sret. by rewrite !after_reads_twice, ?(assoc_L (∪)).
Qed.

(** A handled expression is substituted without failure. *)
Lemma getShadowExpression_handled (e : Expr) (s : ShadowState) :
  handled e = true →
  getShadowExpression e s =
    Some (rename_arrays (shadow_of (shadowArray s)) e, after_reads (arrays_read e) s).
Proof.
  intros He. destruct visits as [Hv _].
  rewrite (Hv e s (shadow_of (shadowArray s))) by done. by rewrite He.
Qed.

(** Two renamings that agree on the arrays read give the same tree. *)
Lemma rename_agree (f g : nat → nat) :
  (∀ e, (∀ a, a ∈ arrays_read e → f a = g a) → rename_arrays f e = rename_arrays g e) ∧
  (∀ u, (∀ a, a ∈ arrays_read_updates u → f a = g a) →
        rename_updates f u = rename_updates g u).
Proof.
  apply Expr_UpdateNode_ind; cbn [rename_arrays rename_updates arrays_read arrays_read_updates];
    intros; f_equal; auto with set_solver.
Qed.

(** C7, as amended.  For a tree over the handled kinds the substitution
    returns the tree with the array of every read, update histories
    included, replaced by what the shadow map holds for it: the shadow [Y]
    of a registered [X], the null array for an array without entry.
    Constants come back unchanged.  The set afterwards is the supplied set
    with these replacement arrays added: it holds [Y] whenever a
    registered [X] is read, and when every array read is registered the
    result differs from the input only at reads of registered arrays and
    what the set gained are registered shadows of arrays read. *)
Theorem getShadowExpression_renames_reads
    (m : gmap nat nat) (R : gset nat) (e : Expr) :
  handled e = true →
  ∃ e' s',
    getShadowExpression e (mkShadowState m R) = Some (e', s') ∧
    e' = rename_arrays (shadow_of m) e ∧
    replacements s' = R ∪ set_map (shadow_of m) (arrays_read e) ∧
    (∀ X Y, m !! X = Some Y → X ∈ arrays_read e → Y ∈ replacements s') ∧
    (arrays_read e ⊆ dom m →
       e' = rename_arrays (λ a, default a (m !! a)) e ∧
       ∀ a, a ∈ replacements s' →
            a ∈ R ∨ ∃ X, X ∈ arrays_read e ∧ m !! X = Some a) ∧
    (∀ v w, getShadowExpression (Constant v w) (mkShadowState m R)
            = Some (Constant v w, mkShadowState m R)).
Proof.
  intros He. eexists _, _. split; [by apply getShadowExpression_handled|].
  cbn [shadowArray replacements after_reads].
  split; [done|]. split; [done|]. split; [|split; [|done]].
  - intros X Y HX Hread. apply elem_of_union_r, elem_of_map.
    exists X. split; [|done]. unfold shadow_of. by rewrite HX.
  - intros Hreg. split.
    + apply (proj1 (rename_agree _ _)). intros a Ha.
      apply Hreg, elem_of_dom in Ha as [y Hy]. unfold shadow_of. by rewrite Hy.
    + intros a [Ha|Ha]%elem_of_union; [by left|right].
      apply elem_of_map in Ha as (X & -> & HX). exists X. split; [done|].
      apply Hreg, elem_of_dom in HX as [y Hy]. unfold shadow_of. by rewrite Hy.
Qed.

(** The map registers array 1 with shadow 2; the expression compares a
    read of array 1 with a read of array 3, which has no shadow.  The read
    of array 3 comes back as a read of the null array, and the null
    pointer is put into the set. *)
Lemma roundtrip_fails_on_unregistered_array :
  ¬ roundtrip_on_registered {[1 := 2]} ∅
      (Binary KEq (Read 1 UNull (Constant 0 32)) (Read 3 UNull (Constant 0 32))).
Proof.
  intros (e' & s' & Hrun & He' & _).
  rewrite getShadowExpression_handled in Hrun by done.
  injection Hrun as <- <-. vm_compute in He'. discriminate He'.
Qed.

(** Reading array 3, which has no entry, leaves the map with the entry
    [3 := null]. *)
Lemma map_changes_on_unregistered_array :
  ¬ map_left_unchanged (mkShadowState {[1 := 2]} ∅) (Read 3 UNull (Constant 0 32)).
Proof.
  intros Hstrict.
  destruct (Hstrict _ _ (getShadowExpression_handled
                          (Read 3 UNull (Constant 0 32)) _ eq_refl)) as [_ Hmap].
  apply (f_equal (λ m : gmap nat nat, m !! 3)) in Hmap.
  vm_compute in Hmap. discriminate Hmap.
Qed.

(** C8, as amended.  A substitution on a tree over the handled kinds
    only adds to the supplied set and never changes or removes an entry of
    the shadow map; the map is the same afterwards when every array read
    has an entry, and otherwise gains the null entry for each array read
    that had none. *)
Theorem getShadowExpression_frame (s : ShadowState) (e : Expr) :
  handled e = true →
  ∃ e' s',
    getShadowExpression e s = Some (e', s') ∧
    replacements s ⊆ replacements s' ∧
    (∀ k v, shadowArray s !! k = Some v → shadowArray s' !! k = Some v) ∧
    (∀ k, shadowArray s !! k = None →
          shadowArray s' !! k = if decide (k ∈ arrays_read e) then Some 0 else None) ∧
    (arrays_read e ⊆ dom (shadowArray s) → shadowArray s' = shadowArray s).
Proof.
  intros He. eexists _, _. split; [by apply getShadowExpression_handled|].
  cbn [shadowArray replacements after_reads].
  split; [set_solver|]. split; [|split].
  - intros k v Hk. by rewrite lookup_with_null_entries, Hk.
  - intros k Hk. by rewrite lookup_with_null_entries, Hk.
  - intros Hreg. apply map_eq. intros k. rewrite lookup_with_null_entries.
    destruct (shadowArray s !! k) eqn:Hk; [done|].
    rewrite decide_False; [done|].
    intros Hin. apply Hreg, elem_of_dom in Hin as [y Hy]. congruence.
Qed.

(** A read of array 1 whose update history reads array 1 again, with
    array 1 registered with shadow 2. *)
Lemma getShadowExpression_renames_reads_witness :
  ∃ e' s',
    getShadowExpression (Read 1 (UNode UNull (Constant 0 32) (Read 1 UNull (Constant 4 32)))
                              (Constant 0 32))
                        (mkShadowState {[1 := 2]} ∅) = Some (e', s') ∧
    e' = Read 2 (UNode UNull (Constant 0 32) (Read 2 UNull (Constant 4 32))) (Constant 0 32) ∧
    replacements s' = {[2]}.
Proof.
  destruct (getShadowExpression_renames_reads {[1 := 2]} ∅
              (Read 1 (UNode UNull (Constant 0 32) (Read 1 UNull (Constant 4 32)))
                    (Constant 0 32)) eq_refl)
    as (e' & s' & Hrun & He' & HR & _).
  exists e', s'. split; [done|]. split; [by rewrite He'|].
  rewrite HR. vm_compute. done.
Defined.

(** A read of the registered array 1; the supplied set holds 9. *)
Lemma getShadowExpression_frame_witness :
  ∃ e' s',
    getShadowExpression (Read 1 UNull (Constant 0 32)) (mkShadowState {[1 := 2]} {[9]})
      = Some (e', s') ∧
    ({[9]} : gset nat) ⊆ replacements s' ∧ shadowArray s' = {[1 := 2]}.
Proof.
  destruct (getShadowExpression_frame (mkShadowState {[1 := 2]} {[9]})
              (Read 1 UNull (Constant 0 32)) eq_refl)
    as (e' & s' & Hrun & HR & _ & _ & Hsame).
  exists e', s'. split; [done|]. split; [done|].
  apply Hsame. vm_compute. done.
Defined.

(** X2.  The substitution aborts exactly on the trees that hold a node of a
    kind its [switch] does not handle, whatever the map and the set. *)
Theorem getShadowExpression_aborts_iff_unhandled (e : Expr) (s : ShadowState) :
  getShadowExpression e s = None ↔ handled e = false.
Proof.
  destruct visits as [Hv _].
  rewrite (Hv e s (shadow_of (shadowArray s))) by done.
  by destruct (handled e).
Qed.

Lemma after_reads_again (r : gset nat) (s : ShadowState) :
  after_reads r (after_reads r s) = after_reads r s.
Proof. rewrite after_reads_twice. f_equal. set_solver. Qed.

(** X3.  Substituting the same expression once more, in the state the first
    run left, returns the same tree and changes neither the map nor the
    set: the first run has made every entry the second one looks up. *)
Theorem getShadowExpression_second_run (e e' : Expr) (s s' : ShadowState) :
  getShadowExpression e s = Some (e', s') →
  getShadowExpression e s' = Some (e', s').
Proof.
  destruct visits as [Hv _]. intros Hrun.
  rewrite (Hv e s (shadow_of (shadowArray s))) in Hrun by done.
  destruct (handled e) eqn:He; [|done]. injection Hrun as <- <-.
  rewrite (Hv e _ (shadow_of (shadowArray s))), He.
  - by rewrite after_reads_again.
  - intros a. by rewrite shadow_of_after_reads.
Qed.

(** First run on the map with the one entry [1 := 2] and the empty set. *)
Lemma getShadowExpression_second_run_witness :
  getShadowExpression (Binary KAdd (Read 1 UNull (Constant 0 32)) (Read 3 UNull (Constant 1 32)))
    (mkShadowState {[1 := 2; 3 := 0]} {[2; 0]})
  = Some (Binary KAdd (Read 2 UNull (Constant 0 32)) (Read 0 UNull (Constant 1 32)),
          mkShadowState {[1 := 2; 3 := 0]} {[2; 0]}).
Proof.
  apply (getShadowExpression_second_run _ _ (mkShadowState {[1 := 2]} ∅)).
  by vm_compute.
Defined.

(** X4.  After [addShadowArrayMap(X, Y)], whatever [X] was mapped to before,
    a substitution rebuilds the reads of [X] against [Y], the reads of the
    other arrays as before the registration, and puts [Y] into the set
    when [X] is read. *)
Theorem addShadowArrayMap_then_substitute
    (X Y : nat) (s : ShadowState) (e : Expr) :
  handled e = true →
  ∃ s',
    getShadowExpression e (addShadowArrayMap X Y s)
      = Some (rename_arrays
                (λ a, if decide (a = X) then Y else shadow_of (shadowArray s) a) e,
              s') ∧
    shadowArray s' !! X = Some Y ∧
    (X ∈ arrays_read e → Y ∈ replacements s') ∧
    replacements s ⊆ replacements s'.
Proof.
  intros He. eexists. split.
  - rewrite getShadowExpression_handled by done. f_equal. f_equal.
    apply (proj1 (rename_agree _ _)). intros a _.
    unfold shadow_of, addShadowArrayMap. cbn [shadowArray].
    rewrite lookup_insert. by repeat case_decide; subst.
  - unfold after_reads, addShadowArrayMap. cbn [shadowArray replacements].
    split; [|split].
    + by rewrite lookup_with_null_entries, lookup_insert_eq.
    + intros HX. apply elem_of_union_r, elem_of_map. exists X. split; [|done].
      unfold shadow_of. by rewrite lookup_insert_eq.
    + set_solver.
Qed.

(** Array 1, registered with shadow 2, is registered again with 4. *)
Lemma addShadowArrayMap_then_substitute_witness :
  ∃ s',
    getShadowExpression (Read 1 UNull (Constant 0 32))
      (addShadowArrayMap 1 4 (mkShadowState {[1 := 2]} ∅))
      = Some (Read 4 UNull (Constant 0 32), s') ∧
    shadowArray s' !! 1 = Some 4 ∧ 4 ∈ replacements s'.
Proof.
  destruct (addShadowArrayMap_then_substitute 1 4 (mkShadowState {[1 := 2]} ∅)
              (Read 1 UNull (Constant 0 32)) eq_refl)
    as (s' & Hrun & Hmap & Hrep & _).
  exists s'. split; [exact Hrun|]. split; [done|]. apply Hrep. by vm_compute.
Defined.

End ShadowFacts.

(** ** Memory locations *)

Module LocationFacts.
Import ShadowArray Location.

Section WithLibrary.

Variable AddExpr_create : ref → ref → ref.

(** Two literal constants are folded into one 64-bit constant, the sum
    taken as [uint64_t]. *)
Lemma derived_offset_constants (loc : MemoryLocation) (A B : Z) (wa wb : nat) :
  offset loc = Some (Constant A wa) →
  MemoryLocation_derived AddExpr_create loc (Some (Constant B wb)) =
    Some (mkMemoryLocation (core loc) (site loc) (address loc)
            (Some (Constant ((A mod 2 ^ 64 + B mod 2 ^ 64) mod 2 ^ 64) 64))).
Proof.
  intros Hoff. unfold MemoryLocation_derived. rewrite Hoff. simpl.
  unfold set_offset, ConstantExpr_create_Int64, getZExtValue, uint64. simpl.
  by rewrite Z.mod_mod by done.
Qed.

(** With small enough constants the folded constant is the plain sum. *)
Lemma derived_offset_constants_small (loc : MemoryLocation) (A B : Z) (wa wb : nat) :
  offset loc = Some (Constant A wa) →
  (0 ≤ A)%Z → (0 ≤ B)%Z → (A + B < 2 ^ 64)%Z →
  MemoryLocation_derived AddExpr_create loc (Some (Constant B wb)) =
    Some (mkMemoryLocation (core loc) (site loc) (address loc)
            (Some (Constant (A + B) 64))).
Proof.
  intros Hoff HA HB HAB. rewrite (derived_offset_constants _ A B wa wb Hoff).
  rewrite (Z.mod_small A), (Z.mod_small B), (Z.mod_small (A + B)) by lia.
  done.
Qed.

End WithLibrary.

(** C3.  When the extra offset is not a literal constant, the offset of
    the derived location is [AddExpr::create] applied to the new object's
    own, still null, [offset] member and the extra offset: the base
    location's offset expression is not an operand, and two bases that
    differ only in their offsets derive the same offset.  (Two literal
    constants are folded, see [derived_offset_constants].) *)
Theorem derived_offset_symbolic_drops_base_offset
    (AddExpr_create : ref → ref → ref)
    (loc : MemoryLocation) (locOffset extra : Expr) :
  offset loc = Some locOffset →
  dyn_cast_ConstantExpr extra = None →
  MemoryLocation_derived AddExpr_create loc (Some extra) =
    Some (mkMemoryLocation (core loc) (site loc) (address loc)
            (AddExpr_create None (Some extra)))
  ∧ ∀ otherOffset : Expr,
      MemoryLocation_derived AddExpr_create
        (mkMemoryLocation (core loc) (site loc) (address loc) (Some otherOffset))
        (Some extra)
      = MemoryLocation_derived AddExpr_create loc (Some extra).
Proof.
  intros Hoff Hextra.
  assert (∀ l o, offset l = Some o →
            MemoryLocation_derived AddExpr_create l (Some extra) =
            Some (mkMemoryLocation (core l) (site l) (address l)
                    (AddExpr_create None (Some extra)))) as Hshape.
  { intros l o Hl. unfold MemoryLocation_derived. rewrite Hl, Hextra.
    by destruct (dyn_cast_ConstantExpr o). }
  split; [by apply (Hshape loc locOffset)|].
  intros otherOffset.
  rewrite (Hshape loc locOffset Hoff).
  by rewrite (Hshape (mkMemoryLocation (core loc) (site loc) (address loc)
                        (Some otherOffset)) otherOffset eq_refl).
Qed.

(** The base holds the constant offset 8, the extra offset is a read of
    array 5 at index 0. *)
Lemma derived_offset_symbolic_drops_base_offset_witness :
  let AddExpr_create := λ l r : ref,
        match l, r with
        | Some a, Some b => Some (Binary KAdd a b)
        | _, _ => None
        end in
  let base := mkMemoryLocation false 7 (Some (Constant 4096 64)) (Some (Constant 8 64)) in
  let extra := Read 5 UNull (Constant 0 32) in
  MemoryLocation_derived AddExpr_create base (Some extra) =
    Some (mkMemoryLocation false 7 (Some (Constant 4096 64))
            (AddExpr_create None (Some extra)))
  ∧ ∀ otherOffset : Expr,
      MemoryLocation_derived AddExpr_create
        (mkMemoryLocation false 7 (Some (Constant 4096 64)) (Some otherOffset))
        (Some extra)
      = MemoryLocation_derived AddExpr_create base (Some extra).
Proof.
  intros AddExpr_create base extra.
  apply (derived_offset_symbolic_drops_base_offset AddExpr_create base
           (Constant 8 64) extra); reflexivity.
Defined.

(** X5.  When the offset of the base and the extra offset are both literal
    constants, the derived location copies the core flag, the site and the
    address of the base, and its offset is the constant sum of the two,
    taken modulo 2^64 and of width 64 whatever the widths of the two
    constants were; [AddExpr::create] is not called. *)
Theorem derived_offset_folds_constants
    (AddExpr_create AddExpr_create' : ref → ref → ref)
    (loc : MemoryLocation) (A B : Z) (wa wb : nat) :
  offset loc = Some (Constant A wa) →
  (0 ≤ A < 2 ^ 64)%Z → (0 ≤ B < 2 ^ 64)%Z →
  ∃ derived,
    MemoryLocation_derived AddExpr_create loc (Some (Constant B wb)) = Some derived ∧
    MemoryLocation_derived AddExpr_create' loc (Some (Constant B wb)) = Some derived ∧
    core derived = core loc ∧ site derived = site loc ∧ address derived = address loc ∧
    offset derived = Some (Constant ((A + B) mod 2 ^ 64) 64).
Proof.
  intros Hoff HA HB. eexists.
  rewrite !(derived_offset_constants _ loc A B wa wb Hoff).
  rewrite (Z.mod_small A), (Z.mod_small B) by done. done.
Qed.

Lemma derived_offset_folds_constants_witness :
  let loc := mkMemoryLocation true 7 (Some (Constant 4096 64))
                              (Some (Constant (2 ^ 64 - 1) 64)) in
  ∃ derived,
    MemoryLocation_derived (λ _ _, None) loc (Some (Constant 9 32)) = Some derived ∧
    MemoryLocation_derived (λ l _, l) loc (Some (Constant 9 32)) = Some derived ∧
    core derived = core loc ∧ site derived = site loc ∧ address derived = address loc ∧
    offset derived = Some (Constant ((2 ^ 64 - 1 + 9) mod 2 ^ 64) 64).
Proof.
  intros loc.
  apply (derived_offset_folds_constants (λ _ _, None) (λ l _, l) loc (2 ^ 64 - 1) 9 64 32);
    [reflexivity|lia|lia].
Defined.

End LocationFacts.

(** ** The location graph *)

Module GraphFacts.
Import Graph.

(** Runs one [addNewEdge] on a graph that is given explicitly.  The
    comparisons of locations are settled by the hypotheses in scope. *)
Ltac run_edge :=
  unfold addNewEdge, find_node, new_node, node_at, addParent; cbn;
  repeat (first [ rewrite decide_True by (done || set_solver)
                | rewrite decide_False by (done || set_solver) ]; cbn).

(** The graph after [addNewEdge(A, B)], [addNewEdge(B, C)]: the chain. *)
Lemma two_edges_graph (A B C : nat) :
  A ≠ B → B ≠ C → A ≠ C →
  addNewEdges [(A, B); (B, C)] empty_graph =
    mkLocationGraph
      [mkLocationNode A 1 []; mkLocationNode B 2 [0]; mkLocationNode C 3 [1]]
      [1; 2].
Proof.
  intros HAB HBC HAC.
  assert (addNewEdge A B empty_graph =
          mkLocationGraph [mkLocationNode A 1 []; mkLocationNode B 2 [0]] [1]) as E1.
  { run_edge. done. }
  unfold addNewEdges. cbn [foldl fst snd]. rewrite E1.
  run_edge. done.
Qed.

(** The third call, [addNewEdge(C, A)], finds the node of [C] among the
    sinks and keeps it; the level of the node of [A] is 1, that of the node
    of [C] is 3, so the test [!(1 < 3)] rejects the edge. *)
Lemma three_edges_graph (A B C : nat) :
  A ≠ B → B ≠ C → A ≠ C →
  addNewEdges [(A, B); (B, C); (C, A)] empty_graph =
    addNewEdges [(A, B); (B, C)] empty_graph.
Proof.
  intros HAB HBC HAC.
  change (addNewEdges [(A, B); (B, C); (C, A)] empty_graph)
    with (addNewEdge C A (addNewEdges [(A, B); (B, C)] empty_graph)).
  rewrite two_edges_graph by done.
  run_edge. done.
Qed.

(** The same three locations with every pair read the other way round:
    [addNewEdge(B, A)], [addNewEdge(C, B)]. *)
Lemma two_edges_graph_reversed (A B C : nat) :
  A ≠ B → B ≠ C → A ≠ C →
  addNewEdges [(B, A); (C, B)] empty_graph =
    mkLocationGraph
      [mkLocationNode B 3 [2]; mkLocationNode A 2 [0]; mkLocationNode C 2 []]
      [1].
Proof.
  intros HAB HBC HAC.
  assert (addNewEdge B A empty_graph =
          mkLocationGraph [mkLocationNode B 1 []; mkLocationNode A 2 [0]] [1]) as E1.
  { run_edge. done. }
  unfold addNewEdges. cbn [foldl fst snd]. rewrite E1.
  run_edge. done.
Qed.

(** The third call, [addNewEdge(A, C)], finds the node of [A] among the
    sinks and keeps it; the node of [A] and the node of [C] both have the
    level 2, so the test [!(2 < 2)] lets the edge through. *)
Lemma three_edges_graph_reversed (A B C : nat) :
  A ≠ B → B ≠ C → A ≠ C →
  addNewEdges [(B, A); (C, B); (A, C)] empty_graph =
    mkLocationGraph
      [mkLocationNode B 3 [2]; mkLocationNode A 2 [0]; mkLocationNode C 3 [1]]
      [1].
Proof.
  intros HAB HBC HAC.
  change (addNewEdges [(B, A); (C, B); (A, C)] empty_graph)
    with (addNewEdge A C (addNewEdges [(B, A); (C, B)] empty_graph)).
  rewrite two_edges_graph_reversed by done.
  run_edge. done.
Qed.

(** C1.  The example of the claim is rejected: after [addNewEdge(A, B)]
    and [addNewEdge(B, C)] the call [addNewEdge(C, A)] leaves the chain as
    it is.  The guard does not hold for every sequence of calls, though.
    After [addNewEdge(B, A)] and [addNewEdge(C, B)] the node of [C] has no
    parent; the call [addNewEdge(A, C)] is not rejected: the node of [C]
    gets the node of [A] as a parent, and each of [A], [B] and [C] is
    reachable from itself along parent links (node of [A], node of [B],
    node of [C], node of [A]). *)
Theorem addNewEdge_closes_a_cycle (A B C : nat) :
  A ≠ B → B ≠ C → A ≠ C →
  let chain := addNewEdges [(A, B); (B, C)] empty_graph in
  let before := addNewEdges [(B, A); (C, B)] empty_graph in
  let g := addNewEdge A C before in
  addNewEdge C A chain = chain ∧
  getParents (node_at before 2) = [] ∧
  getLocation (node_at g 1) = A ∧ getLocation (node_at g 2) = C ∧
  getParents (node_at g 2) = [1] ∧
  location_on_cycle g A ∧ location_on_cycle g B ∧ location_on_cycle g C.
Proof.
  intros HAB HBC HAC chain before g.
  assert (addNewEdge C A chain = addNewEdges [(A, B); (B, C); (C, A)] empty_graph)
    as Hchain by done.
  assert (g = addNewEdges [(B, A); (C, B); (A, C)] empty_graph) as Hg by done.
  rewrite Hchain, Hg. subst chain before. clear g Hg Hchain.
  rewrite three_edges_graph, two_edges_graph_reversed, three_edges_graph_reversed by done.
  repeat (split; [done|]).
  split; [|split].
  - exists 1, 1. cbn. repeat (split; [lia || done|]).
    apply parent_path_step with 0; [cbn; set_solver|].
    apply parent_path_step with 2; [cbn; set_solver|].
    apply parent_path_one. cbn. set_solver.
  - exists 0, 0. cbn. repeat (split; [lia || done|]).
    apply parent_path_step with 2; [cbn; set_solver|].
    apply parent_path_step with 1; [cbn; set_solver|].
    apply parent_path_one. cbn. set_solver.
  - exists 2, 2. cbn. repeat (split; [lia || done|]).
    apply parent_path_step with 1; [cbn; set_solver|].
    apply parent_path_step with 0; [cbn; set_solver|].
    apply parent_path_one. cbn. set_solver.
Qed.

(** The locations 1, 2 and 3. *)
Lemma addNewEdge_closes_a_cycle_witness :
  let chain := addNewEdges [(1, 2); (2, 3)] empty_graph in
  let before := addNewEdges [(2, 1); (3, 2)] empty_graph in
  let g := addNewEdge 1 3 before in
  addNewEdge 3 1 chain = chain ∧
  getParents (node_at before 2) = [] ∧
  getLocation (node_at g 1) = 1 ∧ getLocation (node_at g 2) = 3 ∧
  getParents (node_at g 2) = [1] ∧
  location_on_cycle g 1 ∧ location_on_cycle g 2 ∧ location_on_cycle g 3.
Proof. apply (addNewEdge_closes_a_cycle 1 2 3); lia. Defined.

(** No sink with location [l]: the search of [consumeSinkNode] fails. *)
Lemma find_sink_from_None (g : LocationGraph) (l i : nat) (ss : list nat) :
  (∀ p, p ∈ ss → getLocation (node_at g p) ≠ l) →
  find_sink_from g i l ss = None.
Proof.
  revert i. induction ss as [|p ss IH]; intros i Hno; [done|].
  cbn. rewrite decide_False by (apply Hno; set_solver).
  apply IH. intros q Hq. apply Hno. set_solver.
Qed.

(** C10.  When no current sink has location [l], [consumeSinkNode l]
    returns the graph as it was: same sinks, same nodes, same parents;
    this holds whether or not some other node carries [l]. *)
Theorem consumeSinkNode_not_a_sink (l : nat) (g : LocationGraph) :
  (∀ p, p ∈ sinks g → getLocation (node_at g p) ≠ l) →
  consumeSinkNode l g = g.
Proof.
  intros Hno. unfold consumeSinkNode.
  by rewrite (find_sink_from_None g l 0 (sinks g) Hno).
Qed.

(** Location 1 has a node with a parent but is no sink: the chain built
    from the edges (1, 2) and (2, 3). *)
Lemma consumeSinkNode_not_a_sink_witness :
  let g := addNewEdges [(1, 2); (2, 3)] empty_graph in
  isVisited 1 g = true ∧ consumeSinkNode 1 g = g.
Proof.
  intros g. split; [done|].
  apply (consumeSinkNode_not_a_sink 1 g).
  intros p Hp. vm_compute in Hp.
  apply elem_of_cons in Hp as [->|Hp]; [vm_compute; lia|].
  apply elem_of_cons in Hp as [->|Hp]; [vm_compute; lia|].
  by apply elem_of_nil in Hp.
Defined.

Section Termination.

Variable base : nat.
Variable rank : nat → nat.

Abbreviation w := (weight base rank).

Lemma weight_delete (ss : list nat) (pos q : nat) :
  ss !! pos = Some q → w (delete pos ss) + base ^ rank q = w ss.
Proof.
  revert pos. induction ss as [|s ss IH]; intros pos; [done|].
  destruct pos as [|pos]; intros Hq.
  - injection Hq as ->. unfold weight. cbn. lia.
  - specialize (IH pos Hq). unfold weight in *.
    change (delete (S pos) (s :: ss)) with (s :: delete pos ss).
    cbn [sum_list_with]. lia.
Qed.

Lemma weight_app (ss ps : list nat) : w (ss ++ ps) = w ss + w ps.
Proof. apply sum_list_with_app. Qed.

Lemma weight_push (ss : list nat) (p : nat) :
  w (push_sink_once ss p) ≤ w ss + base ^ rank p.
Proof.
  unfold push_sink_once. case_decide; [lia|].
  rewrite weight_app. cbn. lia.
Qed.

Lemma weight_foldl_push (ps ss : list nat) :
  w (foldl push_sink_once ss ps) ≤ w ss + w ps.
Proof.
  revert ss. induction ps as [|p ps IH]; intros ss; cbn [foldl].
  { unfold weight. cbn [sum_list_with]. lia. }
  specialize (IH (push_sink_once ss p)). pose proof (weight_push ss p).
  unfold weight in *. cbn [sum_list_with]. lia.
Qed.

Lemma weight_parents (ps : list nat) (r : nat) :
  0 < base →
  (∀ p, p ∈ ps → rank p < r) → length ps < base → w ps < base ^ r.
Proof.
  intros base_pos Hrank Hlen. destruct r as [|r].
  { destruct ps as [|p ps]; [cbn; lia|].
    specialize (Hrank p ltac:(set_solver)). lia. }
  assert (w ps ≤ length ps * base ^ r) as Hle.
  { clear Hlen. induction ps as [|p ps IH]; [done|].
    unfold weight. cbn [sum_list_with length].
    assert (base ^ rank p ≤ base ^ r) as Hp.
    { apply Nat.pow_le_mono_r; [lia|].
      specialize (Hrank p ltac:(set_solver)). lia. }
    assert (w ps ≤ length ps * base ^ r) as Hps.
    { apply IH. intros p' Hp'. apply Hrank. set_solver. }
    unfold weight in Hps. lia. }
  assert (0 < base ^ r) as Hpos by (apply Nat.neq_0_lt_0, Nat.pow_nonzero; lia).
  rewrite Nat.pow_succ_r'. nia.
Qed.

End Termination.

Lemma parents_below_fanout (g : LocationGraph) (q : nat) :
  length (getParents (node_at g q)) < fanout g.
Proof.
  unfold fanout, node_at.
  destruct (allNodes g !! q) as [n|] eqn:Hq; cbn; [|lia].
  apply list_elem_of_lookup_2 in Hq.
  induction (allNodes g) as [|m ns IH]; [by apply elem_of_nil in Hq|].
  cbn. apply elem_of_cons in Hq as [->|Hq]; [lia|]. specialize (IH Hq). lia.
Qed.

(** Where the search of [consumeSinkNode] stops. *)
Lemma find_sink_from_Some (g : LocationGraph) (l : nat) (ss : list nat) :
  ∀ i pos, find_sink_from g i l ss = Some pos →
           ∃ q, i ≤ pos ∧ ss !! (pos - i) = Some q ∧ getLocation (node_at g q) = l.
Proof.
  induction ss as [|s ss IH]; intros i pos; [done|].
  cbn. case_decide as Hs.
  - intros [= <-]. exists s. rewrite Nat.sub_diag. done.
  - intros (q & Hle & Hq & Hl)%IH. exists q. split; [lia|]. split; [|done].
    replace (pos - i) with (S (pos - S i)) by lia. done.
Qed.

Lemma find_sink_from_is_Some (g : LocationGraph) (l i q : nat) (ss : list nat) :
  q ∈ ss → getLocation (node_at g q) = l → is_Some (find_sink_from g i l ss).
Proof.
  intros Hq Hl. destruct (find_sink_from g i l ss) as [pos|] eqn:Hfind; [done|].
  exfalso. revert i Hfind. induction ss as [|s ss IH]; intros i; [by apply elem_of_nil in Hq|].
  cbn. case_decide as Hs; [done|].
  apply elem_of_cons in Hq as [->|Hq]; [done|]. by apply IH.
Qed.

Lemma node_at_same (g g' : LocationGraph) (q : nat) :
  allNodes g' = allNodes g → node_at g' q = node_at g q.
Proof. unfold node_at. by intros ->. Qed.

Lemma elem_of_foldl_push (ps ss : list nat) (x : nat) :
  x ∈ ss → x ∈ foldl push_sink_once ss ps.
Proof.
  revert ss. induction ps as [|p ps IH]; intros ss Hx; [done|].
  cbn. apply IH. unfold push_sink_once. case_decide; set_solver.
Qed.

Lemma elem_of_getSinkLocations (g : LocationGraph) (L : nat) :
  L ∈ getSinkLocations g ↔ ∃ q, q ∈ sinks g ∧ getLocation (node_at g q) = L.
Proof.
  unfold getSinkLocations. rewrite elem_of_list_to_set, list_elem_of_fmap.
  naive_solver.
Qed.

Lemma elem_of_getSinksWithLocations (locationsList : list nat) (g : LocationGraph) (L : nat) :
  L ∈ getSinksWithLocations locationsList g ↔
  L ∈ locationsList ∧ L ∈ getSinkLocations g.
Proof.
  unfold getSinksWithLocations, getSinkLocations.
  by rewrite !elem_of_list_to_set, list_elem_of_filter.
Qed.

(** Consuming the sink of one location leaves the sinks of the other
    locations in place. *)
Lemma consumeSinkNode_keeps_others (g : LocationGraph) (l L : nat) :
  L ≠ l → L ∈ getSinkLocations g → L ∈ getSinkLocations (consumeSinkNode l g).
Proof.
  intros HL (p & Hp & HpL)%elem_of_getSinkLocations.
  unfold consumeSinkNode.
  destruct (find_sink_from g 0 l (sinks g)) as [pos|] eqn:Hfind;
    [|apply elem_of_getSinkLocations; eauto].
  apply find_sink_from_Some in Hfind as (q & _ & Hq & Hl).
  rewrite Nat.sub_0_r in Hq.
  apply elem_of_getSinkLocations. exists p. split; [|done].
  cbn [sinks]. apply elem_of_foldl_push.
  apply list_elem_of_lookup in Hp as [i Hi].
  assert (i ≠ pos) as Hne by (intros ->; congruence).
  apply list_elem_of_lookup.
  destruct (decide (i < pos)).
  - exists i. by rewrite list_lookup_delete_lt.
  - exists (i - 1). rewrite list_lookup_delete_ge by lia.
    by replace (S (i - 1)) with i by lia.
Qed.

Lemma consume_list_keeps_others (ls : list nat) :
  ∀ g L, L ∉ ls → L ∈ getSinkLocations g →
         L ∈ getSinkLocations (foldl (λ g' l, consumeSinkNode l g') g ls).
Proof.
  induction ls as [|l ls IH]; intros g L HL HLg; [done|].
  cbn [foldl]. apply IH; [set_solver|].
  apply consumeSinkNode_keeps_others; [set_solver|done].
Qed.

(** One [consumeSinkNode]: the nodes stay, and the weight of the sinks
    goes down, strictly when a sink is consumed. *)
Lemma consumeSinkNode_step (g : LocationGraph) (rank : nat → nat) (l : nat) :
  ranked g rank →
  allNodes (consumeSinkNode l g) = allNodes g ∧
  weight (fanout g) rank (sinks (consumeSinkNode l g)) ≤ weight (fanout g) rank (sinks g) ∧
  (l ∈ getSinkLocations g →
   weight (fanout g) rank (sinks (consumeSinkNode l g)) < weight (fanout g) rank (sinks g)).
Proof.
  intros Hranked. unfold consumeSinkNode.
  destruct (find_sink_from g 0 l (sinks g)) as [pos|] eqn:Hfind.
  - apply find_sink_from_Some in Hfind as (q & _ & Hq & Hl).
    rewrite Nat.sub_0_r in Hq. rewrite Hq.
    change (default 0 (Some q)) with q. cbn [allNodes sinks].
    split; [done|].
    assert (weight (fanout g) rank
              (foldl push_sink_once (delete pos (sinks g)) (getParents (node_at g q)))
            < weight (fanout g) rank (sinks g)) as Hlt.
    { assert (0 < fanout g) as Hpos by (unfold fanout; lia).
      pose proof (weight_foldl_push (fanout g) rank (getParents (node_at g q))
                    (delete pos (sinks g))) as Hpush.
      pose proof (weight_delete (fanout g) rank (sinks g) pos q Hq) as Hdel.
      pose proof (weight_parents (fanout g) rank
                    (getParents (node_at g q)) (rank q) Hpos
                    (Hranked q) (parents_below_fanout g q)) as Hpar.
      lia. }
    split; [lia|done].
  - split; [done|]. split; [done|].
    intros (q & Hq & Hl)%elem_of_getSinkLocations.
    destruct (find_sink_from_is_Some g l 0 q (sinks g) Hq Hl) as [? ?]. congruence.
Qed.

(** A round of [consumeSinksWithLocations]: [consumeSinkNode] for each
    location of [ls] in turn. *)
Lemma consume_round (rank : nat → nat) (ls : list nat) :
  ∀ g, ranked g rank →
       let g' := foldl (λ g' l, consumeSinkNode l g') g ls in
       allNodes g' = allNodes g ∧
       weight (fanout g) rank (sinks g') ≤ weight (fanout g) rank (sinks g) ∧
       (∀ l rest, ls = l :: rest → l ∈ getSinkLocations g →
          weight (fanout g) rank (sinks g') < weight (fanout g) rank (sinks g)).
Proof.
  induction ls as [|l ls IH]; intros g Hranked; cbn [foldl].
  { split; [done|]. split; [done|]. intros ???; discriminate. }
  destruct (consumeSinkNode_step g rank l Hranked) as (Hnodes & Hle & Hlt).
  assert (ranked (consumeSinkNode l g) rank) as Hranked'.
  { intros q p. rewrite (node_at_same g _ q Hnodes). apply Hranked. }
  assert (fanout (consumeSinkNode l g) = fanout g) as Hfan
    by (unfold fanout; by rewrite Hnodes).
  destruct (IH (consumeSinkNode l g) Hranked') as (Hnodes' & Hle' & _).
  rewrite Hfan in Hle'.
  split; [by rewrite Hnodes'|]. split; [lia|].
  intros l' rest [= <- <-] Hl. specialize (Hlt Hl). lia.
Qed.

(** On a graph without parent cycle [consumeSinksWithLocations] reaches
    its fixpoint: any fuel above the weight of the sinks is enough. *)
Lemma consumeSinksWithLocations_terminates (rank : nat → nat) (locationsList : list nat)
    (fuel : nat) :
  ∀ g, ranked g rank →
       weight (fanout g) rank (sinks g) < fuel →
       ∃ g', consumeSinksWithLocations fuel locationsList g = Some g' ∧
             allNodes g' = allNodes g.
Proof.
  induction fuel as [|fuel IH]; intros g Hranked Hfuel; [lia|].
  cbn [consumeSinksWithLocations]. case_decide as Hempty.
  { exists g. done. }
  set (ls := set_in_order (getSinksWithLocations locationsList g)).
  assert (∀ l, l ∈ ls → l ∈ getSinksWithLocations locationsList g) as Hls.
  { intros l. unfold ls, set_in_order. rewrite merge_sort_Permutation.
    by rewrite elem_of_elements. }
  destruct (consume_round rank ls g Hranked) as (Hnodes & Hle & Hlt).
  assert (weight (fanout g) rank (sinks (foldl (λ g' l, consumeSinkNode l g') g ls))
          < weight (fanout g) rank (sinks g)) as Hdown.
  { destruct ls as [|l rest] eqn:Hlseq.
    - exfalso. apply Hempty. apply set_eq. intros x. split; [|set_solver].
      intros Hx. assert (x ∈ ls) as Hxl.
      { unfold ls, set_in_order. rewrite merge_sort_Permutation.
        by apply elem_of_elements. }
      rewrite Hlseq in Hxl. by apply elem_of_nil in Hxl.
    - apply (Hlt l rest eq_refl).
      assert (l ∈ getSinksWithLocations locationsList g) as Hl
        by (apply Hls; set_solver).
      by apply elem_of_getSinksWithLocations in Hl as [_ ?]. }
  destruct (IH (foldl (λ g' l, consumeSinkNode l g') g ls)) as (g' & Hrun & Hnodes').
  { intros q p. rewrite (node_at_same g _ q Hnodes). apply Hranked. }
  { unfold fanout. rewrite Hnodes. fold (fanout g). lia. }
  exists g'. split; [done|]. by rewrite Hnodes'.
Qed.

(** However the run ends, a sink location that is not in the list is still
    a sink location afterwards. *)
Lemma consumeSinksWithLocations_keeps_others (locationsList : list nat) (fuel : nat) :
  ∀ g g' L,
    consumeSinksWithLocations fuel locationsList g = Some g' →
    L ∉ locationsList → L ∈ getSinkLocations g → L ∈ getSinkLocations g'.
Proof.
  induction fuel as [|fuel IH]; intros g g' L; [done|].
  cbn [consumeSinksWithLocations]. case_decide as Hempty; [by intros [= <-]|].
  intros Hrun HL HLg. apply (IH _ _ _ Hrun HL).
  apply consume_list_keeps_others; [|done].
  unfold set_in_order. rewrite merge_sort_Permutation, elem_of_elements.
  by intros [? _]%elem_of_getSinksWithLocations.
Qed.

Lemma find_node_from_Some (l : nat) (ns : list LocationNode) :
  ∀ i p, find_node_from i l ns = Some p →
         ∃ n, i ≤ p ∧ ns !! (p - i) = Some n ∧ getLocation n = l.
Proof.
  induction ns as [|m ns IH]; intros i p; [done|].
  cbn. case_decide as Hm.
  - intros [= <-]. exists m. by rewrite Nat.sub_diag.
  - intros (n & Hle & Hn & Hl)%IH. exists n. split; [lia|]. split; [|done].
    by replace (p - i) with (S (p - S i)) by lia.
Qed.

Lemma find_node_Some (l p : nat) (g : LocationGraph) :
  find_node l g = Some p → ∃ n, allNodes g !! p = Some n ∧ getLocation n = l.
Proof.
  intros (n & _ & Hn & Hl)%find_node_from_Some. rewrite Nat.sub_0_r in Hn. eauto.
Qed.

Lemma find_node_from_is_Some (l : nat) (ns : list LocationNode) (n : LocationNode) :
  n ∈ ns → getLocation n = l → ∀ i, is_Some (find_node_from i l ns).
Proof.
  intros Hn Hl. induction ns as [|m ns IH]; intros i; [by apply elem_of_nil in Hn|].
  cbn. case_decide as Hm; [done|].
  apply elem_of_cons in Hn as [->|Hn]; [done|]. by apply IH.
Qed.

(** What [addNewEdge] does to the graph: it appends at most two nodes
    without parents, appends at most the new target node to the sinks, and
    may give the target node [t] the source node [s] as a parent. *)
Lemma addNewEdge_shape (source target : nat) (g : LocationGraph) :
  ∃ (extra : list LocationNode) (extraSinks : list nat) (s t : nat) (linked : bool)
    (level : Z) (ns nt : LocationNode),
    addNewEdge source target g =
      mkLocationGraph
        (if linked then alter (addParent s level) t (allNodes g ++ extra)
         else allNodes g ++ extra)
        (sinks g ++ extraSinks) ∧
    Forall (λ n, getParents n = []) extra ∧ length extra ≤ 2 ∧
    (allNodes g ++ extra) !! s = Some ns ∧ getLocation ns = source ∧
    (allNodes g ++ extra) !! t = Some nt ∧ getLocation nt = target ∧
    (extraSinks = [] ∨ extraSinks = [t] ∧ length (allNodes g) ≤ t).
Proof.
  unfold addNewEdge, new_node.
  destruct (find_node target g) as [t0|] eqn:Ht;
    destruct (find_node source g) as [s0|] eqn:Hs;
    try (apply find_node_Some in Ht as (nt & Hnt & Hlt));
    try (apply find_node_Some in Hs as (ns & Hns & Hls));
    try case_decide; cbn -[Z.pow Z.modulo Z.ltb];
    try match goal with
    | |- context [negb ?c] => destruct c
    end; cbn [negb].
  - exists [], [], s0, t0, false, 0%Z, ns, nt. rewrite !app_nil_r.
    split; [done|]. split; [done|]. split; [cbn; lia|].
    repeat (split; [done|]). by left.
  - eexists [], [], s0, t0, true, _, ns, nt. rewrite !app_nil_r.
    split; [reflexivity|]. split; [done|]. split; [cbn; lia|].
    repeat (split; [done|]). by left.
  - eexists [_], [], (length (allNodes g)), t0, true, _, _, nt. rewrite !app_nil_r.
    split; [reflexivity|]. split; [by repeat constructor|]. split; [cbn; lia|].
    split; [by rewrite lookup_app_r, Nat.sub_diag by done|]. split; [done|].
    split; [by apply lookup_app_l_Some|]. split; [done|]. by left.
  - eexists [_], [], (length (allNodes g)), t0, true, _, _, nt. rewrite !app_nil_r.
    split; [reflexivity|]. split; [by repeat constructor|]. split; [cbn; lia|].
    split; [by rewrite lookup_app_r, Nat.sub_diag by done|]. split; [done|].
    split; [by apply lookup_app_l_Some|]. split; [done|]. by left.
  - eexists [_], [_], s0, (length (allNodes g)), true, _, ns, _.
    split; [reflexivity|]. split; [by repeat constructor|]. split; [cbn; lia|].
    split; [by apply lookup_app_l_Some|]. split; [done|].
    split; [by rewrite lookup_app_r, Nat.sub_diag by done|]. split; [done|].
    right. done.
  - eexists [_; _], [_], (length (allNodes g)), (S (length (allNodes g))), true, _, _, _.
    rewrite <- (assoc_L (++)), length_app, Nat.add_1_r. cbn [app].
    split; [reflexivity|]. split; [by repeat constructor|]. split; [cbn; lia|].
    split; [by rewrite lookup_app_r, Nat.sub_diag by done|]. split; [done|].
    split; [rewrite lookup_app_r by lia;
            by replace (S (length (allNodes g)) - length (allNodes g)) with 1 by lia|].
    split; [done|]. right. split; [done|lia].
  - eexists [_; _], [_], (length (allNodes g)), (S (length (allNodes g))), true, _, _, _.
    rewrite <- (assoc_L (++)), length_app, Nat.add_1_r. cbn [app].
    split; [reflexivity|]. split; [by repeat constructor|]. split; [cbn; lia|].
    split; [by rewrite lookup_app_r, Nat.sub_diag by done|]. split; [done|].
    split; [rewrite lookup_app_r by lia;
            by replace (S (length (allNodes g)) - length (allNodes g)) with 1 by lia|].
    split; [done|]. right. split; [done|lia].
Qed.

Lemma addParent_spec (s : nat) (level : Z) (n : LocationNode) :
  getLocation (addParent s level n) = getLocation n ∧
  s ∈ getParents (addParent s level n) ∧
  (∀ q, q ∈ getParents (addParent s level n) ↔ q ∈ getParents n ∨ q = s).
Proof.
  unfold addParent. cbn [getLocation getParents].
  case_decide; repeat split; try done; set_solver.
Qed.

(** The nodes after a possible [addParent s] at position [t]. *)
Lemma lookup_linked (linked : bool) (s t p : nat) (level : Z)
    (l : list LocationNode) (n : LocationNode) :
  l !! p = Some n →
  ∃ n', (if linked then alter (addParent s level) t l else l) !! p = Some n' ∧
        getLocation n' = getLocation n ∧
        (∀ q, q ∈ getParents n' → q ∈ getParents n ∨ q = s) ∧
        (∀ q, q ∈ getParents n → q ∈ getParents n') ∧
        (linked = true → p = t → s ∈ getParents n').
Proof.
  intros Hp. destruct linked; [|exists n; naive_solver].
  destruct (decide (t = p)) as [->|Hne].
  - exists (addParent s level n). rewrite list_lookup_alter_eq, Hp.
    destruct (addParent_spec s level n) as (? & ? & Hiff).
    repeat split; try done; intros q; rewrite Hiff; auto.
  - exists n. rewrite list_lookup_alter_ne by done. naive_solver.
Qed.

(** X6.  [addNewEdge] only adds: the sinks it finds stay sinks, in place; it
    allocates at most two nodes; a node that was there keeps its place, its
    location and its parents; and afterwards both the source and the
    target location have a node. *)
Theorem addNewEdge_only_adds (source target : nat) (g : LocationGraph) :
  let g' := addNewEdge source target g in
  sinks g `prefix_of` sinks g' ∧
  length (allNodes g) ≤ length (allNodes g') ≤ length (allNodes g) + 2 ∧
  (∀ p n, allNodes g !! p = Some n →
          ∃ n', allNodes g' !! p = Some n' ∧
                getLocation n' = getLocation n ∧
                (∀ q, q ∈ getParents n → q ∈ getParents n')) ∧
  isVisited source g' = true ∧ isVisited target g' = true.
Proof.
  intros g'. subst g'.
  destruct (addNewEdge_shape source target g)
    as (extra & extraSinks & s & t & linked & level & ns & nt & -> & Hextra & Hlen2
        & Hs & Hls & Ht & Hlt & Hsinks).
  cbn [sinks allNodes].
  assert (length (if linked then alter (addParent s level) t (allNodes g ++ extra)
                  else allNodes g ++ extra) = length (allNodes g) + length extra) as Hlen.
  { destruct linked; by rewrite ?length_alter, length_app. }
  split; [by apply prefix_app_r|]. split; [lia|]. split.
  { intros p n Hp.
    destruct (lookup_linked linked s t p level (allNodes g ++ extra) n)
      as (n' & Hn' & ? & _ & ? & _); [by apply lookup_app_l_Some|].
    exists n'. done. }
  split.
  - destruct (lookup_linked linked s t s level (allNodes g ++ extra) ns Hs)
      as (n' & Hn' & Hloc & _).
    apply bool_decide_eq_true.
    apply (find_node_from_is_Some source _ n'); [|congruence].
    by eapply list_elem_of_lookup_2.
  - destruct (lookup_linked linked s t t level (allNodes g ++ extra) nt Ht)
      as (n' & Hn' & Hloc & _).
    apply bool_decide_eq_true.
    apply (find_node_from_is_Some target _ n'); [|congruence].
    by eapply list_elem_of_lookup_2.
Qed.

Lemma foldl_push_Forall (P : nat → Prop) (ps ss : list nat) :
  Forall P ss → Forall P ps → Forall P (foldl push_sink_once ss ps).
Proof.
  revert ss. induction ps as [|p ps IH]; intros ss Hss Hps; [done|].
  apply Forall_cons in Hps as [Hp Hps]. cbn. apply IH; [|done].
  unfold push_sink_once. case_decide; [done|]. apply Forall_app. by repeat constructor.
Qed.

Lemma foldl_push_NoDup (ps ss : list nat) :
  NoDup ss → NoDup (foldl push_sink_once ss ps).
Proof.
  revert ss. induction ps as [|p ps IH]; intros ss Hss; [done|].
  cbn. apply IH. unfold push_sink_once. case_decide; [done|].
  apply NoDup_app. split; [done|]. split; [|apply NoDup_singleton].
  intros x Hx ->%list_elem_of_singleton. done.
Qed.

Lemma well_formed_empty_graph : well_formed_graph empty_graph.
Proof. repeat split; constructor. Qed.

Lemma addNewSink_well_formed (l : nat) (g : LocationGraph) :
  well_formed_graph g → well_formed_graph (addNewSink l g).
Proof.
  intros (Hsinks & Hparents & Hnodup). unfold addNewSink.
  destruct (isVisited l g); [done|].
  unfold well_formed_graph. cbn [allNodes sinks]. rewrite length_app. cbn [length].
  split; [|split].
  - apply Forall_app. split; [|repeat constructor; lia].
    eapply Forall_impl; [done|]. cbn. intros; lia.
  - apply Forall_app. split; [|by repeat constructor].
    eapply Forall_impl; [done|]. cbn. intros n Hn.
    eapply Forall_impl; [done|]. cbn. intros; lia.
  - apply NoDup_app. split; [done|]. split; [|apply NoDup_singleton].
    intros x Hx ->%list_elem_of_singleton.
    rewrite Forall_forall in Hsinks. specialize (Hsinks _ Hx). lia.
Qed.

Lemma consumeSinkNode_well_formed (l : nat) (g : LocationGraph) :
  well_formed_graph g → well_formed_graph (consumeSinkNode l g).
Proof.
  intros (Hsinks & Hparents & Hnodup). unfold consumeSinkNode.
  destruct (find_sink_from g 0 l (sinks g)) as [pos|] eqn:Hfind; [|done].
  apply find_sink_from_Some in Hfind as (q & _ & Hq & _).
  rewrite Nat.sub_0_r in Hq. rewrite Hq. change (default 0 (Some q)) with q.
  unfold well_formed_graph. cbn [allNodes sinks].
  assert (delete pos (sinks g) `sublist_of` sinks g) as Hsub by apply sublist_delete.
  split; [|split; [done|]].
  - apply foldl_push_Forall.
    + by apply Forall_delete.
    + unfold node_at. destruct (allNodes g !! q) as [n|] eqn:Hn; [|constructor].
      cbn. by eapply Forall_lookup_1 in Hparents.
  - apply foldl_push_NoDup. by eapply sublist_NoDup.
Qed.

Lemma addNewEdge_well_formed (source target : nat) (g : LocationGraph) :
  well_formed_graph g → well_formed_graph (addNewEdge source target g).
Proof.
  intros (Hsinks & Hparents & Hnodup).
  destruct (addNewEdge_shape source target g)
    as (extra & extraSinks & s & t & linked & level & ns & nt & -> & Hextra & Hlen2
        & Hs & Hls & Ht & Hlt & Hextras).
  unfold well_formed_graph. cbn [sinks allNodes].
  assert (length (if linked then alter (addParent s level) t (allNodes g ++ extra)
                  else allNodes g ++ extra) = length (allNodes g) + length extra) as ->.
  { destruct linked; by rewrite ?length_alter, length_app. }
  apply lookup_lt_Some in Hs, Ht. rewrite length_app in Hs, Ht.
  split; [|split].
  - apply Forall_app. split.
    + eapply Forall_impl; [done|]. cbn. intros; lia.
    + destruct Hextras as [->|[-> _]]; repeat constructor. done.
  - assert (Forall (λ n, Forall (λ p, p < length (allNodes g) + length extra)
                           (getParents n)) (allNodes g ++ extra)) as Hall.
    { apply Forall_app. split.
      - eapply Forall_impl; [done|]. cbn. intros n Hn.
        eapply Forall_impl; [done|]. cbn. intros; lia.
      - eapply Forall_impl; [done|]. cbn. intros n ->. constructor. }
    destruct linked; [|done]. apply Forall_alter; [done|].
    intros n _ Hn. destruct (addParent_spec s level n) as (_ & _ & Hiff).
    apply Forall_forall. intros q [Hq| ->]%Hiff; [|done].
    rewrite Forall_forall in Hn. by apply Hn.
  - apply NoDup_app. split; [done|].
    destruct Hextras as [->|[-> Hle]]; [split; [|constructor]; set_solver|].
    split; [|apply NoDup_singleton].
    intros x Hx ->%list_elem_of_singleton.
    rewrite Forall_forall in Hsinks. specialize (Hsinks _ Hx). lia.
Qed.

(** X7.  Whatever sequence of [addNewSink], [addNewEdge] and [consumeSinkNode]
    calls is run on an empty graph, every sink and every parent is a node
    of the graph and no node is listed twice among the sinks. *)
Theorem graph_operations_keep_well_formed (ops : list graph_op) :
  well_formed_graph (foldl run_op empty_graph ops).
Proof.
  assert (∀ g, well_formed_graph g → well_formed_graph (foldl run_op g ops)) as Hgen.
  { induction ops as [|op ops IH]; intros g Hg; [done|].
    cbn [foldl]. apply IH. destruct op; cbn [run_op].
    - by apply addNewSink_well_formed.
    - by apply addNewEdge_well_formed.
    - by apply consumeSinkNode_well_formed. }
  apply Hgen, well_formed_empty_graph.
Qed.

Lemma node_at_app_l (g g' : LocationGraph) (extra : list LocationNode) (p : nat) :
  allNodes g' = allNodes g ++ extra → p < length (allNodes g) →
  node_at g' p = node_at g p.
Proof. intros Hg Hp. unfold node_at. by rewrite Hg, lookup_app_l. Qed.

(** X8.  [addNewSink] looks at all nodes, not only at the sinks: a location
    that has a node already, sink or not, is left alone, so it does not
    become a sink; a location without node gets a new node of level 0
    without parents and joins the sink locations.  Calling it twice is
    the same as calling it once. *)
Theorem addNewSink_once_per_location (l : nat) (g : LocationGraph) :
  well_formed_graph g →
  (isVisited l g = true → addNewSink l g = g) ∧
  (isVisited l g = false →
     getSinkLocations (addNewSink l g) = {[l]} ∪ getSinkLocations g ∧
     node_at (addNewSink l g) (length (allNodes g)) = mkLocationNode l 0 []) ∧
  isVisited l (addNewSink l g) = true ∧
  addNewSink l (addNewSink l g) = addNewSink l g.
Proof.
  intros (Hsinks & _ & _).
  assert (isVisited l (addNewSink l g) = true) as Hvisited.
  { unfold addNewSink. destruct (isVisited l g) eqn:Hv; [done|].
    apply bool_decide_eq_true. unfold find_node. cbn [allNodes].
    apply (find_node_from_is_Some l _ (mkLocationNode l 0 [])); [set_solver|done]. }
  split; [|split; [|split; [done|]]].
  - intros Hv. unfold addNewSink. by rewrite Hv.
  - intros Hv. unfold addNewSink. rewrite Hv. split.
    + apply set_eq. intros L. rewrite elem_of_union, !elem_of_getSinkLocations.
      cbn [sinks]. split.
      * intros (q & [Hq| ->%list_elem_of_singleton]%elem_of_app & HL).
        -- right. exists q. split; [done|]. rewrite <- HL. f_equal. symmetry.
           eapply node_at_app_l; [reflexivity|].
           rewrite Forall_forall in Hsinks. by apply Hsinks.
        -- left. revert HL. unfold node_at. cbn [allNodes].
           rewrite lookup_app_r, Nat.sub_diag by done. cbn. set_solver.
      * intros [->%elem_of_singleton|(q & Hq & HL)].
        -- exists (length (allNodes g)). split; [set_solver|].
           unfold node_at. cbn [allNodes].
           by rewrite lookup_app_r, Nat.sub_diag by done.
        -- exists q. split; [set_solver|]. rewrite <- HL. f_equal.
           eapply node_at_app_l; [reflexivity|].
           rewrite Forall_forall in Hsinks. by apply Hsinks.
    + unfold node_at. cbn [allNodes]. by rewrite lookup_app_r, Nat.sub_diag by done.
  - unfold addNewSink at 1. by rewrite Hvisited.
Qed.

(** After the edge from 5 to 6, location 5 has a node that is no sink. *)
Lemma addNewSink_once_per_location_witness :
  let g := addNewEdge 5 6 empty_graph in
  isVisited 5 g = true ∧ addNewSink 5 g = g ∧ (5 ∉ getSinkLocations (addNewSink 5 g)) ∧
  getSinkLocations (addNewSink 7 g) = {[7]} ∪ getSinkLocations g.
Proof.
  intros g.
  destruct (addNewSink_once_per_location 5 g) as (Hsame & _);
    [apply addNewEdge_well_formed, well_formed_empty_graph|].
  destruct (addNewSink_once_per_location 7 g) as (_ & Hnew & _);
    [apply addNewEdge_well_formed, well_formed_empty_graph|].
  split; [by vm_compute|]. split; [by apply Hsame|].
  split; [rewrite Hsame by done; by vm_compute|].
  by apply Hnew.
Defined.

(** More fuel does not change what [consumeSinksWithLocations] returns. *)
Lemma consumeSinksWithLocations_more_fuel (locationsList : list nat) (fuel : nat) :
  ∀ g g' fuel', consumeSinksWithLocations fuel locationsList g = Some g' →
                fuel ≤ fuel' →
                consumeSinksWithLocations fuel' locationsList g = Some g'.
Proof.
  induction fuel as [|fuel IH]; intros g g' fuel'; [done|].
  intros Hrun Hle. destruct fuel' as [|fuel']; [lia|].
  cbn [consumeSinksWithLocations] in *. case_decide; [done|].
  apply IH; [done|lia].
Qed.

Lemma consumeSinksWithLocations_fixpoint (locationsList : list nat) (fuel : nat) :
  ∀ g g', consumeSinksWithLocations fuel locationsList g = Some g' →
          getSinksWithLocations locationsList g' = ∅ ∧ allNodes g' = allNodes g.
Proof.
  induction fuel as [|fuel IH]; intros g g'; [done|].
  cbn [consumeSinksWithLocations]. case_decide as Hempty; [by intros [= <-]|].
  intros (Hfix & Hnodes)%IH. split; [done|]. rewrite Hnodes.
  generalize (set_in_order (getSinksWithLocations locationsList g)).
  intros ls. clear. revert g. induction ls as [|l ls IHls]; intros g; [done|].
  cbn [foldl]. rewrite IHls. unfold consumeSinkNode.
  by destruct (find_sink_from g 0 l (sinks g)).
Qed.

(** X10.  On a graph without parent cycle [consumeSinksWithLocations] ends,
    with the same result for every fuel above the weight of the sinks: no
    sink is left whose location is in the list, the nodes are the same,
    and the sink locations outside the list are still sink locations. *)
Theorem consumeSinksWithLocations_reaches_fixpoint
    (rank : nat → nat) (locationsList : list nat) (g : LocationGraph) :
  ranked g rank →
  ∃ g',
    (∀ fuel, weight (fanout g) rank (sinks g) < fuel →
             consumeSinksWithLocations fuel locationsList g = Some g') ∧
    getSinksWithLocations locationsList g' = ∅ ∧
    allNodes g' = allNodes g ∧
    (∀ L, L ∉ locationsList → L ∈ getSinkLocations g → L ∈ getSinkLocations g').
Proof.
  intros Hranked.
  destruct (consumeSinksWithLocations_terminates rank locationsList
              (S (weight (fanout g) rank (sinks g))) g Hranked ltac:(lia))
    as (g' & Hrun & _).
  exists g'. split; [|split; [|split]].
  - intros fuel Hfuel. eapply consumeSinksWithLocations_more_fuel; [done|lia].
  - by eapply consumeSinksWithLocations_fixpoint.
  - by eapply consumeSinksWithLocations_fixpoint.
  - intros L HL HLg. by eapply consumeSinksWithLocations_keeps_others.
Qed.

(** The edge from 5 to 6, stripped of location 6. *)
Lemma consumeSinksWithLocations_reaches_fixpoint_witness :
  ∃ g',
    consumeSinksWithLocations 3 [6] (addNewEdge 5 6 empty_graph) = Some g' ∧
    getSinksWithLocations [6] g' = ∅ ∧ 5 ∈ getSinkLocations g'.
Proof.
  destruct (consumeSinksWithLocations_reaches_fixpoint
              (λ p, match p with O => 0 | S _ => 1 end) [6] (addNewEdge 5 6 empty_graph))
    as (g' & Hrun & Hfix & _ & _).
  { intros [|[|q]] p Hp; vm_compute in Hp.
    - by apply elem_of_nil in Hp.
    - apply list_elem_of_singleton in Hp as ->. lia.
    - by apply elem_of_nil in Hp. }
  exists g'. split; [apply Hrun; vm_compute; lia|]. split; [done|].
  specialize (Hrun 3 ltac:(vm_compute; lia)). vm_compute in Hrun.
  injection Hrun as <-. by vm_compute.
Defined.

Lemma consumeSinkNode_no_root (l : nat) (g : LocationGraph) :
  no_root g → sinks g ≠ [] → Forall (λ p, p < length (allNodes g)) (sinks g) →
  allNodes (consumeSinkNode l g) = allNodes g ∧
  sinks (consumeSinkNode l g) ≠ [] ∧
  Forall (λ p, p < length (allNodes g)) (sinks (consumeSinkNode l g)).
Proof.
  intros Hroot Hne Hvalid. unfold consumeSinkNode.
  destruct (find_sink_from g 0 l (sinks g)) as [pos|] eqn:Hfind; [|done].
  apply find_sink_from_Some in Hfind as (q & _ & Hq & _).
  rewrite Nat.sub_0_r in Hq. rewrite Hq. change (default 0 (Some q)) with q.
  cbn [allNodes sinks].
  assert (q < length (allNodes g)) as Hqv by by eapply Forall_lookup_1 in Hvalid.
  destruct (Hroot q Hqv) as [Hparents Hpvalid].
  split; [done|]. split.
  - destruct (getParents (node_at g q)) as [|p ps]; [done|].
    cbn [foldl]. intros Hnil.
    assert (p ∈ foldl push_sink_once (push_sink_once (delete pos (sinks g)) p) ps) as Hp.
    { apply elem_of_foldl_push. unfold push_sink_once. case_decide; set_solver. }
    rewrite Hnil in Hp. by apply elem_of_nil in Hp.
  - apply foldl_push_Forall; [by apply Forall_delete|done].
Qed.

(** X11.  When every node has a parent and every location is in the list, the
    recursion "until fixpoint" never ends: each consumed sink hands over
    to a parent, so the sinks never run out. *)
Theorem consumeSinksWithLocations_runs_forever
    (locationsList : list nat) (g : LocationGraph) :
  no_root g → sinks g ≠ [] →
  Forall (λ p, p < length (allNodes g)) (sinks g) →
  (∀ q, q < length (allNodes g) → getLocation (node_at g q) ∈ locationsList) →
  ∀ fuel, consumeSinksWithLocations fuel locationsList g = None.
Proof.
  intros Hroot Hne Hvalid Hlocs fuel. revert g Hroot Hne Hvalid Hlocs.
  induction fuel as [|fuel IH]; intros g Hroot Hne Hvalid Hlocs; [done|].
  cbn [consumeSinksWithLocations]. rewrite decide_False.
  2:{ destruct (sinks g) as [|q ss] eqn:Hss; [done|].
      apply Forall_cons in Hvalid as [Hq _].
      assert (getLocation (node_at g q) ∈ getSinksWithLocations locationsList g) as Hin.
      { apply elem_of_getSinksWithLocations. split; [by apply Hlocs|].
        apply elem_of_getSinkLocations. exists q. rewrite Hss. set_solver. }
      set_solver. }
  generalize (set_in_order (getSinksWithLocations locationsList g)). intros ls.
  assert (∀ g1, allNodes g1 = allNodes g → sinks g1 ≠ [] →
                Forall (λ p, p < length (allNodes g)) (sinks g1) →
                consumeSinksWithLocations fuel locationsList
                  (foldl (λ g' l, consumeSinkNode l g') g1 ls) = None) as Hround.
  { induction ls as [|l ls IHls]; intros g1 Hnodes Hne1 Hvalid1.
    - cbn [foldl]. apply IH.
      + intros q. rewrite Hnodes, (node_at_same g g1 q Hnodes). apply Hroot.
      + done.
      + by rewrite Hnodes.
      + intros q. rewrite Hnodes, (node_at_same g g1 q Hnodes). apply Hlocs.
    - cbn [foldl].
      destruct (consumeSinkNode_no_root l g1) as (Hn & Hs & Hv).
      + intros q. rewrite Hnodes, (node_at_same g g1 q Hnodes). apply Hroot.
      + done.
      + by rewrite Hnodes.
      + apply IHls; [congruence|done|by rewrite <- Hnodes]. }
  by apply Hround.
Qed.

(** The graph with the parent cycle that the calls [addNewEdge(2, 1)],
    [addNewEdge(3, 2)] and [addNewEdge(1, 3)] build. *)
Lemma consumeSinksWithLocations_runs_forever_witness :
  sinks (addNewEdges [(2, 1); (3, 2); (1, 3)] empty_graph) = [1] ∧
  ∀ fuel, consumeSinksWithLocations fuel [1; 2; 3]
            (addNewEdges [(2, 1); (3, 2); (1, 3)] empty_graph) = None.
Proof.
  split; [by vm_compute|].
  apply (consumeSinksWithLocations_runs_forever [1; 2; 3]
           (addNewEdges [(2, 1); (3, 2); (1, 3)] empty_graph)).
  - intros [|[|[|q]]] Hq; vm_compute in Hq; try lia;
      (split; [by vm_compute|vm_compute; repeat constructor]).
  - by vm_compute.
  - vm_compute. repeat constructor.
  - intros [|[|[|q]]] Hq; vm_compute in Hq; try lia; vm_compute; set_solver.
Defined.

Lemma elem_of_foldl_push_iff (ps ss : list nat) (x : nat) :
  x ∈ foldl push_sink_once ss ps ↔ x ∈ ss ∨ x ∈ ps.
Proof.
  revert ss. induction ps as [|p ps IH]; intros ss; cbn.
  - split; [by left|]. intros [?|Hx]; [done|]. by apply elem_of_nil in Hx.
  - rewrite IH. unfold push_sink_once. case_decide; set_solver.
Qed.

Lemma elem_of_delete_NoDup (ss : list nat) (pos q x : nat) :
  NoDup ss → ss !! pos = Some q →
  x ∈ delete pos ss ↔ x ∈ ss ∧ x ≠ q.
Proof.
  intros Hnd Hq.
  rewrite <- (take_drop_middle ss pos q Hq) in Hnd.
  apply NoDup_app in Hnd as (_ & Hfront & Hback).
  apply NoDup_cons in Hback as [Hback _].
  rewrite delete_take_drop.
  rewrite <- (take_drop_middle ss pos q Hq) at 3.
  rewrite !elem_of_app, elem_of_cons. split.
  - intros [Hx|Hx].
    + split; [by left|]. intros ->. apply (Hfront q Hx). by left.
    + split; [by right; right|]. by intros ->.
  - intros [[Hx|[->|Hx]] Hne]; [by left|done|by right].
Qed.

Lemma find_sink_from_first (g : LocationGraph) (l : nat) (ss : list nat) :
  ∀ i pos, find_sink_from g i l ss = Some pos →
           ∀ k p, k < pos - i → ss !! k = Some p → getLocation (node_at g p) ≠ l.
Proof.
  induction ss as [|s ss IH]; intros i pos; [done|].
  cbn. case_decide as Hs.
  - intros [= <-] k p Hk. lia.
  - intros Hfind [|k] p Hk Hp.
    + by injection Hp as <-.
    + apply find_sink_from_Some in Hfind as Hpos. destruct Hpos as (_ & Hle & _).
      apply (IH _ _ Hfind k p); [lia|done].
Qed.

Lemma prefix_foldl_push (ps ss : list nat) : ss `prefix_of` foldl push_sink_once ss ps.
Proof.
  revert ss. induction ps as [|p ps IH]; intros ss; [done|].
  cbn. etrans; [|apply IH]. unfold push_sink_once.
  case_decide; [done|by apply prefix_app_r].
Qed.

(** X9.  Consuming a location that some sink carries erases the first sink
    with that location, wherever later sinks carry it too, and makes the
    parents of that node sinks: the nodes stay as they are, the other
    sinks keep their order at the front of the vector, the sinks are
    afterwards the other sinks together with the parents of the consumed
    node, and no sink is listed twice. *)
Theorem consumeSinkNode_promotes_the_parents (l : nat) (g : LocationGraph) :
  NoDup (sinks g) →
  l ∈ getSinkLocations g →
  ∃ pos q,
    sinks g !! pos = Some q ∧ getLocation (node_at g q) = l ∧
    (∀ i p, i < pos → sinks g !! i = Some p → getLocation (node_at g p) ≠ l) ∧
    allNodes (consumeSinkNode l g) = allNodes g ∧
    delete pos (sinks g) `prefix_of` sinks (consumeSinkNode l g) ∧
    NoDup (sinks (consumeSinkNode l g)) ∧
    ∀ p, p ∈ sinks (consumeSinkNode l g) ↔
         (p ∈ sinks g ∧ p ≠ q) ∨ p ∈ getParents (node_at g q).
Proof.
  intros Hnd (q0 & Hq0 & Hl0)%elem_of_getSinkLocations.
  destruct (find_sink_from_is_Some g l 0 q0 (sinks g) Hq0 Hl0) as [pos Hfind].
  unfold consumeSinkNode. rewrite Hfind.
  pose proof (find_sink_from_first g l (sinks g) 0 pos Hfind) as Hfirst.
  apply find_sink_from_Some in Hfind as (q & _ & Hq & Hl).
  rewrite Nat.sub_0_r in Hq, Hfirst. rewrite Hq.
  change (default 0 (Some q)) with q.
  exists pos, q. split; [done|]. split; [done|]. split; [done|].
  split; [done|]. cbn [sinks]. split; [apply prefix_foldl_push|]. split.
  - apply foldl_push_NoDup.
    rewrite delete_take_drop.
    rewrite <- (take_drop_middle (sinks g) pos q Hq) in Hnd.
    apply NoDup_app in Hnd as (Hfront & Hdisj & Hback).
    apply NoDup_cons in Hback as [_ Hback].
    apply NoDup_app. split; [done|]. split; [|done].
    intros x Hx Hx'. apply (Hdisj x Hx). by right.
  - intros p. by rewrite elem_of_foldl_push_iff, elem_of_delete_NoDup.
Qed.

(** Two sinks with the location 9: the edges from 9 to 1 and from 9 to 2
    give 9 two nodes, the first of which gets a parent by the edge from 7
    to 9; consuming 1 and 2 makes both nodes of 9 sinks.  Consuming 9
    erases the first of them and promotes its parent. *)
Lemma consumeSinkNode_promotes_the_parents_witness :
  let g := foldl run_op empty_graph
             [OpEdge 9 1; OpEdge 9 2; OpEdge 7 9; OpConsume 1; OpConsume 2] in
  sinks g = [0; 2] ∧ sinks (consumeSinkNode 9 g) = [2; 4] ∧
  ∃ pos q,
    sinks g !! pos = Some q ∧ getLocation (node_at g q) = 9 ∧
    (∀ i p, i < pos → sinks g !! i = Some p → getLocation (node_at g p) ≠ 9) ∧
    allNodes (consumeSinkNode 9 g) = allNodes g ∧
    delete pos (sinks g) `prefix_of` sinks (consumeSinkNode 9 g) ∧
    NoDup (sinks (consumeSinkNode 9 g)) ∧
    ∀ p, p ∈ sinks (consumeSinkNode 9 g) ↔
         (p ∈ sinks g ∧ p ≠ q) ∨ p ∈ getParents (node_at g q).
Proof.
  intros g. split; [by vm_compute|]. split; [by vm_compute|].
  apply (consumeSinkNode_promotes_the_parents 9 g).
  - replace (sinks g) with [0; 2] by (by vm_compute).
    apply NoDup_cons. split; [|apply NoDup_singleton].
    by intros ?%list_elem_of_singleton.
  - apply elem_of_getSinkLocations. exists 0.
    replace (sinks g) with [0; 2] by (by vm_compute).
    split; [by left|by vm_compute].
Defined.

End GraphFacts.

(** ** The dependency engine *)

Module DepFacts.
Import Graph GraphFacts Dep.

(** Induction along the chain of frames, outermost frame first. *)
Lemma Dependency_chain_ind (P : Dependency → Prop) :
  (∀ f, P (mkDependency f None)) →
  (∀ f p, P p → P (mkDependency f (Some p))) →
  ∀ d, P d.
Proof.
  intros Hroot Hchild. fix IH 1.
  intros [f [p|]]; [apply Hchild, IH | apply Hroot].
Qed.

Lemma stores_at_most_one (d : Dependency) (loc : nat) : length (stores d loc) ≤ 1.
Proof.
  induction d as [f|f p IH] using Dependency_chain_ind; cbn;
    destruct (storesMap f !! loc); cbn; lia.
Qed.

Lemma storesMap_updateStore (location value : nat) (f : Frame) :
  storesMap (updateStore location value f) = <[location := value]> (storesMap f).
Proof.
  unfold updateStore, map_insert_new. cbn.
  by destruct (storesMap f !! location).
Qed.

(** C4.  After [updateStore(L, V1)] and then [updateStore(L, V2)] on a
    frame, [stores(L)] is the one-element list [V2], whatever the frame
    held before and whatever its ancestors hold; the store map has the one
    entry [V2] for [L], and [stores] never returns more than one value. *)
Theorem updateStore_twice_keeps_last
    (f : Frame) (parent : option Dependency) (L V1 V2 : nat) :
  let d := mkDependency (updateStore L V2 (updateStore L V1 f)) parent in
  stores d L = [V2] ∧
  storesMap (frame d) !! L = Some V2 ∧
  (∀ d' loc, length (stores d' loc) ≤ 1).
Proof.
  intros d. subst d. cbn [stores frame].
  rewrite !storesMap_updateStore, lookup_insert_eq.
  split; [done|]. split; [done|]. apply stores_at_most_one.
Qed.

(** *** [allFlowSources] *)

Lemma elem_of_unique_from (prev x : nat) (l : list nat) :
  x ∈ unique_from prev l → x ∈ l.
Proof.
  revert prev. induction l as [|y l IH]; intros prev; cbn; [done|].
  case_decide; [intros ?%IH; set_solver|].
  intros [->|?%IH]%elem_of_cons; set_solver.
Qed.

Lemma elem_of_unique_from_2 (prev x : nat) (l : list nat) :
  x ∈ l → x = prev ∨ x ∈ unique_from prev l.
Proof.
  revert prev. induction l as [|y l IH]; intros prev; [by intros ?%elem_of_nil|].
  cbn. intros [->|Hx]%elem_of_cons.
  - case_decide; [by left|right; set_solver].
  - case_decide.
    + by apply IH.
    + destruct (IH y Hx) as [->|?]; right; set_solver.
Qed.

Lemma elem_of_unique_prefix (x : nat) (l : list nat) :
  x ∈ unique_prefix l ↔ x ∈ l.
Proof.
  destruct l as [|y l]; [done|]. cbn. split.
  - intros [->|?%elem_of_unique_from]%elem_of_cons; set_solver.
  - intros [->|Hx]%elem_of_cons; [set_solver|].
    destruct (elem_of_unique_from_2 y x l Hx) as [->|?]; set_solver.
Qed.

Lemma length_unique_from (prev : nat) (l : list nat) :
  length (unique_from prev l) ≤ length l.
Proof.
  revert prev. induction l as [|y l IH]; intros prev; cbn; [done|].
  case_decide; cbn; [specialize (IH prev) | specialize (IH y)]; lia.
Qed.

Lemma length_unique_prefix (l : list nat) : length (unique_prefix l) ≤ length l.
Proof.
  destruct l as [|y l]; [done|]. cbn. pose proof (length_unique_from y l). lia.
Qed.

(** [std::unique] without [erase] leaves the vector as long as it was. *)
Lemma length_std_unique (l : list nat) : length (std_unique l) = length l.
Proof.
  unfold std_unique. rewrite length_app, length_drop.
  pose proof (length_unique_prefix l). lia.
Qed.

Lemma elem_of_std_unique (x : nat) (l : list nat) : x ∈ std_unique l ↔ x ∈ l.
Proof.
  unfold std_unique. rewrite elem_of_app, elem_of_unique_prefix. split.
  - intros [?|Hx]; [done|]. by apply (subseteq_drop (length (unique_prefix l)) l).
  - by left.
Qed.

(** A list with a repeated element cannot be rearranged, at the same
    length and over the same elements, into one without. *)
Lemma duplicates_stay (l l' : list nat) :
  ¬ NoDup l → length l' = length l → (∀ x, x ∈ l' → x ∈ l) → ¬ NoDup l'.
Proof.
  intros Hdup Hlen Hsub Hnodup. apply Hdup.
  assert (l' ⊆+ l) as Hms.
  { trans (remove_dups l).
    - apply NoDup_submseteq; [done|]. intros x Hx. by apply elem_of_remove_dups, Hsub.
    - apply NoDup_submseteq; [apply NoDup_remove_dups|].
      intros x. by rewrite elem_of_remove_dups. }
  apply submseteq_length_Permutation in Hms; [|lia].
  by rewrite <- Hms.
Qed.

Lemma std_unique_keeps_duplicates (l : list nat) : ¬ NoDup l → ¬ NoDup (std_unique l).
Proof.
  intros Hdup. apply (duplicates_stay l); [done|apply length_std_unique|].
  intros x. by rewrite elem_of_std_unique.
Qed.

Lemma elem_of_std_sort (x : nat) (l : list nat) : x ∈ std_sort l ↔ x ∈ l.
Proof. unfold std_sort. by rewrite merge_sort_Permutation. Qed.

Lemma NoDup_std_sort (l : list nat) : NoDup (std_sort l) ↔ NoDup l.
Proof. unfold std_sort. by rewrite merge_sort_Permutation. Qed.

Lemma allFlowSources_unfold (fuel : nat) (d : Dependency) (target : nat) :
  allFlowSources (S fuel) d target =
    ret ← gather fuel d (Some (directFlowSources d target)) (directFlowSources d target);
    Some (std_unique (std_sort (ret ++ [target]))).
Proof. done. Qed.

Lemma gather_None (fuel : nat) (d : Dependency) (steps : list nat) :
  gather fuel d None steps = None.
Proof. induction steps as [|s steps IH]; [done|]. cbn. apply IH. Qed.

Lemma gather_suffix (fuel : nat) (d : Dependency) (steps init ret : list nat) :
  gather fuel d (Some init) steps = Some ret → ∃ front, ret = front ++ init.
Proof.
  revert init. induction steps as [|s steps IH]; intros init.
  - cbn. intros [= <-]. by exists [].
  - cbn. destruct (allFlowSources fuel d s) as [src|]; cbn.
    + intros (front & ->)%IH. exists (front ++ src). by rewrite <- (assoc_L (++)).
    + fold (gather fuel d None steps). by rewrite gather_None.
Qed.

Lemma allFlowSources_has_target (fuel : nat) (d : Dependency) (target : nat) (r : list nat) :
  allFlowSources fuel d target = Some r → target ∈ r.
Proof.
  destruct fuel as [|fuel]; [done|]. rewrite allFlowSources_unfold.
  destruct (gather _ _ _ _) as [ret|]; [|done]. cbn. intros [= <-].
  apply elem_of_std_unique, elem_of_std_sort. set_solver.
Qed.

(** C5.  Whenever the target has a direct flow source, the vector
    [allFlowSources] returns holds some value twice: every step source is
    put into [ret] directly and once more as the target of its own
    recursive call, and [std::unique], whose result is dropped, leaves
    the vector at its full length. *)
Theorem allFlowSources_returns_duplicates
    (fuel : nat) (d : Dependency) (target : nat) (r : list nat) :
  allFlowSources fuel d target = Some r →
  directFlowSources d target ≠ [] →
  length (directFlowSources d target) < length r ∧ ¬ NoDup r.
Proof.
  destruct fuel as [|fuel]; [done|]. rewrite allFlowSources_unfold.
  destruct (directFlowSources d target) as [|s steps] eqn:Hsteps; [done|].
  intros Hrun _.
  destruct (gather fuel d (Some (s :: steps)) (s :: steps)) as [ret|] eqn:Hret; [|done].
  cbn in Hrun. injection Hrun as <-.
  cbn in Hret.
  destruct (allFlowSources fuel d s) as [src|] eqn:Hsrc; cbn in Hret;
    [|fold (gather fuel d None steps) in Hret; by rewrite gather_None in Hret].
  fold (gather fuel d (Some (src ++ s :: steps)) steps) in Hret.
  apply gather_suffix in Hret as (front & ->).
  apply allFlowSources_has_target in Hsrc.
  split.
  - rewrite length_std_unique. unfold std_sort.
    rewrite merge_sort_Permutation, !length_app. cbn. lia.
  - apply std_unique_keeps_duplicates. rewrite NoDup_std_sort.
    intros Hnd. apply NoDup_app in Hnd as (Hnd & _ & _).
    apply NoDup_app in Hnd as (_ & _ & Hnd).
    apply NoDup_app in Hnd as (_ & Hdisj & _).
    apply (Hdisj s Hsrc). set_solver.
Qed.

(** The target 10 with the single source 20: the result is [10; 20; 20]. *)
Lemma allFlowSources_returns_duplicates_witness :
  allFlowSources 2 flow_example 10 = Some [10; 20; 20] ∧
  length (directFlowSources flow_example 10) < length [10; 20; 20] ∧
  ¬ NoDup [10; 20; 20].
Proof.
  split; [by vm_compute|].
  apply (allFlowSources_returns_duplicates 2 flow_example 10 [10; 20; 20]).
  - by vm_compute.
  - intros H. vm_compute in H. discriminate H.
Defined.

Section Binding.
Variable ir : nat → llvmValue.

Lemma extends_refl h : extends h h.
Proof. exists []. by rewrite app_nil_r. Qed.

Lemma extends_trans h1 h2 h3 : extends h1 h2 → extends h2 h3 → extends h1 h3.
Proof. intros [e1 H1] [e2 H2]. exists (e1 ++ e2). by rewrite H2, H1, (assoc_L (++)). Qed.

Lemma extends_length h h' : extends h h' → length (values h) ≤ length (values h').
Proof. intros [ext ->]. rewrite length_app. lia. Qed.

Lemma value_at_extends h h' p o :
  extends h h' → value_at h p = Some o → value_at h' p = Some o.
Proof.
  intros [ext Hext]. destruct p as [|i]; [done|]. cbn. rewrite Hext.
  intros Hi. by apply lookup_app_l_Some.
Qed.

Lemma value_of_extends h h' p v :
  extends h h' → value_of h p = Some v → value_of h' p = Some v.
Proof.
  unfold value_of. intros Hext. destruct (value_at h p) as [o|] eqn:Ho; [|done].
  by rewrite (value_at_extends _ _ _ _ Hext Ho).
Qed.

Lemma expression_of_extends h h' p v :
  extends h h' → value_of h p = Some v → expression_of h' p = expression_of h p.
Proof.
  unfold value_of, expression_of. intros Hext.
  destruct (value_at h p) as [o|] eqn:Ho; [|done].
  by rewrite (value_at_extends _ _ _ _ Hext Ho).
Qed.

Lemma value_at_allocated h p o : value_at h p = Some o → p ≠ 0 ∧ p ≤ length (values h).
Proof.
  destruct p as [|i]; [done|]. cbn. intros Hi%lookup_lt_Some. lia.
Qed.

Lemma frame_versions_ok_extends h h' f :
  extends h h' → frame_versions_ok h f → frame_versions_ok h' f.
Proof. intros Hext Hok v l p Hv Hp. eapply value_of_extends; eauto. Qed.

Lemma frame_flows_ok_extends h h' f :
  extends h h' → frame_flows_ok h f → frame_flows_ok h' f.
Proof.
  intros Hext Hok k Hk. apply Hok in Hk. apply extends_length in Hext. lia.
Qed.

Lemma lookup_map_push_back (k x k' : nat) (m : gmap nat (list nat)) :
  map_push_back k x m !! k' =
    if decide (k = k') then Some (default [] (m !! k) ++ [x]) else m !! k'.
Proof.
  unfold map_push_back. destruct (m !! k) as [l|] eqn:Hk; case_decide; subst;
    by rewrite ?lookup_insert_eq, ?lookup_insert_ne.
Qed.

(** What [getNewVersionedValue] does to the frame and the heap. *)
Lemma getNewVersionedValue_spec value valueExpr f h :
  ∃ f' h',
    getNewVersionedValue value valueExpr f h = (S (length (values h)), f', h') ∧
    values h' = values h ++ [mkVersionedValue value valueExpr false] ∧
    flowsToMap f' = flowsToMap f ∧
    argumentValuesList f' = argumentValuesList f ∧
    (frame_versions_ok h f → frame_versions_ok h' f').
Proof.
  eexists _, _. split; [done|]. cbn. repeat (split; [done|]).
  intros Hok v l p. cbn. rewrite lookup_map_push_back.
  assert (extends h (mkHeap (values h ++ [mkVersionedValue value valueExpr false])
                            (locations h))) as Hext by by eexists.
  case_decide as Hv.
  - subst v. intros [= <-] [Hp| ->%list_elem_of_singleton]%elem_of_app.
    + destruct (valuesMap f !! value) as [l0|] eqn:Hl0; [|by apply elem_of_nil in Hp].
      eapply value_of_extends; [done|]. by eapply Hok.
    + unfold value_of. cbn. by rewrite lookup_app_r, Nat.sub_diag by done.
  - intros Hl Hp. eapply value_of_extends; [done|]. by eapply Hok.
Qed.


Lemma Dependency_parent_ind (P : Dependency → Prop) :
  (∀ f parent, (∀ p, parent = Some p → P p) → P (mkDependency f parent)) →
  ∀ d, P d.
Proof.
  intros Hstep. fix IH 1. intros [f [q|]]; apply Hstep.
  - intros p Hp. replace p with q by congruence. apply IH.
  - intros p Hp. discriminate Hp.
Qed.

Lemma frame_versions_ok_same h h' f f' :
  valuesMap f' = valuesMap f → values h' = values h →
  frame_versions_ok h f → frame_versions_ok h' f'.
Proof.
  intros Hm Hv Hok v l p. rewrite Hm. unfold value_of, value_at. rewrite Hv.
  apply Hok.
Qed.

Lemma frame_versions_ok_new h h' f f' value valueExpr :
  valuesMap f' = map_push_back value (S (length (values h))) (valuesMap f) →
  values h' = values h ++ [mkVersionedValue value valueExpr false] →
  frame_versions_ok h f → frame_versions_ok h' f'.
Proof.
  intros Hm Hv Hok v l p. rewrite Hm, lookup_map_push_back.
  assert (extends h h') as Hext by by eexists.
  case_decide as Hcase.
  - subst v. intros [= <-] [Hp| ->%list_elem_of_singleton]%elem_of_app.
    + destruct (valuesMap f !! value) as [l0|] eqn:Hl0; [|by apply elem_of_nil in Hp].
      eapply value_of_extends; [done|]. by eapply Hok.
    + unfold value_of. cbn. by rewrite Hv, lookup_app_r, Nat.sub_diag by done.
  - intros Hl Hp. eapply value_of_extends; [done|]. by eapply Hok.
Qed.

Lemma value_of_new h h' value valueExpr :
  values h' = values h ++ [mkVersionedValue value valueExpr false] →
  value_of h' (S (length (values h))) = Some value.
Proof.
  intros Hv. unfold value_of. cbn. by rewrite Hv, lookup_app_r, Nat.sub_diag by done.
Qed.

(** The branches of [getLatestValue] that register a new version in the
    current frame, over the heap [h0]. *)
Ltac new_version_tail h0 :=
  cbn [frames fmap list_fmap flowsToMap addPointerEquality set_equalityMap
       set_versionedLocationsList set_valuesMap];
  split; [done|];
  split;
  [ apply Forall_cons; split;
    [ eapply (frame_versions_ok_new h0); [reflexivity|reflexivity|done]
    | eapply Forall_impl; [eassumption|];
      intros ?; apply frame_versions_ok_extends; by eexists ]
  | right; by eapply (value_of_new h0) ].

Ltac new_version_branch :=
  match goal with
  | |- extends ?h0 _ ∧ _ => split; [by eexists|]; new_version_tail h0
  end.

(** [getLatestValue] only adds to the heap, leaves the flow maps alone,
    keeps the version lists sound, and returns null or a versioned value
    of the value asked for. *)
Lemma getLatestValue_spec (d : Dependency) :
  ∀ h value valueExpr,
    Forall (frame_versions_ok h) (frames d) →
    ∃ r d' h',
      getLatestValue ir d h value valueExpr = (r, d', h') ∧
      extends h h' ∧
      flowsToMap <$> frames d' = flowsToMap <$> frames d ∧
      Forall (frame_versions_ok h') (frames d') ∧
      (r = 0 ∨ value_of h' r = Some value).
Proof.
  induction d as [f parent IH] using Dependency_parent_ind.
  intros h value valueExpr Hok.
  cbn [frames] in Hok. apply Forall_cons in Hok as [Hf Hparent].
  cbn [getLatestValue].
  destruct (isa_ConstantExpr_GEP (kind (ir value))).
  { eexists _, _, _. split; [reflexivity|]. new_version_branch. }
  destruct (isa_Constant (kind (ir value)) && negb (isa_GlobalValue (kind (ir value)))).
  { eexists _, _, _. split; [reflexivity|]. new_version_branch. }
  destruct (valuesMap f !! value) as [versions|] eqn:Hversions.
  { eexists _, _, _. split; [done|]. split; [apply extends_refl|].
    split; [done|]. split; [by apply Forall_cons|].
    destruct (last versions) as [p|] eqn:Hlast; [|by left]. right. cbn.
    eapply Hf; [done|]. apply last_Some in Hlast as [l' ->]. set_solver. }
  assert (∃ r parent' h1,
            match parent with
            | Some p =>
                let '(r, p', h') := getLatestValue ir p h value valueExpr in
                (r, Some p', h')
            | None => (0, None, h)
            end = (r, parent', h1) ∧
            extends h h1 ∧
            flowsToMap <$> frames (mkDependency f parent')
              = flowsToMap <$> frames (mkDependency f parent) ∧
            Forall (frame_versions_ok h1) (frames (mkDependency f parent')) ∧
            (r = 0 ∨ value_of h1 r = Some value)) as (r & parent' & h1 & -> & Hext & Hflows & Hok1 & Hr).
  { destruct parent as [p|].
    - destruct (IH p eq_refl h value valueExpr Hparent)
        as (r & p' & h1 & -> & Hext & Hflows & Hok1 & Hr).
      eexists _, _, _. split; [done|]. split; [done|].
      cbn [frames fmap list_fmap]. rewrite Hflows. split; [done|]. split; [|done].
      apply Forall_cons. split; [|done]. by eapply frame_versions_ok_extends.
    - eexists _, _, _. split; [done|]. split; [apply extends_refl|].
      split; [done|]. split; [by apply Forall_cons|]. by left. }
  cbn [frames] in Hok1. apply Forall_cons in Hok1 as [Hf1 Hparent1].
  cbn [frames fmap list_fmap] in Hflows. injection Hflows as Hflows.
  destruct (bool_decide (r = 0) && isa_GlobalValue (kind (ir value))).
  - destruct (isPointerTy (ir value)).
    + eexists _, _, _. split; [reflexivity|].
      split; [eapply extends_trans; [done|by eexists]|].
      cbn [frames fmap list_fmap flowsToMap addPointerEquality set_equalityMap
           set_versionedLocationsList set_valuesMap].
      rewrite Hflows. new_version_tail h1.
    + eexists _, _, _. split; [reflexivity|].
      split; [eapply extends_trans; [done|by eexists]|].
      cbn [frames fmap list_fmap flowsToMap addPointerEquality set_equalityMap
           set_versionedLocationsList set_valuesMap].
      rewrite Hflows. new_version_tail h1.
  - eexists _, _, _. split; [done|]. split; [done|].
    cbn [frames fmap list_fmap]. rewrite Hflows. split; [done|].
    split; [by apply Forall_cons|done].
Qed.


Lemma getLatestValue_non_constant (d : Dependency) (h : Heap) (value : nat) (valueExpr : ref) :
  isa_Constant (kind (ir value)) = false →
  getLatestValue ir d h value valueExpr = (getLatestValueNoConstantCheck d value, d, h).
Proof.
  intros Hkind.
  assert (isa_ConstantExpr_GEP (kind (ir value)) = false) as Hgep
    by (by destruct (kind (ir value))).
  assert (isa_GlobalValue (kind (ir value)) = false) as Hglobal
    by (by destruct (kind (ir value))).
  induction d as [f|f p IH] using Dependency_chain_ind;
    cbn [getLatestValue getLatestValueNoConstantCheck];
    rewrite Hgep, Hkind, ?Hglobal; cbn [andb];
    destruct (valuesMap f !! value) as [versions|]; try done.
  rewrite IH. cbn. by rewrite andb_false_r.
Qed.

(** A value that is not a constant other than a global, and of which the
    chain has a version, is looked up without any change. *)
Lemma getLatestValue_known (d : Dependency) (h : Heap) (value : nat) (valueExpr : ref) :
  isa_Constant (kind (ir value)) && negb (isa_GlobalValue (kind (ir value))) = false →
  getLatestValueNoConstantCheck d value ≠ 0 →
  getLatestValue ir d h value valueExpr = (getLatestValueNoConstantCheck d value, d, h).
Proof.
  intros Hkind.
  assert (isa_ConstantExpr_GEP (kind (ir value)) = false) as Hgep
    by (by destruct (kind (ir value))).
  induction d as [f|f p IH] using Dependency_chain_ind;
    cbn [getLatestValue getLatestValueNoConstantCheck];
    rewrite Hgep, Hkind;
    destruct (valuesMap f !! value) as [versions|]; try done.
  intros Hlatest. rewrite (IH Hlatest). cbn.
  by rewrite bool_decide_eq_false_2.
Qed.

(** Looking up one value leaves the latest version of every other value
    as it is. *)
Lemma getLatestValue_other_key (a value : nat) (valueExpr : ref) (d : Dependency) :
  a ≠ value →
  ∀ h r d' h',
    getLatestValue ir d h value valueExpr = (r, d', h') →
    getLatestValueNoConstantCheck d' a = getLatestValueNoConstantCheck d a.
Proof.
  intros Hne.
  assert (∀ x m, map_push_back value x m !! a = m !! a) as Hpush.
  { intros x m. by rewrite lookup_map_push_back, decide_False. }
  induction d as [f|f p IH] using Dependency_chain_ind; intros h r d' h';
    cbn [getLatestValue].
  - destruct (isa_ConstantExpr_GEP (kind (ir value))).
    { intros [= <- <- <-]. cbn. by rewrite Hpush. }
    destruct (isa_Constant (kind (ir value)) && negb (isa_GlobalValue (kind (ir value)))).
    { intros [= <- <- <-]. cbn. by rewrite Hpush. }
    destruct (valuesMap f !! value); [by intros [= <- <- <-]|].
    destruct (bool_decide (0 = 0) && isa_GlobalValue (kind (ir value)));
      [|by intros [= <- <- <-]].
    destruct (isPointerTy (ir value)); intros [= <- <- <-]; cbn; by rewrite Hpush.
  - destruct (isa_ConstantExpr_GEP (kind (ir value))).
    { intros [= <- <- <-]. cbn. by rewrite Hpush. }
    destruct (isa_Constant (kind (ir value)) && negb (isa_GlobalValue (kind (ir value)))).
    { intros [= <- <- <-]. cbn. by rewrite Hpush. }
    destruct (valuesMap f !! value); [by intros [= <- <- <-]|].
    destruct (getLatestValue ir p h value valueExpr) as [[r1 p1] h1] eqn:Hp.
    specialize (IH _ _ _ _ Hp).
    destruct (bool_decide (r1 = 0) && isa_GlobalValue (kind (ir value))).
    + destruct (isPointerTy (ir value)); intros [= <- <- <-]; cbn;
        by rewrite Hpush, IH.
    + intros [= <- <- <-]. cbn. by rewrite IH.
Qed.

Lemma value_at_None_extends h h' p :
  extends h h' → value_at h' p = None → value_at h p = None.
Proof.
  intros Hext Hnone. destruct (value_at h p) as [o|] eqn:Ho; [|done].
  by rewrite (value_at_extends _ _ _ _ Hext Ho) in Hnone.
Qed.

(** The loop of [populateArgumentValuesList] appends one versioned value
    per operand below [i], the one for operand [i - 1] first: the latest
    version of the operand where the chain has one, a new object where it
    has none. *)
Lemma populate_loop_spec (operands : list nat) (arguments : list ref) (i : nat) :
  ∀ acc d h,
    i ≤ length operands → i ≤ length arguments →
    Forall (frame_versions_ok h) (frames d) →
    ∃ bs d' h',
      populate_loop ir i operands arguments acc d h = Some (acc ++ bs, d', h') ∧
      length bs = i ∧
      extends h h' ∧
      flowsToMap <$> frames d' = flowsToMap <$> frames d ∧
      Forall (frame_versions_ok h') (frames d') ∧
      ∀ j a, j < i → operands !! j = Some a →
             ∃ b, bs !! (i - 1 - j) = Some b ∧ b ≠ 0 ∧ value_of h' b = Some a ∧
                  (isa_Constant (kind (ir a)) && negb (isa_GlobalValue (kind (ir a))) = false →
                   getLatestValueNoConstantCheck d a ≠ 0 →
                   b = getLatestValueNoConstantCheck d a) ∧
                  (isa_Constant (kind (ir a)) = false →
                   getLatestValueNoConstantCheck d a = 0 → value_at h b = None).
Proof.
  induction i as [|i IH]; intros acc d h Hops Hargs Hok.
  { exists [], d, h. cbn. rewrite app_nil_r. split; [done|]. split; [done|].
    split; [apply extends_refl|]. split; [done|]. split; [done|]. intros; lia. }
  cbn [populate_loop].
  destruct (lookup_lt_is_Some_2 operands i) as [argOperand HargOperand]; [lia|].
  destruct (lookup_lt_is_Some_2 arguments i) as [argument Hargument]; [lia|].
  rewrite HargOperand, Hargument. cbn [mbind option_bind].
  destruct (getLatestValue_spec d h argOperand argument Hok)
    as (r & d1 & h1 & Hrun & Hext1 & Hflows1 & Hok1 & Hr).
  rewrite Hrun.
  assert (isa_Constant (kind (ir argOperand))
            && negb (isa_GlobalValue (kind (ir argOperand))) = false →
          getLatestValueNoConstantCheck d argOperand ≠ 0 →
          r = getLatestValueNoConstantCheck d argOperand ∧ d1 = d ∧ h1 = h) as Hknown.
  { intros Hkind Hlatest.
    rewrite (getLatestValue_known d h argOperand argument Hkind Hlatest) in Hrun.
    by injection Hrun as <- <- <-. }
  assert (isa_Constant (kind (ir argOperand)) = false →
          r = getLatestValueNoConstantCheck d argOperand ∧ d1 = d ∧ h1 = h) as Hplain.
  { intros Hkind.
    rewrite (getLatestValue_non_constant d h argOperand argument Hkind) in Hrun.
    by injection Hrun as <- <- <-. }
  assert (∀ a, (isa_Constant (kind (ir a)) && negb (isa_GlobalValue (kind (ir a))) = false ∧
                getLatestValueNoConstantCheck d a ≠ 0) ∨
               isa_Constant (kind (ir a)) = false →
               getLatestValueNoConstantCheck d1 a = getLatestValueNoConstantCheck d a)
    as Hstable.
  { intros a Ha. destruct (decide (a = argOperand)) as [->|Hne].
    - destruct Ha as [[Hkind Hlatest]|Hkind].
      + by destruct (Hknown Hkind Hlatest) as (_ & -> & _).
      + by destruct (Hplain Hkind) as (_ & -> & _).
    - by eapply getLatestValue_other_key. }
  assert (∃ b h2,
            (if bool_decide (r ≠ 0)
             then populate_loop ir i operands arguments (acc ++ [r]) d1 h1
             else let '(fresh, h'') := new_VersionedValue argOperand argument h1 in
                  populate_loop ir i operands arguments (acc ++ [fresh]) d1 h'')
            = populate_loop ir i operands arguments (acc ++ [b]) d1 h2 ∧
            extends h1 h2 ∧ b ≠ 0 ∧ value_of h2 b = Some argOperand ∧
            (isa_Constant (kind (ir argOperand))
               && negb (isa_GlobalValue (kind (ir argOperand))) = false →
             getLatestValueNoConstantCheck d argOperand ≠ 0 →
             b = getLatestValueNoConstantCheck d argOperand) ∧
            (isa_Constant (kind (ir argOperand)) = false →
             getLatestValueNoConstantCheck d argOperand = 0 → value_at h b = None))
    as (b & h2 & -> & Hext2 & Hb & Hvb & Hbknown & Hbnew).
  { case_bool_decide as Hr0.
    - exists r, h1. split; [done|]. split; [apply extends_refl|].
      split; [done|]. split; [by destruct Hr|]. split.
      + intros Hkind Hlatest. by destruct (Hknown Hkind Hlatest) as (-> & _).
      + intros Hkind Hlatest. destruct (Hplain Hkind) as (-> & _). done.
    - eexists _, _. split; [reflexivity|]. split; [by eexists|].
      split; [done|]. split; [by eapply value_of_new|]. split.
      + intros Hkind Hlatest. destruct (Hknown Hkind Hlatest) as (-> & _). done.
      + intros Hkind _. destruct (Hplain Hkind) as (_ & _ & ->).
        cbn. by apply lookup_ge_None_2. }
  destruct (IH (acc ++ [b]) d1 h2) as (bs & d' & h' & -> & Hlen & Hext & Hflows & Hok' & Hbs);
    [lia|lia| |].
  { eapply Forall_impl; [done|]. intros ?. by apply frame_versions_ok_extends. }
  exists (b :: bs), d', h'. rewrite <- (assoc_L (++)). split; [done|].
  split; [cbn; lia|].
  split; [eauto using extends_trans|].
  split; [by rewrite Hflows|]. split; [done|].
  intros j a Hj Ha. destruct (decide (j = i)) as [->|Hne].
  - replace (S i - 1 - i) with 0 by lia. exists b. split; [done|]. split; [done|].
    assert (a = argOperand) as -> by congruence.
    split; [by eapply value_of_extends|]. done.
  - destruct (Hbs j a) as (b' & Hb' & Hb0 & Hvb' & Hknown' & Hnew'); [lia|done|].
    exists b'. replace (S i - 1 - j) with (S (i - 1 - j)) by lia.
    split; [done|]. split; [done|]. split; [done|]. split.
    + intros Hkind Hlatest. rewrite <- (Hstable a) by (left; done).
      apply Hknown'; [done|]. by rewrite Hstable by (left; done).
    + intros Hkind Hlatest.
      apply (value_at_None_extends h h2); [by eapply extends_trans|].
      apply Hnew'; [done|]. by rewrite Hstable by (right; done).
Qed.


(** The loop of [bindCallArguments]: the formal at position [j] gets the
    next pointer but [j] as its fresh version, registered at the end of its
    list of versions, with the [j]-th bound value, counted from the end of
    the vector, as its one flow source. *)
Lemma bind_loop_spec (formals : list nat) :
  ∀ (bound front : list nat) (f : Frame) (h : Heap),
    length bound = length formals →
    argumentValuesList f = front ++ reverse bound →
    Forall (λ b, b ≠ 0 ∧ is_Some (value_of h b)) bound →
    frame_flows_ok h f →
    ∃ f' h',
      bind_loop formals f h = Some (f', h') ∧
      extends h h' ∧
      (∀ k, k ≤ length (values h) → flowsToMap f' !! k = flowsToMap f !! k) ∧
      (∀ v, ∃ l', default [] (valuesMap f' !! v) = default [] (valuesMap f !! v) ++ l' ∧
                  (v ∉ formals → l' = [])) ∧
      ∀ j p b, formals !! j = Some p → bound !! j = Some b →
        flowsToMap f' !! (S (length (values h) + j)) = Some {[b := 0]} ∧
        value_of h' (S (length (values h) + j)) = Some p ∧
        expression_of h' (S (length (values h) + j)) = expression_of h' b ∧
        S (length (values h) + j) ∈ default [] (valuesMap f' !! p) ∧
        ((∀ k, j < k → formals !! k ≠ Some p) →
         last (default [] (valuesMap f' !! p)) = Some (S (length (values h) + j))).
Proof.
  induction formals as [|p formals IH]; intros bound front f h Hlen Havl Hbound Hflows.
  { exists f, h. split; [done|]. split; [apply extends_refl|]. split; [done|].
    split; [intros v; exists []; by rewrite app_nil_r|].
    intros j p b Hj. by rewrite lookup_nil in Hj. }
  destruct bound as [|b bound]; [done|].
  apply Forall_cons in Hbound as [[Hb0 [a Hba]] Hbound].
  rewrite reverse_cons, (assoc_L (++)) in Havl.
  cbn [bind_loop]. rewrite Havl, last_snoc. cbn [mbind option_bind].
  rewrite bool_decide_true by done.
  unfold getNewVersionedValue, new_VersionedValue.
  cbn [addDependency addDependencyViaLocation set_valuesMap set_flowsToMap
       set_argumentValuesList flowsToMap argumentValuesList valuesMap].
  assert (flowsToMap f !! S (length (values h)) = None) as Hfresh.
  { destruct (flowsToMap f !! S (length (values h))) eqn:Hk; [|done].
    assert (S (length (values h)) ≤ length (values h)) by (apply Hflows; eauto). lia. }
  set (h1 := mkHeap (values h ++ [mkVersionedValue p (expression_of h b) false])
                    (locations h)).
  match goal with
  | |- ∃ f' h', bind_loop formals ?f2' h1 = _ ∧ _ => set (f2 := f2')
  end.
  assert (argumentValuesList f2 = front ++ reverse bound) as Havl2.
  { subst f2. cbn. rewrite Havl. apply removelast_last. }
  assert (flowsToMap f2 = <[S (length (values h)) := {[b := 0]}]> (flowsToMap f)) as Hfl2.
  { subst f2. cbn. rewrite Hfresh. unfold map_insert_new.
    by rewrite lookup_empty, insert_empty. }
  assert (valuesMap f2 = map_push_back p (S (length (values h))) (valuesMap f)) as Hvm2
    by done.
  assert (extends h h1) as Hext1 by by eexists.
  assert (length (values h1) = S (length (values h))) as Hlen1.
  { subst h1. cbn. rewrite length_app. cbn. lia. }
  destruct (IH bound front f2 h1) as (f' & h' & Hrun & Hext & Hsame & Hgrow & Hfresh').
  { by injection Hlen. }
  { done. }
  { eapply Forall_impl; [done|]. intros x [Hx [y Hy]]. split; [done|].
    exists y. by eapply value_of_extends. }
  { intros k. rewrite Hfl2, lookup_insert, Hlen1. case_decide as Hk.
    - intros _. lia.
    - intros Hsome. apply Hflows in Hsome. lia. }
  exists f', h'. split; [done|]. split; [by eapply extends_trans|].
  split.
  { intros k Hk. rewrite Hsame, Hfl2 by lia.
    rewrite lookup_insert_ne by lia. done. }
  split.
  { intros v. destruct (Hgrow v) as (l' & Hl' & Hnone).
    rewrite Hvm2, lookup_map_push_back in Hl'. case_decide as Hv.
    - subst v. exists ([S (length (values h))] ++ l').
      split; [rewrite Hl'; cbn; by rewrite <- (assoc_L (++))|]. intros Hnot. set_solver.
    - exists l'. split; [done|]. intros Hnot. apply Hnone. set_solver. }
  intros j q c Hq Hc. destruct j as [|j].
  - injection Hq as <-. injection Hc as <-. rewrite Nat.add_0_r.
    destruct (Hgrow p) as (l' & Hl' & Hnone).
    rewrite Hvm2, lookup_map_push_back, decide_True in Hl' by done. cbn in Hl'.
    split; [|split; [|split; [|split]]].
    + rewrite Hsame, Hfl2 by lia. by rewrite lookup_insert_eq.
    + eapply value_of_extends; [done|]. by eapply value_of_new.
    + assert (value_of h1 (S (length (values h))) = Some p) as Hvp
        by by eapply value_of_new.
      rewrite (expression_of_extends h1 h' _ p Hext Hvp).
      rewrite (expression_of_extends h h' b a) by (by eapply extends_trans || done).
      unfold expression_of, value_at. subst h1. cbn.
      by rewrite lookup_app_r, Nat.sub_diag by done.
    + rewrite Hl'. set_solver.
    + intros Hlater. rewrite Hl', Hnone, app_nil_r; [by rewrite last_snoc|].
      intros (k & Hk)%list_elem_of_lookup_1. by apply (Hlater (S k)); [lia|].
  - cbn in Hq, Hc. destruct (Hfresh' j q c Hq Hc) as (Hfl & Hv & He & Hin & Hlast).
    rewrite Hlen1 in Hfl, Hv, He, Hin, Hlast.
    replace (S (length (values h) + S j)) with (S (S (length (values h)) + j)) by lia.
    split; [done|]. split; [done|]. split; [done|]. split; [done|].
    intros Hlater. apply Hlast. intros k Hk. apply (Hlater (S k)). lia.
Qed.


Lemma frame_flows_ok_transfer h h' d d' :
  extends h h' →
  flowsToMap <$> frames d' = flowsToMap <$> frames d →
  Forall (frame_flows_ok h) (frames d) →
  Forall (frame_flows_ok h') (frames d').
Proof.
  intros Hext Heq Hok. apply Forall_lookup_2. intros i f' Hi.
  assert ((flowsToMap <$> frames d) !! i = Some (flowsToMap f')) as Hm
    by by rewrite <- Heq, list_lookup_fmap, Hi.
  rewrite list_lookup_fmap in Hm.
  destruct (frames d !! i) as [f|] eqn:Hf; [|done]. injection Hm as Hm.
  apply (frame_flows_ok_extends h h' f') ; [done|].
  intros k. rewrite <- Hm. by apply (Forall_lookup_1 _ _ _ _ Hok Hf).
Qed.

Lemma directFlowSources_no_edge (d : Dependency) (k : nat) :
  Forall (λ m : gmap nat (gmap nat nat), m !! k = None) (flowsToMap <$> frames d) →
  directFlowSources d k = [].
Proof.
  induction d as [f parent IH] using Dependency_parent_ind.
  cbn [frames fmap list_fmap directFlowSources].
  intros [Hf Hparent]%Forall_cons. unfold directLocalFlowSources. rewrite Hf.
  destruct parent as [p|]; [|done]. by rewrite (IH p eq_refl Hparent).
Qed.

Lemma keys_in_order_singleton (b v : nat) :
  keys_in_order ({[b := v]} : gmap nat nat) = [b].
Proof. unfold keys_in_order. by rewrite dom_singleton_L, elements_singleton. Qed.

Lemma frames_parent (d : Dependency) :
  frames d = frame d :: match parentDependency d with
                        | Some p => frames p
                        | None => []
                        end.
Proof. by destruct d. Qed.

(** C6.  On a well-formed chain of frames, for a call whose callee is
    known and has no more formal parameters than the call has operands
    and argument expressions: [populateArgumentValuesList] returns one
    versioned value per formal parameter, that of operand [i] at position
    [n - 1 - i] (the vector is built from the last operand to the first).
    The value bound for an operand is the latest version the chain has of
    it (for an operand that is no constant, or a global value), and a new
    object where an operand that is no constant has no version.  After
    [bindCallArguments] the formal parameter [i] has a versioned value
    that was not allocated before, is registered among the versions of the
    formal in the innermost frame (as the latest one, unless the formal is
    listed again further on), carries the expression of the value bound
    for operand [i], and has exactly that bound value, a versioned value of
    operand [i], as its direct flow sources. *)
Theorem bindCallArguments_binds_positionally
    (d : Dependency) (h : Heap) (callee : Function)
    (operands : list nat) (arguments : list ref) :
  length (getArgumentList callee) ≤ length operands →
  length (getArgumentList callee) ≤ length arguments →
  well_formed d h →
  ∃ argumentValues d1 h1 d' h',
    populateArgumentValuesList ir callee operands arguments d h
      = Some (argumentValues, d1, h1) ∧
    bindCallArguments ir (CallInst (Some callee) operands) arguments d h
      = Some (d', h') ∧
    length argumentValues = length (getArgumentList callee) ∧
    ∀ i p a,
      getArgumentList callee !! i = Some p → operands !! i = Some a →
      ∃ bound fresh,
        argumentValues !! (length (getArgumentList callee) - 1 - i) = Some bound ∧
        bound ≠ 0 ∧ value_of h' bound = Some a ∧
        (isa_Constant (kind (ir a)) && negb (isa_GlobalValue (kind (ir a))) = false →
         getLatestValueNoConstantCheck d a ≠ 0 →
         bound = getLatestValueNoConstantCheck d a) ∧
        (isa_Constant (kind (ir a)) = false →
         getLatestValueNoConstantCheck d a = 0 → value_at h bound = None) ∧
        value_at h fresh = None ∧ value_of h' fresh = Some p ∧
        expression_of h' fresh = expression_of h' bound ∧
        fresh ∈ default [] (valuesMap (frame d') !! p) ∧
        ((∀ j, i < j → getArgumentList callee !! j ≠ Some p) →
         getLatestValueNoConstantCheck d' p = fresh) ∧
        directFlowSources d' fresh = [bound].
Proof.
  intros Hops Hargs [Hversions Hflows].
  set (n := length (getArgumentList callee)) in *.
  destruct (populate_loop_spec operands arguments n [] d h Hops Hargs Hversions)
    as (bs & d1 & h1 & Hpop & Hlen & Hext1 & Hflows1 & Hversions1 & Hbs).
  rewrite app_nil_l in Hpop.
  assert (∀ k b, bs !! k = Some b → b ≠ 0 ∧ ∃ a, value_of h1 b = Some a) as Hall.
  { intros k b Hk. assert (k < n) as Hkn by (apply lookup_lt_Some in Hk; lia).
    destruct (lookup_lt_is_Some_2 operands (n - 1 - k)) as [a Ha]; [lia|].
    destruct (Hbs (n - 1 - k) a) as (b' & Hb' & Hb0 & Hvb & _); [lia|done|].
    replace (n - 1 - (n - 1 - k)) with k in Hb' by lia.
    assert (b' = b) as -> by congruence. eauto. }
  assert (Forall (frame_flows_ok h1) (frames d1)) as Hflows1'
    by by eapply frame_flows_ok_transfer.
  destruct (bind_loop_spec (getArgumentList callee) (reverse bs) []
              (set_argumentValuesList bs (frame d1)) h1)
    as (f2 & h2 & Hbind & Hext2 & Hsame & _ & Hfresh).
  { by rewrite length_reverse. }
  { by rewrite reverse_involutive. }
  { apply Forall_lookup_2. intros k b [Hk _]%reverse_lookup_Some.
    destruct (Hall _ _ Hk) as [? [a ?]]. eauto. }
  { rewrite frames_parent in Hflows1'. by apply Forall_cons in Hflows1' as [? _]. }
  exists bs, d1, h1, (mkDependency f2 (parentDependency d1)), h2.
  split; [done|]. split.
  { cbn [bindCallArguments]. unfold populateArgumentValuesList. fold n.
    rewrite Hpop. cbn [mbind option_bind]. by rewrite Hbind. }
  split; [done|].
  intros i p a Hp Ha.
  assert (i < n) as Hi by (apply lookup_lt_Some in Hp; done).
  destruct (Hbs i a Hi Ha) as (b & Hb & Hb0 & Hvb & Hknown & Hnew).
  assert (reverse bs !! i = Some b) as Hrev.
  { apply reverse_lookup_Some. split; [|lia].
    by replace (length bs - S i) with (n - 1 - i) by lia. }
  destruct (Hfresh i p b Hp Hrev) as (Hedge & Hvalue & Hexpr & Hin & Hlast).
  exists b, (S (length (values h1) + i)).
  split; [done|]. split; [done|].
  split; [by eapply value_of_extends|].
  split; [done|]. split; [done|].
  split.
  { cbn. apply lookup_ge_None_2. apply extends_length in Hext1. lia. }
  split; [done|]. split; [done|]. split; [done|].
  split.
  { intros Hlater. specialize (Hlast Hlater). cbn [frame] in Hin.
    cbn [getLatestValueNoConstantCheck].
    destruct (valuesMap f2 !! p) as [versions|]; [|by apply elem_of_nil in Hin].
    cbn in Hlast. by rewrite Hlast. }
  cbn [directFlowSources]. unfold directLocalFlowSources.
  rewrite Hedge, keys_in_order_singleton.
  destruct (parentDependency d1) as [p1|] eqn:Hparent1; [|done].
  rewrite directFlowSources_no_edge; [done|].
  rewrite !frames_parent, Hparent1 in Hflows1. cbn [fmap list_fmap] in Hflows1.
  injection Hflows1 as _ Hflows1. rewrite Hflows1.
  rewrite frames_parent in Hflows. apply Forall_cons in Hflows as [_ Hflows].
  apply Forall_lookup_2. intros j m Hm. rewrite list_lookup_fmap in Hm.
  destruct (_ !! j) as [f|] eqn:Hf in Hm; [|done]. injection Hm as <-.
  pose proof (Forall_lookup_1 _ _ _ _ Hflows Hf) as Hok.
  destruct (flowsToMap f !! S (length (values h1) + i)) eqn:Hk; [|done].
  assert (S (length (values h1) + i) ≤ length (values h)) by (apply Hok; eauto).
  apply extends_length in Hext1. lia.
Qed.

End Binding.

(** The call of [binding_chain]: the vector built is [2; 1], the fresh
    versions of the formals are the pointers 3 and 4, the first with the
    version 1 of operand 101 as its source, the second with the value 2
    made for operand 102. *)
Example binding_example_run :
  ∃ d' h',
    bindCallArguments binding_ir (CallInst (Some binding_callee) binding_operands)
      binding_arguments binding_chain binding_heap = Some (d', h') ∧
    value_of h' 3 = Some 201 ∧ directFlowSources d' 3 = [1] ∧ value_of h' 1 = Some 101 ∧
    value_of h' 4 = Some 202 ∧ directFlowSources d' 4 = [2] ∧ value_of h' 2 = Some 102.
Proof. eexists _, _. split; [by vm_compute|]. by vm_compute. Qed.

Lemma bindCallArguments_binds_positionally_witness :
  ∃ argumentValues d1 h1 d' h',
    populateArgumentValuesList binding_ir binding_callee binding_operands
      binding_arguments binding_chain binding_heap
      = Some (argumentValues, d1, h1) ∧
    bindCallArguments binding_ir (CallInst (Some binding_callee) binding_operands)
      binding_arguments binding_chain binding_heap
      = Some (d', h') ∧
    length argumentValues = length (getArgumentList binding_callee) ∧
    ∀ i p a,
      getArgumentList binding_callee !! i = Some p → binding_operands !! i = Some a →
      ∃ bound fresh,
        argumentValues !! (length (getArgumentList binding_callee) - 1 - i) = Some bound ∧
        bound ≠ 0 ∧ value_of h' bound = Some a ∧
        (isa_Constant (kind (binding_ir a))
           && negb (isa_GlobalValue (kind (binding_ir a))) = false →
         getLatestValueNoConstantCheck binding_chain a ≠ 0 →
         bound = getLatestValueNoConstantCheck binding_chain a) ∧
        (isa_Constant (kind (binding_ir a)) = false →
         getLatestValueNoConstantCheck binding_chain a = 0 →
         value_at binding_heap bound = None) ∧
        value_at binding_heap fresh = None ∧ value_of h' fresh = Some p ∧
        expression_of h' fresh = expression_of h' bound ∧
        fresh ∈ default [] (valuesMap (frame d') !! p) ∧
        ((∀ j, i < j → getArgumentList binding_callee !! j ≠ Some p) →
         getLatestValueNoConstantCheck d' p = fresh) ∧
        directFlowSources d' fresh = [bound].
Proof.
  apply (bindCallArguments_binds_positionally binding_ir binding_chain binding_heap
           binding_callee binding_operands binding_arguments).
  - cbn. lia.
  - cbn. lia.
  - split.
    + repeat apply Forall_cons_2; [| |apply Forall_nil_2].
      * intros v l p Hv. cbn in Hv. by rewrite lookup_empty in Hv.
      * intros v l p Hv. cbn in Hv. apply lookup_singleton_Some in Hv as [<- <-].
        intros ->%list_elem_of_singleton. reflexivity.
    + repeat apply Forall_cons_2; [| |apply Forall_nil_2];
        intros k [? Hk]; cbn in Hk; by rewrite lookup_empty in Hk.
Defined.

(** *** [computeCoreLocations] on a chain of two frames *)

Lemma computeCoreLocations_two_frames (fuel : nat) (child parent : Frame) (g : LocationGraph) :
  computeCoreLocations fuel (mkDependency child (Some (mkDependency parent None))) g =
    g1 ← consumeSinksWithLocations fuel (versionedLocationsList child) g;
    Some (mkDependency
            (set_coreLocations (coreLocations child ∪ getSinkLocations g) child)
            (Some (mkDependency
                     (set_coreLocations (coreLocations parent ∪ getSinkLocations g1) parent)
                     None)),
          g1).
Proof.
  cbn [computeCoreLocations].
  by destruct (consumeSinksWithLocations fuel (versionedLocationsList child) g).
Qed.

(** C2, as amended.  On a graph without parent cycle a run on the chain
    (child, parent) ends.  The child's core locations gain every location
    that is a sink when the run starts, whoever owns it; the parent's gain
    every location that is a sink once the child's own locations are
    stripped.  So a location the child does not own ends up in the
    parent's core locations whenever it is or becomes a sink, in the
    child's as well when it is a sink from the start, and in the parent's
    only when it becomes one by the stripping (and the child did not hold
    it before). *)
Theorem computeCoreLocations_child_takes_every_sink
    (child parent : Frame) (g : LocationGraph) (rank : nat → nat) :
  ranked g rank →
  ∃ fuel child' parent' g1,
    computeCoreLocations fuel (mkDependency child (Some (mkDependency parent None))) g
      = Some (mkDependency child' (Some (mkDependency parent' None)), g1) ∧
    consumeSinksWithLocations fuel (versionedLocationsList child) g = Some g1 ∧
    coreLocations child' = coreLocations child ∪ getSinkLocations g ∧
    coreLocations parent' = coreLocations parent ∪ getSinkLocations g1 ∧
    (∀ L, L ∈ getSinkLocations g → L ∉ versionedLocationsList child →
          L ∈ coreLocations child' ∧ L ∈ coreLocations parent') ∧
    (∀ L, L ∈ getSinkLocations g1 → L ∉ getSinkLocations g → L ∉ coreLocations child →
          L ∈ coreLocations parent' ∧ L ∉ coreLocations child').
Proof.
  intros Hranked.
  destruct (consumeSinksWithLocations_terminates rank (versionedLocationsList child)
              (S (weight (fanout g) rank (sinks g))) g Hranked ltac:(lia))
    as (g1 & Hrun & _).
  eexists _, _, _, g1. rewrite computeCoreLocations_two_frames, Hrun.
  split; [reflexivity|]. split; [done|]. cbn [coreLocations set_coreLocations].
  split; [done|]. split; [done|]. split.
  - intros L HL Hown. split; [set_solver|].
    apply elem_of_union_r.
    by eapply consumeSinksWithLocations_keeps_others.
  - intros L HL1 HL Hcore. set_solver.
Qed.

(** The child owns location 6, the parent location 5, and the graph holds
    the edge from 5 to 6: 6 is the sink and the node of 5 its parent.  The
    run puts 6 into the child's core locations and 5 into the parent's. *)
Lemma computeCoreLocations_child_takes_every_sink_witness :
  ∃ fuel child' parent' g1,
    computeCoreLocations fuel
      (mkDependency (frame_owning [6]) (Some (mkDependency (frame_owning [5]) None)))
      (addNewEdge 5 6 empty_graph)
      = Some (mkDependency child' (Some (mkDependency parent' None)), g1) ∧
    coreLocations child' = {[6]} ∧ 5 ∈ coreLocations parent'.
Proof.
  destruct (computeCoreLocations_child_takes_every_sink
              (frame_owning [6]) (frame_owning [5]) (addNewEdge 5 6 empty_graph)
              (λ p, match p with O => 0 | S _ => 1 end))
    as (fuel & child' & parent' & g1 & Hrun & Hstrip & Hchild & Hparent & _ & Hlate).
  { intros [|[|q]] p Hp; vm_compute in Hp.
    - by apply elem_of_nil in Hp.
    - apply list_elem_of_singleton in Hp as ->. lia.
    - by apply elem_of_nil in Hp. }
  exists fuel, child', parent', g1. split; [done|]. split.
  - rewrite Hchild. by vm_compute.
  - rewrite Hparent. apply elem_of_union_r.
    destruct fuel as [|[|[|fuel]]]; vm_compute in Hstrip;
      try discriminate Hstrip; injection Hstrip as <-; by vm_compute.
Defined.

(** The child has loaded the value 10 from location 5, which the parent
    owns and into which the parent stored 20.  The graph built for the
    value 10 has the node of location 5 as its only sink. *)
Example load_graph_is_one_sink :
  buildLocationGraph 3 load_chain empty_graph 10 = Some (addNewSink 5 empty_graph) ∧
  load_graph = addNewSink 5 empty_graph ∧
  versionedLocationsList load_parent = [5] ∧ versionedLocationsList load_child = [].
Proof. by vm_compute. Qed.

(** On that graph the child takes location 5 into its own core locations
    before it passes the graph on to the parent. *)
Lemma parent_location_lands_in_child :
  ¬ core_only_in_owner load_child load_parent load_graph 5.
Proof.
  intros (fuel & child' & parent' & g' & Hrun & _ & Hchild).
  rewrite computeCoreLocations_two_frames in Hrun.
  destruct (consumeSinksWithLocations fuel _ _) as [g1|]; [|done].
  cbn [mbind option_bind] in Hrun. injection Hrun as <- _ _.
  apply Hchild. cbn [coreLocations set_coreLocations]. by vm_compute.
Qed.

Lemma flow_edge_addDependencyViaLocation
    (f : Frame) (source target via target' source' : nat) :
  flow_edge (addDependencyViaLocation source target via f) target' source' =
    if decide (target' = target ∧ source' = source)
    then Some (default via (flow_edge f target source))
    else flow_edge f target' source'.
Proof.
  unfold flow_edge, addDependencyViaLocation, map_insert_new. cbn [flowsToMap set_flowsToMap].
  destruct (decide (target' = target)) as [->|Ht].
  - destruct (flowsToMap f !! target) as [sources|] eqn:Hsources;
      rewrite lookup_insert_eq; cbn [mbind option_bind].
    + destruct (sources !! source) as [v|] eqn:Hv.
      * case_decide as Hc; [destruct Hc as [_ ->]; by rewrite Hv|done].
      * rewrite lookup_insert. case_decide as Hs.
        -- subst. by rewrite decide_True.
        -- rewrite decide_False by naive_solver. done.
    + rewrite lookup_empty, lookup_insert. case_decide as Hs.
      * subst. by rewrite decide_True.
      * rewrite decide_False by naive_solver. by rewrite lookup_empty.
  - rewrite decide_False by naive_solver.
    destruct (flowsToMap f !! target); by rewrite lookup_insert_ne.
Qed.

(** X12.  [addDependencyViaLocation(source, target, via)] changes the flow edge
    from [source] to [target] and no other; the edge carries [via] only
    when it is new: an edge that exists keeps the location it was first
    given, as [std::map::insert] does not overwrite. *)
Theorem addDependencyViaLocation_first_via_stays
    (f : Frame) (source target via target' source' : nat) :
  flow_edge (addDependencyViaLocation source target via f) target' source' =
    if decide (target' = target ∧ source' = source)
    then Some (default via (flow_edge f target source))
    else flow_edge f target' source'.
Proof. apply flow_edge_addDependencyViaLocation. Qed.

Lemma elem_of_keys_in_order {V} (m : gmap nat V) (k : nat) :
  k ∈ keys_in_order m ↔ is_Some (m !! k).
Proof.
  unfold keys_in_order. by rewrite merge_sort_Permutation, elem_of_elements, elem_of_dom.
Qed.

Lemma elem_of_directLocalFlowSources (f : Frame) (target source : nat) :
  source ∈ directLocalFlowSources f target ↔ is_Some (flow_edge f target source).
Proof.
  unfold directLocalFlowSources, flow_edge.
  destruct (flowsToMap f !! target) as [sources|]; cbn.
  - apply elem_of_keys_in_order.
  - split; [by intros ?%elem_of_nil|by intros [? ?]].
Qed.

(** X13.  After [addDependency(source, target)] on a frame, the direct local
    flow sources of [target] are the ones it had before together with
    [source]; those of every other value are unchanged; and the vector
    comes back sorted by pointer and without duplicates, in the order of
    the inner [std::map]. *)
Theorem directLocalFlowSources_after_addDependency
    (f : Frame) (source target via : nat) :
  (∀ x, x ∈ directLocalFlowSources (addDependencyViaLocation source target via f) target ↔
        x = source ∨ x ∈ directLocalFlowSources f target) ∧
  (∀ target', target' ≠ target →
     directLocalFlowSources (addDependencyViaLocation source target via f) target' =
     directLocalFlowSources f target') ∧
  NoDup (directLocalFlowSources (addDependencyViaLocation source target via f) target) ∧
  Sorted le (directLocalFlowSources (addDependencyViaLocation source target via f) target).
Proof.
  split; [|split; [|split]].
  - intros x. rewrite !elem_of_directLocalFlowSources,
      flow_edge_addDependencyViaLocation.
    case_decide as Hc.
    + destruct Hc as [_ ->]. split; [by left|by eexists].
    + split; [by right|]. intros [->|?]; [naive_solver|done].
  - intros target' Hne. unfold directLocalFlowSources, addDependencyViaLocation.
    cbn [flowsToMap set_flowsToMap].
    destruct (flowsToMap f !! target); by rewrite lookup_insert_ne.
  - unfold directLocalFlowSources. destruct (flowsToMap _ !! target); [|constructor].
    unfold keys_in_order. rewrite merge_sort_Permutation. apply NoDup_elements.
  - unfold directLocalFlowSources. destruct (flowsToMap _ !! target); [|constructor].
    unfold keys_in_order. apply (Sorted_merge_sort (≤)).
Qed.


Lemma gather_elem (fuel : nat) (d : Dependency) (steps : list nat) :
  ∀ init ret,
    gather fuel d (Some init) steps = Some ret →
    (∀ s, s ∈ steps → is_Some (allFlowSources fuel d s)) ∧
    (∀ x, x ∈ ret ↔
          x ∈ init ∨ ∃ s src, s ∈ steps ∧ allFlowSources fuel d s = Some src ∧ x ∈ src).
Proof.
  induction steps as [|s steps IH]; intros init ret.
  - cbn. intros [= <-]. split; [by intros ? ?%elem_of_nil|].
    intros x. split; [by left|]. intros [?|(? & ? & ?%elem_of_nil & _)]; done.
  - cbn. destruct (allFlowSources fuel d s) as [src|] eqn:Hsrc; cbn.
    + fold (gather fuel d (Some (src ++ init)) steps).
      intros (Hall & Hiff)%IH. split.
      * intros s' [->|?]%elem_of_cons; [by rewrite Hsrc|by apply Hall].
      * intros x. rewrite Hiff, elem_of_app. split.
        -- intros [[?|?]|(s' & src' & ? & ? & ?)].
           ++ right. exists s, src. split; [set_solver|done].
           ++ by left.
           ++ right. exists s', src'. split; [set_solver|done].
        -- intros [?|(s' & src' & [->|?]%elem_of_cons & Hs' & ?)].
           ++ left. by right.
           ++ left. left. congruence.
           ++ right. by exists s', src'.
    + fold (gather fuel d None steps). by rewrite gather_None.
Qed.

Lemma allFlowSources_is_the_closure
    (fuel : nat) (d : Dependency) (target : nat) (r : list nat) :
  allFlowSources fuel d target = Some r →
  ∀ x, x ∈ r ↔ flows_into d target x.
Proof.
  revert target r. induction fuel as [|fuel IH]; intros target r; [done|].
  rewrite allFlowSources_unfold.
  destruct (gather fuel d _ _) as [ret|] eqn:Hret; [|done].
  cbn. intros [= <-] x.
  apply gather_elem in Hret as [Hall Hiff].
  rewrite elem_of_std_unique, elem_of_std_sort, elem_of_app, Hiff,
    list_elem_of_singleton.
  split.
  - intros [[Hx|(s & src & Hs & Hsrc & Hx)]| ->].
    + eapply flows_into_step; [done|]. constructor.
    + eapply flows_into_step; [done|]. by apply (IH s src).
    + constructor.
  - intros Hflow. inversion Hflow as [|t s y Hs Hsx]; subst; [by right|].
    left. right. destruct (Hall s Hs) as [src Hsrc].
    exists s, src. split; [done|]. split; [done|]. by apply (IH s src).
Qed.


Lemma gather_ends_None (fuel : nat) (d : Dependency) (steps : list nat) :
  gather_ends fuel d None steps = None.
Proof. induction steps as [|s steps IH]; [done|]. cbn. apply IH. Qed.


Lemma flows_into_trans (d : Dependency) (a b c : nat) :
  flows_into d a b → flows_into d b c → flows_into d a c.
Proof.
  induction 1 as [|t s x Hs _ IH]; [done|].
  intros Hc. eapply flows_into_step; [done|]. by apply IH.
Qed.

Lemma gather_is_Some (fuel : nat) (d : Dependency) (steps : list nat) :
  (∀ s, s ∈ steps → is_Some (allFlowSources fuel d s)) →
  ∀ init, is_Some (gather fuel d (Some init) steps).
Proof.
  induction steps as [|s steps IH]; intros Hall init; [by eexists|].
  cbn. destruct (Hall s) as [src ->]; [set_solver|]. cbn.
  apply IH. intros s' Hs'. apply Hall. set_solver.
Qed.

Lemma allFlowSources_is_Some (d : Dependency) (rank : nat → nat) :
  flows_ranked d rank →
  ∀ fuel target, rank target < fuel → is_Some (allFlowSources fuel d target).
Proof.
  intros Hrank. induction fuel as [|fuel IH]; intros target Hlt; [lia|].
  rewrite allFlowSources_unfold.
  destruct (gather_is_Some fuel d (directFlowSources d target))
    with (init := directFlowSources d target) as [ret ->]; [|by eexists].
  intros s Hs. apply IH. specialize (Hrank target s Hs). lia.
Qed.

(** X14.  Where the flow edges of a chain of frames are acyclic (every edge
    leads to a value of lower rank), [allFlowSources(target)] returns, and
    the values in its result are exactly [target] and the values that reach
    it through one or more flow edges of the chain. *)
Theorem allFlowSources_on_ranked_flows
    (d : Dependency) (rank : nat → nat) (target : nat) :
  flows_ranked d rank →
  ∃ r, allFlowSources (S (rank target)) d target = Some r ∧
       ∀ x, x ∈ r ↔ flows_into d target x.
Proof.
  intros Hrank.
  destruct (allFlowSources_is_Some d rank Hrank (S (rank target)) target) as [r Hr];
    [lia|].
  exists r. split; [done|]. by apply (allFlowSources_is_the_closure _ _ _ _ Hr).
Qed.

Lemma flow_example_sources (target s : nat) :
  s ∈ directFlowSources flow_example target → target = 10 ∧ s = 20.
Proof.
  intros Hs. apply elem_of_directLocalFlowSources in Hs as [via Hvia].
  unfold flow_edge in Hvia.
  change (flowsToMap (addDependency 20 10 empty_frame))
    with (<[10 := <[20 := 0]> ∅]> (∅ : gmap nat (gmap nat nat))) in Hvia.
  destruct (decide (target = 10)) as [->|Hne].
  - rewrite lookup_insert_eq in Hvia. cbn in Hvia.
    destruct (decide (s = 20)) as [->|Hne']; [done|].
    by rewrite lookup_insert_ne in Hvia.
  - by rewrite lookup_insert_ne in Hvia.
Qed.

Lemma flow_example_ranked : flows_ranked flow_example (λ x, 30 - x).
Proof. intros target s [-> ->]%flow_example_sources. lia. Qed.

Lemma allFlowSources_on_ranked_flows_witness :
  ∃ r, allFlowSources (S (30 - 10)) flow_example 10 = Some r ∧
       ∀ x, x ∈ r ↔ flows_into flow_example 10 x.
Proof.
  apply (allFlowSources_on_ranked_flows flow_example (λ x, 30 - x) 10).
  exact flow_example_ranked.
Defined.

(** X15.  [allFlowSources] keeps no record of the values it has visited: when
    [target] reaches, along flow edges, a value that lies on a cycle of
    flow edges, the recursion does not end, whatever the depth allowed. *)
Theorem allFlowSources_loops_on_a_flow_cycle
    (d : Dependency) (target x : nat) :
  flows_into d target x → on_flow_cycle d x →
  ∀ fuel, allFlowSources fuel d target = None.
Proof.
  intros Hreach Hcycle fuel. revert target Hreach.
  induction fuel as [|fuel IH]; intros target Hreach; [done|].
  rewrite allFlowSources_unfold.
  destruct (gather fuel d _ _) as [ret|] eqn:Hret; [|done].
  apply gather_elem in Hret as [Hall _].
  assert (∃ s, s ∈ directFlowSources d target ∧ flows_into d s x) as (s & Hs & Hsx).
  { inversion Hreach as [|t s y Hs Hsx]; subst; [|by exists s].
    destruct Hcycle as (y & Hy & Hyx). by exists y. }
  destruct (Hall s Hs) as [src Hsrc]. by rewrite (IH s Hsx) in Hsrc.
Qed.


Lemma allFlowSources_loops_on_a_flow_cycle_witness :
  directFlowSources flow_loop_example 10 = [10] ∧
  ∀ fuel, allFlowSources fuel flow_loop_example 10 = None.
Proof.
  split; [by vm_compute|].
  apply (allFlowSources_loops_on_a_flow_cycle flow_loop_example 10 10).
  - constructor.
  - exists 10. split; [by vm_compute; left|constructor].
Defined.

Lemma gather_ends_elem (fuel : nat) (d : Dependency) (steps : list nat) :
  (∀ s src, allFlowSourcesEnds fuel d s = Some src → src ≠ []) →
  ∀ init ret,
    gather_ends fuel d (Some init) steps = Some ret →
    (∀ s, s ∈ steps → is_Some (allFlowSourcesEnds fuel d s)) ∧
    (∀ x, x ∈ ret ↔
          x ∈ init ∨
          ∃ s src, s ∈ steps ∧ allFlowSourcesEnds fuel d s = Some src ∧ x ∈ src).
Proof.
  intros Hne. induction steps as [|s steps IH]; intros init ret.
  - cbn. intros [= <-]. split; [intros s Hs; by apply elem_of_nil in Hs|].
    intros x. split; [by left|]. intros [?|(? & ? & Hs & _)]; [done|].
    by apply elem_of_nil in Hs.
  - cbn. destruct (allFlowSourcesEnds fuel d s) as [src|] eqn:Hsrc; cbn;
      [|fold (gather_ends fuel d None steps); by rewrite gather_ends_None].
    rewrite decide_False
      by (specialize (Hne s src Hsrc); destruct src; [done|cbn; lia]).
    fold (gather_ends fuel d (Some (src ++ init)) steps).
    intros (Hall & Hiff)%IH. split.
    + intros s' [->|?]%elem_of_cons; [by rewrite Hsrc|by apply Hall].
    + intros x. rewrite Hiff, elem_of_app. split.
      * intros [[?|?]|(s' & src' & ? & ? & ?)].
        -- right. exists s, src. split; [set_solver|done].
        -- by left.
        -- right. exists s', src'. split; [set_solver|done].
      * intros [?|(s' & src' & [->|?]%elem_of_cons & Hs' & ?)].
        -- left. by right.
        -- left. left. congruence.
        -- right. by exists s', src'.
Qed.

Lemma allFlowSourcesEnds_unfold (fuel : nat) (d : Dependency) (target : nat) :
  allFlowSourcesEnds (S fuel) d target =
    if decide (length (directFlowSources d target) = 0) then Some [target]
    else ret ← gather_ends fuel d (Some []) (directFlowSources d target);
         Some (std_unique (std_sort ret)).
Proof. done. Qed.

Lemma allFlowSourcesEnds_spec
    (fuel : nat) (d : Dependency) (target : nat) (r : list nat) :
  allFlowSourcesEnds fuel d target = Some r →
  r ≠ [] ∧
  ∀ x, x ∈ r ↔ flows_into d target x ∧ directFlowSources d x = [].
Proof.
  revert target r. induction fuel as [|fuel IH]; intros target r; [done|].
  rewrite allFlowSourcesEnds_unfold. case_decide as Hsteps.
  { apply length_zero_iff_nil in Hsteps.
    intros [= <-]. split; [done|]. intros x. rewrite list_elem_of_singleton. split.
    - intros ->. split; [constructor|done].
    - intros [Hflow _]. inversion Hflow as [|t s y Hs Hsx]; subst; [done|].
      rewrite Hsteps in Hs. by apply elem_of_nil in Hs. }
  destruct (gather_ends fuel d (Some []) (directFlowSources d target)) as [ret|] eqn:Hret;
    [|done].
  cbn. intros [= <-].
  apply gather_ends_elem in Hret as [Hall Hiff];
    [|intros s src Hsrc; by apply (IH s src)].
  assert (∀ x, x ∈ std_unique (std_sort ret) ↔
               flows_into d target x ∧ directFlowSources d x = []) as Hspec.
  { intros x. rewrite elem_of_std_unique, elem_of_std_sort, Hiff. split.
    - intros [Hx|(s & src & Hs & Hsrc & Hx)]; [by apply elem_of_nil in Hx|].
      destruct (IH s src Hsrc) as [_ Hends]. apply Hends in Hx as [Hflow Hleaf].
      split; [|done]. by eapply flows_into_step.
    - intros [Hflow Hleaf]. right.
      inversion Hflow as [|t s y Hs Hsx]; subst; [by rewrite Hleaf in Hsteps|].
      destruct (Hall s Hs) as [src Hsrc]. exists s, src.
      split; [done|]. split; [done|]. by apply (IH s src). }
  split; [|done].
  destruct (directFlowSources d target) as [|s steps] eqn:Hsources; [done|].
  destruct (Hall s) as [src Hsrc]; [set_solver|].
  destruct (IH s src Hsrc) as [Hne Hends].
  destruct src as [|x src]; [done|].
  assert (x ∈ std_unique (std_sort ret)) as Hx.
  { apply Hspec. destruct (Hends x) as [[Hflow Hleaf] _]; [set_solver|].
    split; [|done]. eapply flows_into_step; [|done]. rewrite Hsources. set_solver. }
  intros Hnil. rewrite Hnil in Hx. by apply elem_of_nil in Hx.
Qed.

Lemma gather_ends_is_Some (fuel : nat) (d : Dependency) (steps : list nat) :
  (∀ s, s ∈ steps → is_Some (allFlowSourcesEnds fuel d s)) →
  ∀ init, is_Some (gather_ends fuel d (Some init) steps).
Proof.
  induction steps as [|s steps IH]; intros Hall init; [by eexists|].
  cbn. destruct (Hall s) as [src ->]; [set_solver|]. cbn.
  case_decide.
  - fold (gather_ends fuel d (Some (init ++ [s])) steps).
    apply IH. intros s' Hs'. apply Hall. set_solver.
  - fold (gather_ends fuel d (Some (src ++ init)) steps).
    apply IH. intros s' Hs'. apply Hall. set_solver.
Qed.

Lemma allFlowSourcesEnds_is_Some (d : Dependency) (rank : nat → nat) :
  flows_ranked d rank →
  ∀ fuel target, rank target < fuel → is_Some (allFlowSourcesEnds fuel d target).
Proof.
  intros Hrank. induction fuel as [|fuel IH]; intros target Hlt; [lia|].
  rewrite allFlowSourcesEnds_unfold. case_decide; [by eexists|].
  destruct (gather_ends_is_Some fuel d (directFlowSources d target))
    with (init := @nil nat) as [ret ->]; [|by eexists].
  intros s Hs. apply IH. specialize (Hrank target s Hs). lia.
Qed.

(** X16.  Where the flow edges of a chain of frames are acyclic,
    [allFlowSourcesEnds(target)] returns a vector that is never empty (so
    the branch for an empty result of the recursive call is never taken
    there), and its values are exactly the values without flow sources
    from which [target] can be reached, [target] itself included when it has
    no source. *)
Theorem allFlowSourcesEnds_are_the_leaves
    (d : Dependency) (rank : nat → nat) (target : nat) :
  flows_ranked d rank →
  ∃ r, allFlowSourcesEnds (S (rank target)) d target = Some r ∧
       r ≠ [] ∧
       ∀ x, x ∈ r ↔ flows_into d target x ∧ directFlowSources d x = [].
Proof.
  intros Hrank.
  destruct (allFlowSourcesEnds_is_Some d rank Hrank (S (rank target)) target)
    as [r Hr]; [lia|].
  exists r. split; [done|]. by apply (allFlowSourcesEnds_spec _ _ _ _ Hr).
Qed.

Lemma allFlowSourcesEnds_are_the_leaves_witness :
  ∃ r, allFlowSourcesEnds (S (30 - 10)) flow_example 10 = Some r ∧
       r ≠ [] ∧
       ∀ x, x ∈ r ↔ flows_into flow_example 10 x ∧ directFlowSources flow_example x = [].
Proof.
  apply (allFlowSourcesEnds_are_the_leaves flow_example (λ x, 30 - x) 10).
  exact flow_example_ranked.
Defined.

Section Lookup.

Variable ir : nat → llvmValue.

(** X17.  For a value that is no constant, [getLatestValue] is a plain lookup:
    it returns what [getLatestValueNoConstantCheck] returns (the last
    version in the innermost frame that has one, or null) and changes
    neither the chain of frames nor the heap. *)
Theorem getLatestValue_of_non_constant_is_a_lookup
    (d : Dependency) (h : Heap) (value : nat) (valueExpr : ref) :
  isa_Constant (kind (ir value)) = false →
  getLatestValue ir d h value valueExpr = (getLatestValueNoConstantCheck d value, d, h).
Proof. apply getLatestValue_non_constant. Qed.

(** X18.  A global value that no frame of the chain knows is registered by
    [getLatestValue] in the outermost frame, whichever frame is asked: the
    result is a fresh versioned value, the frames inside the outermost one
    are left as they were, the outermost frame lists the new version as the
    only one of the value, and asking again returns the same version and
    changes nothing. *)
Theorem unknown_global_is_registered_in_the_root
    (d : Dependency) (h : Heap) (value : nat) (valueExpr : ref) :
  kind (ir value) = GlobalValue →
  Forall (λ f, valuesMap f !! value = None) (frames d) →
  ∃ d' h',
    getLatestValue ir d h value valueExpr = (S (length (values h)), d', h') ∧
    inner_frames d' = inner_frames d ∧
    valuesMap (root_frame d') = <[value := [S (length (values h))]]> (valuesMap (root_frame d)) ∧
    ∀ valueExpr',
      getLatestValue ir d' h' value valueExpr' = (S (length (values h)), d', h').
Proof.
  intros Hkind.
  induction d as [f|f p IH] using Dependency_chain_ind;
    intros Hunknown; cbn [frames] in Hunknown;
    apply Forall_cons in Hunknown as [Hf Hp].
  - cbn [getLatestValue]. rewrite Hkind, Hf. cbn.
    unfold map_push_back. rewrite Hf.
    destruct (isPointerTy (ir value)).
    + eexists _, _. split; [reflexivity|]. split; [done|]. split; [done|].
      intros valueExpr'. cbn [getLatestValue]. rewrite Hkind. cbn.
      by rewrite lookup_insert_eq.
    + eexists _, _. split; [reflexivity|]. split; [done|]. split; [done|].
      intros valueExpr'. cbn [getLatestValue]. rewrite Hkind. cbn.
      by rewrite lookup_insert_eq.
  - destruct (IH Hp) as (p' & h' & Hrun & Hinner & Hroot & Hagain).
    exists (mkDependency f (Some p')), h'.
    cbn [getLatestValue]. rewrite Hkind, Hf, Hrun. cbn.
    split; [done|]. split; [by rewrite Hinner|]. split; [done|].
    intros valueExpr'. by rewrite Hagain.
Qed.

End Lookup.

Lemma getLatestValue_of_non_constant_is_a_lookup_witness :
  getLatestValue binding_ir binding_chain binding_heap 101 None =
    (getLatestValueNoConstantCheck binding_chain 101, binding_chain, binding_heap).
Proof. by apply (getLatestValue_of_non_constant_is_a_lookup binding_ir). Defined.


Lemma unknown_global_is_registered_in_the_root_witness :
  ∃ d' h',
    getLatestValue globals_ir binding_chain binding_heap 300 None = (2, d', h') ∧
    inner_frames d' = inner_frames binding_chain ∧
    valuesMap (root_frame d') = <[300 := [2]]> (valuesMap (root_frame binding_chain)) ∧
    ∀ valueExpr', getLatestValue globals_ir d' h' 300 valueExpr' = (2, d', h').
Proof.
  apply (unknown_global_is_registered_in_the_root globals_ir binding_chain binding_heap 300 None).
  - reflexivity.
  - repeat constructor.
Defined.

Section Resolution.

Variable argumentParent : nat → option (option string).

Lemma resolveLocation_main_argument
    (d : Dependency) (h : Heap) (val vArg : nat) :
  value_of h val = Some vArg →
  isMainArgument argumentParent vArg = true →
  Forall (λ f, equalityMap f !! val = None) (frames d) →
  ∃ d' h',
    resolveLocation argumentParent d h val = Some (S (length (locations h)), d', h') ∧
    value_of h' val = Some vArg ∧
    Forall (λ f, equalityMap f !! val = None) (frames d') ∧
    length (locations h') = S (length (locations h)) ∧
    inner_frames d' = inner_frames d ∧
    ∃ locs, equalityMap (root_frame d') !! S (length (values h))
              = Some (locs ++ [S (length (locations h))]).
Proof.
  intros Hval Hmain.
  assert (val ≠ 0) as Hnonnull by (intros ->; done).
  assert (val ≠ S (length (values h))) as Hfresh.
  { intros ->. unfold value_of in Hval. cbn in Hval.
    by rewrite lookup_ge_None_2 in Hval. }
  induction d as [f|f p IH] using Dependency_chain_ind;
    intros Hunknown; cbn [frames] in Hunknown;
    apply Forall_cons in Hunknown as [Hf Hp].
  - cbn [resolveLocation]. rewrite decide_False, Hf, Hval by done. cbn.
    rewrite Hmain. eexists _, _. split; [reflexivity|]. cbn.
    split; [|split; [|split; [|split]]].
    + destruct val as [|i]; [done|]. unfold value_of in *. cbn in *.
      destruct (values h !! i) eqn:Hi; [|done].
      by rewrite (lookup_app_l_Some _ _ _ _ Hi).
    + constructor; [|done]. cbn. unfold map_push_back.
      destruct (equalityMap f !! S (length (values h)));
        by rewrite lookup_insert_ne.
    + rewrite length_app. cbn. lia.
    + done.
    + unfold map_push_back.
      destruct (equalityMap f !! S (length (values h))) as [locs|] eqn:Hlocs.
      * exists locs. by rewrite lookup_insert_eq.
      * exists []. by rewrite lookup_insert_eq.
  - destruct (IH Hp) as (p' & h' & Hrun & Hval' & Hunknown' & Hlen & Hinner & Hroot).
    exists (mkDependency f (Some p')), h'.
    cbn [resolveLocation]. rewrite decide_False, Hf, Hrun by done. cbn.
    split; [done|]. split; [done|]. split; [by constructor|].
    split; [done|]. split; [by rewrite Hinner|done].
Qed.

(** X20.  A value of an argument of [main] that has no location yet gets a new
    location each time it is resolved: [resolveLocation] records the new
    location for a fresh versioned value of the argument, not for the value
    it was asked about, so a second call on the same value finds nothing
    again and allocates the next location. *)
Theorem resolveLocation_twice_on_a_main_argument
    (d : Dependency) (h : Heap) (val vArg : nat) :
  value_of h val = Some vArg →
  isMainArgument argumentParent vArg = true →
  Forall (λ f, equalityMap f !! val = None) (frames d) →
  ∃ d1 h1 d2 h2,
    resolveLocation argumentParent d h val = Some (S (length (locations h)), d1, h1) ∧
    Forall (λ f, equalityMap f !! val = None) (frames d1) ∧
    resolveLocation argumentParent d1 h1 val = Some (S (S (length (locations h))), d2, h2).
Proof.
  intros Hval Hmain Hunknown.
  destruct (resolveLocation_main_argument d h val vArg)
    as (d1 & h1 & Hrun1 & Hval1 & Hunknown1 & Hlen1 & _); [done..|].
  destruct (resolveLocation_main_argument d1 h1 val vArg)
    as (d2 & h2 & Hrun2 & _); [done..|].
  exists d1, h1, d2, h2. rewrite Hlen1 in Hrun2. done.
Qed.

End Resolution.

Lemma resolveLocation_twice_on_a_main_argument_witness :
  ∃ d1 h1 d2 h2,
    resolveLocation main_arguments binding_chain main_heap 1 = Some (1, d1, h1) ∧
    Forall (λ f, equalityMap f !! 1 = None) (frames d1) ∧
    resolveLocation main_arguments d1 h1 1 = Some (2, d2, h2).
Proof.
  apply (resolveLocation_twice_on_a_main_argument main_arguments binding_chain main_heap 1 1).
  - reflexivity.
  - reflexivity.
  - repeat constructor.
Defined.


Lemma latest_in_frame_found (h : Heap) (l : list nat) (location : nat) (address : ref) (r : nat) :
  latest_in_frame h l location address = Some r → r ≠ 0 →
  r ∈ l ∧ ∃ loc, location_at h r = Some loc ∧ hasAddress loc location address = true.
Proof.
  induction l as [|it rest IH]; cbn; [by intros [= <-]|].
  destruct (location_at h it) as [loc|] eqn:Hloc; [|done]. cbn.
  destruct (hasAddress loc location address) eqn:Haddr.
  - intros [= <-] _. split; [by left|]. by exists loc.
  - intros Hr Hne. destruct (IH Hr Hne) as [? ?]. split; [by right|done].
Qed.

Lemma getLatestLocation_found (d : Dependency) (h : Heap) (location : nat) (address : ref) (r : nat) :
  getLatestLocation d h location address = Some r → r ≠ 0 →
  (∃ f, f ∈ frames d ∧ r ∈ versionedLocationsList f) ∧
  ∃ loc, location_at h r = Some loc ∧ hasAddress loc location address = true.
Proof.
  induction d as [f|f p IH] using Dependency_chain_ind; cbn [getLatestLocation frames];
    destruct (latest_in_frame h _ location address) as [ret|] eqn:Hret; try done; cbn;
    case_decide as Hnull.
  - intros [= <-] _. apply latest_in_frame_found in Hret as [Hin Hloc]; [|done].
    split; [|done]. exists f. split; [by left|]. by apply elem_of_reverse.
  - by intros [= <-].
  - intros [= <-] _. apply latest_in_frame_found in Hret as [Hin Hloc]; [|done].
    split; [|done]. exists f. split; [by left|]. by apply elem_of_reverse.
  - intros Hr Hne. destruct (IH Hr Hne) as [(f' & ? & ?) ?]. split; [|done].
    exists f'. split; [by right|done].
Qed.

(** X22.  [getNewLocationVersion] hands out one location per site and address:
    the location it returns is not null, has the site and the address asked
    for and is owned by a frame of the chain; and asking again for the same
    site and address returns the same location and changes neither the
    frames nor the heap. *)
Theorem getNewLocationVersion_is_idempotent
    (location : nat) (address : ref) (d d' : Dependency) (h h' : Heap) (r : nat) :
  getNewLocationVersion location address d h = Some (r, d', h') →
  r ≠ 0 ∧
  location_at h' r = Some (mkVersionedLocation location address) ∧
  (∃ f, f ∈ frames d' ∧ r ∈ versionedLocationsList f) ∧
  getNewLocationVersion location address d' h' = Some (r, d', h').
Proof.
  unfold getNewLocationVersion.
  destruct (getLatestLocation d h location address) as [ret|] eqn:Hret; [|done]. cbn.
  case_decide as Hnull.
  - intros [= <- <- <-]. rewrite Hret. cbn. rewrite decide_True by done.
    apply getLatestLocation_found in Hret as [Hin (loc & Hloc & Haddr)]; [|done].
    split; [done|]. split; [|done].
    rewrite Hloc. unfold hasAddress in Haddr.
    apply andb_true_iff in Haddr as [Hsite%bool_decide_eq_true Ha%bool_decide_eq_true].
    destruct loc. cbn in *. by subst.
  - intros [= <- <- <-]. destruct d as [f parent].
    split; [done|].
    split; [cbn; by rewrite lookup_app_r, Nat.sub_diag|].
    split; [exists (set_versionedLocationsList
                      (versionedLocationsList f ++ [S (length (locations h))]) f);
            split; [destruct parent; by left|cbn; set_solver]|].
    cbn [frame parentDependency getLatestLocation set_versionedLocationsList
         versionedLocationsList].
    rewrite reverse_snoc. cbn [latest_in_frame location_at locations].
    rewrite lookup_app_r, Nat.sub_diag by done. cbn.
    unfold hasAddress. cbn. rewrite !bool_decide_eq_true_2 by done. cbn.
    by rewrite decide_True by done.
Qed.

Lemma getNewLocationVersion_is_idempotent_witness :
  1 ≠ 0 ∧
  location_at versions_heap 1 = Some (mkVersionedLocation 7 (Some (ShadowArray.Constant 64 64))) ∧
  (∃ f, f ∈ frames versions_chain ∧ 1 ∈ versionedLocationsList f) ∧
  getNewLocationVersion 7 (Some (ShadowArray.Constant 64 64)) versions_chain versions_heap
    = Some (1, versions_chain, versions_heap).
Proof.
  apply (getNewLocationVersion_is_idempotent 7 (Some (ShadowArray.Constant 64 64))
           versions_chain versions_chain versions_heap versions_heap 1).
  by vm_compute.
Defined.

Lemma entries_in_order_singleton (k v : nat) :
  entries_in_order {[k := v]} = [(k, v)].
Proof.
  unfold entries_in_order. rewrite keys_in_order_singleton. cbn.
  by rewrite lookup_singleton_eq.
Qed.

Lemma ancestral_sources_not_null (fuel : nat) (p : Dependency) (entries : list (nat * nat)) :
  (∀ target m, directLocationSources fuel p target = Some m →
               ∀ k v, m !! k = Some v → v ≠ 0) →
  ∀ tmp0 tmp,
    foldl (λ acc it,
             tmp ← acc;
             if decide (it.2 = 0 ∧ it.1 ≠ 0) then
               ancestralSources ← directLocationSources fuel p it.1;
               Some (tmp ∪ ancestralSources)
             else Some tmp)
          (Some tmp0) entries = Some tmp →
    (∀ k v, tmp0 !! k = Some v → v ≠ 0) →
    ∀ k v, tmp !! k = Some v → v ≠ 0.
Proof.
  intros Hparent. induction entries as [|it entries IH]; intros tmp0 tmp.
  - cbn. by intros [= <-].
  - cbn. case_decide as Hit.
    + destruct (directLocationSources fuel p it.1) as [ancestralSources|] eqn:Hsrc; cbn.
      * intros Hrun Htmp0. apply (IH _ _ Hrun).
        intros k v [?|[_ ?]]%lookup_union_Some_raw; [by eapply Htmp0|].
        by eapply Hparent.
      * intros Hrun. exfalso. clear -Hrun.
        induction entries as [|it' entries IH]; [done|]. by apply IH.
    + apply IH.
Qed.

(** X23.  Every entry of the map [directLocationSources] returns carries a
    location: the entries without one are erased or replaced by what the
    parent finds, in every frame of the chain, so [buildLocationGraph]
    never passes a null location to the graph. *)
Theorem directLocationSources_has_no_null_location
    (fuel : nat) (d : Dependency) (target : nat) (m : gmap nat nat) :
  directLocationSources fuel d target = Some m →
  ∀ k v, m !! k = Some v → v ≠ 0.
Proof.
  revert target m.
  induction d as [f|f p IH] using Dependency_chain_ind; intros target m;
    cbn [directLocationSources];
    destruct (directLocalLocationSources fuel f target) as [ret|]; try done; cbn.
  - intros [= <-] k v [_ Hv]%map_lookup_filter_Some. done.
  - case_decide as Hempty; [apply IH|].
    destruct (foldl _ (Some ∅) (entries_in_order ret)) as [tmp|] eqn:Htmp; [|done].
    cbn. intros [= <-] k v [[_ Hv]%map_lookup_filter_Some|[_ Hv]]%lookup_union_Some_raw;
      [done|].
    eapply (ancestral_sources_not_null fuel p _ IH _ _ Htmp); [|done].
    intros ? ?. by rewrite lookup_empty.
Qed.

Lemma directLocationSources_has_no_null_location_witness :
  directLocationSources 3 load_chain 10 = Some {[20 := 5]} ∧
  ∀ k v, ({[20 := 5]} : gmap nat nat) !! k = Some v → v ≠ 0.
Proof.
  split; [by vm_compute|].
  apply (directLocationSources_has_no_null_location 3 load_chain 10).
  by vm_compute.
Defined.

(** X24.  A value that has just been stored to a location and has no flow
    source in the frame is sourced at that location: the location graph
    built for it gets the location as a sink and nothing else, whatever the
    frame held before and whatever the ancestors hold. *)
Theorem buildLocationGraph_of_a_stored_value
    (fuel : nat) (f : Frame) (parent : option Dependency) (g : LocationGraph) (L V : nat) :
  L ≠ 0 →
  flowsToMap f !! V = None →
  let d := mkDependency (updateStore L V f) parent in
  directLocationSources (S fuel) d V = Some {[0 := L]} ∧
  buildLocationGraph (S fuel) d g V = Some (addNewSink L g).
Proof.
  intros HL Hflows d.
  assert (directLocalLocationSources (S fuel) (updateStore L V f) V = Some {[0 := L]})
    as Hlocal.
  { cbn [directLocalLocationSources].
    replace (flowsToMap (updateStore L V f)) with (flowsToMap f) by done.
    rewrite Hflows. cbn. rewrite decide_True by done.
    replace (storageOfMap (updateStore L V f))
      with (map_push_back V L (storageOfMap f)) by done.
    rewrite lookup_map_push_back, decide_True by done. by rewrite last_snoc. }
  assert (filter (λ it : nat * nat, it.2 ≠ 0) ({[0 := L]} : gmap nat nat) = {[0 := L]})
    as Hfilter by (by rewrite map_filter_singleton_True).
  assert (directLocationSources (S fuel) d V = Some {[0 := L]}) as Hsources.
  { subst d. destruct parent as [p|]; cbn [directLocationSources];
      rewrite Hlocal; cbn -[directLocationSources]; [|by rewrite Hfilter].
    rewrite decide_False by (intros Hempty; by apply (map_non_empty_singleton 0 L)).
    rewrite entries_in_order_singleton. cbn -[directLocationSources].
    rewrite decide_False by (by intros [? _]). cbn.
    by rewrite Hfilter, (right_id_L ∅ (∪)). }
  split; [done|].
  unfold buildLocationGraph. rewrite Hsources. cbn -[directLocationSources].
  rewrite entries_in_order_singleton. cbn -[directLocationSources].
  by rewrite decide_True by done.
Qed.

Lemma buildLocationGraph_of_a_stored_value_witness :
  let d := mkDependency (updateStore 5 20 empty_frame) None in
  directLocationSources 2 d 20 = Some {[0 := 5]} ∧
  buildLocationGraph 2 d empty_graph 20 = Some (addNewSink 5 empty_graph).
Proof.
  apply (buildLocationGraph_of_a_stored_value 1 empty_frame None empty_graph 5 20).
  - lia.
  - reflexivity.
Defined.

Lemma setAsCore_spec (q : nat) (h h' : Heap) :
  setAsCore q h = Some h' →
  is_Some (value_at h q) ∧
  length (values h') = length (values h) ∧
  locations h' = locations h ∧
  ∀ p, value_of h' p = value_of h p ∧
       expression_of h' p = expression_of h p ∧
       isCore_at h' p = if decide (p = q) then true else isCore_at h p.
Proof.
  destruct q as [|i]; [done|]. cbn.
  destruct (values h !! i) as [v|] eqn:Hv; [|done]. cbn. intros [= <-].
  split; [done|]. cbn. split; [by rewrite length_insert|]. split; [done|].
  intros [|j]; [done|]. unfold value_of, expression_of, isCore_at. cbn.
  destruct (decide (j = i)) as [->|Hne].
  - rewrite decide_True by done.
    rewrite list_lookup_insert_eq by (by eapply lookup_lt_Some).
    by rewrite Hv.
  - rewrite decide_False by congruence.
    by rewrite list_lookup_insert_ne.
Qed.

Lemma setAsCore_all_spec (l : list nat) :
  ∀ h h',
    foldl (λ acc it, h ← acc; setAsCore it h) (Some h) l = Some h' →
    Forall (λ q, is_Some (value_at h q)) l ∧
    length (values h') = length (values h) ∧
    locations h' = locations h ∧
    ∀ p, value_of h' p = value_of h p ∧
         expression_of h' p = expression_of h p ∧
         (isCore_at h' p = true ↔ isCore_at h p = true ∨ p ∈ l).
Proof.
  induction l as [|q l IH]; intros h h'.
  - cbn. intros [= <-]. split; [done|]. split; [done|]. split; [done|].
    intros p. split; [done|]. split; [done|]. split; [by left|].
    intros [?|Hp]; [done|]. by apply elem_of_nil in Hp.
  - cbn. destruct (setAsCore q h) as [h1|] eqn:Hq.
    + intros (Hall & Hlen & Hloc & Hp)%IH.
      apply setAsCore_spec in Hq as (Hq & Hlen1 & Hloc1 & Hp1).
      split.
      { constructor; [done|]. eapply Forall_impl; [exact Hall|].
        intros [|i] [v Hv]; [done|]. cbn in *.
        apply lookup_lt_is_Some. apply lookup_lt_Some in Hv. lia. }
      split; [congruence|]. split; [congruence|].
      intros p. destruct (Hp p) as (Hv & He & Hc). destruct (Hp1 p) as (Hv1 & He1 & Hc1).
      split; [congruence|]. split; [congruence|].
      rewrite Hc, Hc1, elem_of_cons. case_decide; naive_solver.
    + intros Hrun. exfalso. clear -Hrun.
      induction l as [|q' l IH]; [done|]. by apply IH.
Qed.

(** X25.  When [markAllValues] returns for a versioned value, the graph is the
    one [buildLocationGraph] makes, and in the heap the core flag is set on
    the value and on every value that reaches it through flow edges, all of
    which are allocated; every other flag, every program value and every
    expression is as before. *)
Theorem markAllValues_flags_the_flow_sources
    (fuel : nat) (d : Dependency) (h h' : Heap) (g g' : LocationGraph) (value : nat) :
  markAllValues fuel d h g value = Some (g', h') →
  buildLocationGraph fuel d g value = Some g' ∧
  locations h' = locations h ∧
  length (values h') = length (values h) ∧
  (∀ p, flows_into d value p → is_Some (value_at h p)) ∧
  ∀ p, value_of h' p = value_of h p ∧
       expression_of h' p = expression_of h p ∧
       (isCore_at h' p = true ↔ isCore_at h p = true ∨ flows_into d value p).
Proof.
  unfold markAllValues.
  destruct (buildLocationGraph fuel d g value) as [g1|]; [|done]. cbn.
  destruct (allFlowSources fuel d value) as [allSources|] eqn:Hsources; [|done]. cbn.
  destruct (foldl _ (Some h) allSources) as [h1|] eqn:Hmark; [|done]. cbn.
  intros [= <- <-]. split; [done|].
  apply setAsCore_all_spec in Hmark as (Hall & Hlen & Hloc & Hp).
  pose proof (allFlowSources_is_the_closure _ _ _ _ Hsources) as Hclosure.
  split; [done|]. split; [done|]. split.
  - intros p Hflow%Hclosure. by apply (proj1 (Forall_forall _ _) Hall).
  - intros p. destruct (Hp p) as (Hv & He & Hc).
    split; [done|]. split; [done|]. by rewrite Hc, Hclosure.
Qed.

Lemma markAllValues_flags_the_flow_sources_witness :
  ∃ g' h',
    markAllValues 3 marking_chain marking_heap empty_graph 1 = Some (g', h') ∧
    ∀ p, isCore_at h' p = true ↔
         isCore_at marking_heap p = true ∨ flows_into marking_chain 1 p.
Proof.
  destruct (markAllValues 3 marking_chain marking_heap empty_graph 1) as [[g' h']|] eqn:Hrun;
    [|by vm_compute in Hrun].
  exists g', h'. split; [done|]. intros p.
  by destruct (markAllValues_flags_the_flow_sources 3 marking_chain marking_heap h'
                 empty_graph g' 1 Hrun) as (_ & _ & _ & _ & Hp); destruct (Hp p) as (_ & _ & ?).
Defined.

(** X26.  For an operand without versioned value, [markAllValues] returns
    without doing anything when the operand is a constant and aborts when
    it is not; the search for an operand named [__dso_handle] makes no
    difference. *)
Theorem markAllValues_of_unresolved_operand
    (ir : nat → llvmValue) (operandNames : nat → list string)
    (fuel : nat) (d : Dependency) (h : Heap) (g : LocationGraph) (val : nat) :
  getLatestValueNoConstantCheck d val = 0 →
  markAllValues_of_operand ir operandNames fuel d h g val =
    if isa_Constant (kind (ir val)) then Some (g, h) else None.
Proof.
  intros Hnull. unfold markAllValues_of_operand. rewrite Hnull, decide_True by done.
  destruct (kind (ir val)); cbn; try done;
    by destruct (existsb _ (operandNames val)).
Qed.

Lemma markAllValues_of_unresolved_operand_witness :
  markAllValues_of_operand binding_ir (λ _, []) 3 binding_chain binding_heap empty_graph 102
    = None.
Proof.
  by apply (markAllValues_of_unresolved_operand binding_ir (λ _, []) 3 binding_chain
              binding_heap empty_graph 102).
Defined.


Section TransferFacts.

Variable ir : nat → llvmValue.
Variable isa_Argument : nat → bool.

(** X27.  [executePHI] on a PHI node aborts in one case only: the incoming value
    is no constant and no argument, no frame of the chain has a version of
    it, and no symbolic execution error is reported. *)
Theorem executePHI_aborts_iff_operand_not_found
    (instr : nat) (incomingValues : list nat) (incomingBlock llvmArgValue : nat)
    (valueExpr : ref) (symbolicExecutionError : bool) (d : Dependency) (h : Heap) :
  incomingValues !! incomingBlock = Some llvmArgValue →
  executePHI ir isa_Argument instr (Some incomingValues) incomingBlock valueExpr
             symbolicExecutionError d h = None ↔
  isa_Constant (kind (ir llvmArgValue)) = false ∧
  isa_Argument llvmArgValue = false ∧
  symbolicExecutionError = false ∧
  getLatestValueNoConstantCheck d llvmArgValue = 0.
Proof.
  intros Hincoming. unfold executePHI. cbn. rewrite Hincoming. cbn.
  destruct (isa_Constant (kind (ir llvmArgValue))) eqn:Hkind.
  - destruct (getLatestValue ir d h llvmArgValue valueExpr) as [[val d1] h1].
    split; [|by intros [? _]]. by case_decide.
  - rewrite getLatestValue_non_constant by done.
    case_decide as Hval; cbn; [split; [done|]; by intros (_ & _ & _ & ?)|].
    destruct (isa_Argument llvmArgValue), symbolicExecutionError; cbn; naive_solver.
Qed.

(** X28.  When the returned value is no constant and has a version, then
    [bindReturnValue] gives the call site a fresh versioned value, carrying
    the expression of the return, as its latest version in the innermost
    frame, and records one flow edge, from the latest version of the
    returned value to the new one; the frames of the ancestors are left as
    they were. *)
Theorem bindReturnValue_links_the_call_site
    (site getReturnValue : nat) (returnValue : ref) (d : Dependency) (h : Heap) (r : nat) :
  site ≠ 0 → getReturnValue ≠ 0 →
  isa_Constant (kind (ir getReturnValue)) = false →
  getLatestValueNoConstantCheck d getReturnValue = r → r ≠ 0 →
  let fresh := S (length (values h)) in
  let '(d', h') := bindReturnValue ir site (Some getReturnValue) returnValue d h in
  parentDependency d' = parentDependency d ∧
  getLatestValueNoConstantCheck d' site = fresh ∧
  value_of h' fresh = Some site ∧
  expression_of h' fresh = returnValue ∧
  flow_edge (frame d') fresh r = Some (default 0 (flow_edge (frame d) fresh r)) ∧
  ∀ target source, (target, source) ≠ (fresh, r) →
                   flow_edge (frame d') target source = flow_edge (frame d) target source.
Proof.
  intros Hsite Hret Hkind Hlatest Hr fresh. unfold bindReturnValue.
  rewrite decide_True by done.
  rewrite getLatestValue_non_constant, Hlatest by done.
  rewrite decide_True by done.
  destruct d as [f parent]. cbn -[flow_edge addDependency].
  split; [done|]. split.
  { change (valuesMap (addDependency r (S (length (values h)))
               (set_valuesMap (map_push_back site (S (length (values h))) (valuesMap f)) f)))
      with (map_push_back site (S (length (values h))) (valuesMap f)).
    rewrite lookup_map_push_back, decide_True by done. cbn. by rewrite last_snoc. }
  split.
  { unfold value_of. cbn. by rewrite lookup_app_r, Nat.sub_diag. }
  split.
  { unfold expression_of. cbn. by rewrite lookup_app_r, Nat.sub_diag. }
  unfold addDependency.
  assert (∀ target source,
            flow_edge (set_valuesMap (map_push_back site fresh (valuesMap f)) f) target source
            = flow_edge f target source) as Hsame by done.
  split.
  - rewrite flow_edge_addDependencyViaLocation, decide_True by done. by rewrite Hsame.
  - intros target source Hne.
    rewrite flow_edge_addDependencyViaLocation, decide_False, Hsame; [done|].
    intros [-> ->]. done.
Qed.

End TransferFacts.

Lemma executePHI_aborts_iff_operand_not_found_witness :
  executePHI binding_ir (λ _, false) 300 (Some [101; 102]) 1 None false
             binding_chain binding_heap = None ↔
  isa_Constant (kind (binding_ir 102)) = false ∧
  (λ _ : nat, false) 102 = false ∧ false = false ∧
  getLatestValueNoConstantCheck binding_chain 102 = 0.
Proof.
  by apply (executePHI_aborts_iff_operand_not_found binding_ir (λ _, false) 300
              [101; 102] 1 102 None false binding_chain binding_heap).
Defined.

Lemma bindReturnValue_links_the_call_site_witness :
  let fresh := S (length (values binding_heap)) in
  let '(d', h') := bindReturnValue binding_ir 300 (Some 101) None binding_chain binding_heap in
  parentDependency d' = parentDependency binding_chain ∧
  getLatestValueNoConstantCheck d' 300 = fresh ∧
  value_of h' fresh = Some 300 ∧
  expression_of h' fresh = None ∧
  flow_edge (frame d') fresh 1 = Some (default 0 (flow_edge (frame binding_chain) fresh 1)) ∧
  ∀ target source, (target, source) ≠ (fresh, 1) →
                   flow_edge (frame d') target source
                   = flow_edge (frame binding_chain) target source.
Proof.
  apply (bindReturnValue_links_the_call_site binding_ir 300 101 None binding_chain
           binding_heap 1); [lia|lia|reflexivity|reflexivity|lia].
Defined.

Lemma elem_of_set_in_order (s : gset nat) (x : nat) : x ∈ set_in_order s ↔ x ∈ s.
Proof. unfold set_in_order. by rewrite merge_sort_Permutation, elem_of_elements. Qed.

Lemma elem_of_getAllVersionedLocations (coreOnly : bool) (d : Dependency) (L : nat) :
  L ∈ getAllVersionedLocations coreOnly d ↔
  ∃ f, f ∈ frames d ∧
       if coreOnly then L ∈ coreLocations f else L ∈ versionedLocationsList f.
Proof.
  induction d as [f|f p IH] using Dependency_chain_ind; cbn [getAllVersionedLocations frames].
  - split.
    + intros HL. exists f. split; [by left|].
      destruct coreOnly; [by apply elem_of_set_in_order|done].
    + intros (f' & ->%list_elem_of_singleton & HL).
      destruct coreOnly; [by apply elem_of_set_in_order|done].
  - rewrite elem_of_app, IH. split.
    + intros [(f' & ? & ?)|HL]; [exists f'; split; [by right|done]|].
      exists f. split; [by left|].
      destruct coreOnly; [by apply elem_of_set_in_order|done].
    + intros (f' & [->|?]%elem_of_cons & HL); [|left; by exists f'].
      right. destruct coreOnly; [by apply elem_of_set_in_order|done].
Qed.

(** X29.  On a chain of any length, when [computeCoreLocations] returns it has
    changed nothing but the core locations: the graph has the nodes it had,
    every frame keeps its other members, the locations the chain lists are
    the same in the same order, every location that was core in a frame is
    still core in it, and every sink location of the graph is now core. *)
Theorem computeCoreLocations_only_adds_core_locations
    (fuel : nat) (d d' : Dependency) (g g' : LocationGraph) :
  computeCoreLocations fuel d g = Some (d', g') →
  allNodes g' = allNodes g ∧
  Forall2 (λ f f', f' = set_coreLocations (coreLocations f') f ∧
                   coreLocations f ⊆ coreLocations f') (frames d) (frames d') ∧
  getAllVersionedLocations false d' = getAllVersionedLocations false d ∧
  (∀ L, L ∈ getAllVersionedLocations true d → L ∈ getAllVersionedLocations true d') ∧
  (∀ L, L ∈ getSinkLocations g → L ∈ getAllVersionedLocations true d').
Proof.
  revert d' g g'.
  induction d as [f|f p IH] using Dependency_chain_ind; intros d' g g';
    cbn [computeCoreLocations].
  - intros [= <- <-]. split; [done|]. split.
    { constructor; [|constructor]. split; [done|]. cbn. set_solver. }
    split; [done|]. cbn. split; intros L; rewrite !elem_of_set_in_order; set_solver.
  - destruct (consumeSinksWithLocations fuel (versionedLocationsList f) g)
      as [g1|] eqn:Hconsume; [|done]. cbn.
    destruct (computeCoreLocations fuel p g1) as [[p' g2]|] eqn:Hparent; [|done]. cbn.
    intros [= <- <-].
    apply consumeSinksWithLocations_fixpoint in Hconsume as [_ Hnodes].
    destruct (IH _ _ _ Hparent) as (Hnodes' & Hframes & Hlist & Hcore & _).
    split; [congruence|]. split.
    { cbn [frames]. constructor; [|done]. split; [done|]. cbn. set_solver. }
    split; [cbn; by rewrite Hlist|].
    cbn. split; intros L; rewrite !elem_of_app, !elem_of_set_in_order.
    + intros [?|?]; [left; by apply Hcore|right; set_solver].
    + intros ?. right. set_solver.
Qed.

Lemma computeCoreLocations_only_adds_core_locations_witness :
  ∃ d' g',
    computeCoreLocations 3 load_chain load_graph = Some (d', g') ∧
    getAllVersionedLocations false d' = getAllVersionedLocations false load_chain ∧
    ∀ L, L ∈ getSinkLocations load_graph → L ∈ getAllVersionedLocations true d'.
Proof.
  destruct (computeCoreLocations 3 load_chain load_graph) as [[d' g']|] eqn:Hrun;
    [|by vm_compute in Hrun].
  exists d', g'. split; [done|].
  by destruct (computeCoreLocations_only_adds_core_locations 3 load_chain d' load_graph g' Hrun)
    as (_ & _ & ? & _ & ?).
Defined.


Section LoadFacts.

Variable ir : nat → llvmValue.
Variable argumentParent : nat → option (option string).

(** X30.  A load through a pointer whose latest version resolves to a location
    that holds a stored value: [buildLoadDependency] returns true, the
    loaded value gets one fresh version as its latest in the innermost
    frame, the only flow source of the new version is the stored value,
    through that location, so that the location sources of the new version
    are that one pair; the store itself is as before. *)
Theorem buildLoadDependency_reads_the_stored_value
    (fuel : nat) (address value : nat) (addressExpr valueExpr : ref)
    (d : Dependency) (h : Heap) (a L V : nat) :
  isa_Constant (kind (ir address)) = false →
  getLatestValueNoConstantCheck d address = a → a ≠ 0 →
  resolveLocation argumentParent d h a = Some (L, d, h) → L ≠ 0 →
  stores d L = [V] →
  flowsToMap (frame d) !! S (length (values h)) = None →
  let fresh := S (length (values h)) in
  ∃ d' h',
    buildLoadDependency ir argumentParent fuel address addressExpr value valueExpr d h
      = Some (true, d', h') ∧
    parentDependency d' = parentDependency d ∧
    getLatestValueNoConstantCheck d' value = fresh ∧
    value_of h' fresh = Some value ∧
    expression_of h' fresh = valueExpr ∧
    flowsToMap (frame d') = <[fresh := {[V := L]}]> (flowsToMap (frame d)) ∧
    directLocalFlowSources (frame d') fresh = [V] ∧
    directLocationSources (S fuel) d' fresh = Some {[V := L]} ∧
    stores d' L = [V].
Proof.
  intros Hkind Hlatest Ha Hresolve HL Hstored Hflows fresh. subst fresh.
  unfold buildLoadDependency, resolveLocationTransitively.
  rewrite getLatestValue_non_constant, Hlatest by done.
  rewrite !decide_False by done. rewrite Hresolve. cbn [mbind option_bind].
  rewrite decide_True by done. cbn [mbind option_bind].
  rewrite decide_False by done.
  cbn [foldl load_from]. rewrite Hstored. destruct d as [f parent].
  cbn [foldl frame parentDependency getNewVersionedValue new_VersionedValue].
  cbn [frame] in Hflows.
  set (fresh := S (length (values h))) in *.
  set (f1 := set_valuesMap (map_push_back value fresh (valuesMap f)) f).
  set (f2 := addDependencyViaLocation V fresh L f1).
  assert (flowsToMap f2 = <[fresh := {[V := L]}]> (flowsToMap f)) as Hmap.
  { unfold f2, addDependencyViaLocation. cbn [flowsToMap set_flowsToMap f1 set_valuesMap].
    rewrite Hflows. unfold map_insert_new.
    by rewrite lookup_empty, insert_empty. }
  eexists _, _. split; [reflexivity|]. cbn [frame parentDependency].
  split; [done|]. split.
  { cbn [getLatestValueNoConstantCheck].
    change (valuesMap f2) with (map_push_back value fresh (valuesMap f)).
    rewrite lookup_map_push_back, decide_True by done. cbn. by rewrite last_snoc. }
  split.
  { unfold value_of, fresh. cbn. by rewrite lookup_app_r, Nat.sub_diag. }
  split.
  { unfold expression_of, fresh. cbn. by rewrite lookup_app_r, Nat.sub_diag. }
  split; [done|]. split.
  { unfold directLocalFlowSources. rewrite Hmap, lookup_insert_eq.
    apply keys_in_order_singleton. }
  split.
  { assert (directLocalLocationSources (S fuel) f2 fresh = Some {[V := L]}) as Hlocal.
    { cbn [directLocalLocationSources]. rewrite Hmap, lookup_insert_eq.
      rewrite entries_in_order_singleton. cbn -[directLocalLocationSources].
      rewrite decide_False by done. cbn.
      rewrite decide_False by (intros Hempty; by apply (map_non_empty_singleton V L)).
      by rewrite insert_empty. }
    assert (filter (λ it : nat * nat, it.2 ≠ 0) ({[V := L]} : gmap nat nat) = {[V := L]})
      as Hfilter by (by rewrite map_filter_singleton_True).
    destruct parent as [p|]; cbn [directLocationSources];
      rewrite Hlocal; cbn -[directLocationSources]; [|by rewrite Hfilter].
    rewrite decide_False by (intros Hempty; by apply (map_non_empty_singleton V L)).
    rewrite entries_in_order_singleton. cbn -[directLocationSources].
    rewrite decide_False by (by intros [? _]). cbn.
    by rewrite Hfilter, (right_id_L ∅ (∪)). }
  revert Hstored. cbn [stores].
  by change (storesMap f2) with (storesMap f).
Qed.

End LoadFacts.

Lemma buildLoadDependency_reads_the_stored_value_witness :
  ∃ d' h',
    buildLoadDependency binding_ir main_arguments 2 901 None 904 None
                        pointer_chain pointer_heap = Some (true, d', h') ∧
    parentDependency d' = parentDependency pointer_chain ∧
    getLatestValueNoConstantCheck d' 904 = 4 ∧
    value_of h' 4 = Some 904 ∧
    expression_of h' 4 = None ∧
    flowsToMap (frame d') = <[4 := {[3 := 5]}]> (flowsToMap (frame pointer_chain)) ∧
    directLocalFlowSources (frame d') 4 = [3] ∧
    directLocationSources 3 d' 4 = Some {[3 := 5]} ∧
    stores d' 5 = [3].
Proof.
  apply (buildLoadDependency_reads_the_stored_value binding_ir main_arguments 2 901 904
           None None pointer_chain pointer_heap 1 5 3);
    try reflexivity; lia.
Defined.

(** X21.  The location recorded last for a value is the one it resolves to:
    after [addPointerEquality(value, location)] on the innermost frame,
    [resolveLocation(value)] returns [location], whatever was recorded for
    the value before, in this frame or in an ancestor, and changes
    nothing. *)
Theorem resolveLocation_after_addPointerEquality
    (argumentParent : nat → option (option string))
    (f : Frame) (parent : option Dependency) (h : Heap) (value location : nat) :
  value ≠ 0 →
  let d := mkDependency (addPointerEquality value location f) parent in
  resolveLocation argumentParent d h value = Some (location, d, h).
Proof.
  intros Hvalue d. subst d. cbn [resolveLocation].
  rewrite decide_False by done.
  change (equalityMap (addPointerEquality value location f))
    with (map_push_back value location (equalityMap f)).
  rewrite lookup_map_push_back, decide_True by done.
  by rewrite last_snoc.
Qed.

Lemma resolveLocation_after_addPointerEquality_witness :
  let d := mkDependency (addPointerEquality 1 6 (frame pointer_chain)) None in
  resolveLocation main_arguments d pointer_heap 1 = Some (6, d, pointer_heap).
Proof.
  apply (resolveLocation_after_addPointerEquality main_arguments (frame pointer_chain)
           None pointer_heap 1 6).
  lia.
Defined.

(** X19.  A constant that is no global value gets a new versioned value at
    every lookup: [getLatestValue] never returns a version it made before
    but appends a fresh one to the list of the innermost frame, and for a
    constant [getelementptr] expression it allocates a new location and
    records the equality as well; the ancestors are not consulted. *)
Theorem getLatestValue_of_constant_allocates
    (ir : nat → llvmValue) (f : Frame) (parent : option Dependency) (h : Heap)
    (value : nat) (valueExpr : ref) :
  isa_Constant (kind (ir value)) = true →
  isa_GlobalValue (kind (ir value)) = false →
  let fresh := S (length (values h)) in
  ∃ f' h',
    getLatestValue ir (mkDependency f parent) h value valueExpr
      = (fresh, mkDependency f' parent, h') ∧
    valuesMap f' !! value = Some (default [] (valuesMap f !! value) ++ [fresh]) ∧
    values h' = values h ++ [mkVersionedValue value valueExpr false] ∧
    if isa_ConstantExpr_GEP (kind (ir value)) then
      locations h' = locations h ++ [mkVersionedLocation value valueExpr] ∧
      versionedLocationsList f' = versionedLocationsList f ++ [S (length (locations h))] ∧
      equalityMap f' !! fresh
        = Some (default [] (equalityMap f !! fresh) ++ [S (length (locations h))])
    else
      locations h' = locations h ∧
      versionedLocationsList f' = versionedLocationsList f ∧
      equalityMap f' = equalityMap f.
Proof.
  intros Hconst Hglobal fresh. cbn [getLatestValue].
  destruct (isa_ConstantExpr_GEP (kind (ir value))) eqn:Hgep.
  - eexists _, _. split; [reflexivity|]. cbn.
    split; [by rewrite lookup_map_push_back, decide_True|].
    split; [done|]. split; [done|]. split; [done|].
    by rewrite lookup_map_push_back, decide_True.
  - rewrite Hconst, Hglobal. cbn [andb negb].
    eexists _, _. split; [reflexivity|]. cbn.
    split; [by rewrite lookup_map_push_back, decide_True|]. done.
Qed.

Lemma getLatestValue_of_constant_allocates_witness :
  let ir := λ _, mkValue ConstantExprGEP true in
  ∃ f' h',
    getLatestValue ir (mkDependency (frame pointer_chain) None) pointer_heap 901 None
      = (4, mkDependency f' None, h') ∧
    valuesMap f' !! 901 = Some (default [] (valuesMap (frame pointer_chain) !! 901) ++ [4]) ∧
    values h' = values pointer_heap ++ [mkVersionedValue 901 None false] ∧
    if isa_ConstantExpr_GEP (kind (ir 901)) then
      locations h' = locations pointer_heap ++ [mkVersionedLocation 901 None] ∧
      versionedLocationsList f'
        = versionedLocationsList (frame pointer_chain) ++ [S (length (locations pointer_heap))] ∧
      equalityMap f' !! 4
        = Some (default [] (equalityMap (frame pointer_chain) !! 4)
                  ++ [S (length (locations pointer_heap))])
    else
      locations h' = locations pointer_heap ∧
      versionedLocationsList f' = versionedLocationsList (frame pointer_chain) ∧
      equalityMap f' = equalityMap (frame pointer_chain).
Proof.
  intros ir.
  apply (getLatestValue_of_constant_allocates ir (frame pointer_chain) None pointer_heap
           901 None); reflexivity.
Defined.

End DepFacts.
